(** * Topos: rhythm gates, counters and pattern players

    A shallow embedding of the time filters ([mod], [div], [onbar] and
    their pulse and bar variants), the rhythm generators ([euclid], [bin]),
    the named counters and variables, the number helpers ([quantize],
    [clamp], [line], [min], [max], [mean], the random ranges) and the array
    extensions of [src/API.ts]; of the pattern player of
    [src/classes/ZPlayer.ts]; and of [random] and [out] of [src/Note.ts].

    JavaScript numbers are doubles.  They are embedded as exact rationals
    together with [NaN] and the two infinities; rounding of the double
    arithmetic and the sign of zero are not represented.  A property that
    depends on the value of a sum, a difference or a product therefore
    either speaks of that value as the program computes it, or assumes that
    the exact result is a double ([JS.is_double], [JS.safe_integer]): the
    double operation then returns the exact result.  The functions whose
    arguments are array lengths, indices or counts take [Z].  Arrays are
    lists: the largest length an engine allocates (at most [2^32 - 1]) is
    not represented.  The registries [this.counters] and [this.variables]
    are plain objects; as finite maps they stand for the keys that
    [Object.prototype] does not define ([API.inherited]). *)

From Stdlib Require Import ZArith QArith Qround Qabs Lia Lqa Ascii String.
From stdpp Require Import gmap strings list pretty.

Local Open Scope Z_scope.

(** ** JavaScript numbers *)

Module JS.

Inductive number : Type :=
  | Num (q : Q)
  | NaN
  | Inf (negative : bool).

Definition of_Z (z : Z) : number := Num (inject_Z z).

Definition Qneg_bool (q : Q) : bool := negb (Qle_bool 0 q).

(** [a * b] *)
Definition mul (a b : number) : number :=
  match a, b with
  | NaN, _ | _, NaN => NaN
  | Num x, Num y => Num (x * y)
  | Num x, Inf s | Inf s, Num x =>
      if Qeq_bool x 0 then NaN else Inf (xorb s (Qneg_bool x))
  | Inf s, Inf t => Inf (xorb s t)
  end.

(** [a / b]; a zero divisor is taken as [+0]. *)
Definition div (a b : number) : number :=
  match a, b with
  | NaN, _ | _, NaN => NaN
  | Num x, Num y =>
      if Qeq_bool y 0
      then (if Qeq_bool x 0 then NaN else Inf (Qneg_bool x))
      else Num (x / y)
  | Num _, Inf _ => Num 0
  | Inf s, Num y => Inf (xorb s (Qneg_bool y))
  | Inf _, Inf _ => NaN
  end.

(** [Math.floor] *)
Definition floor (a : number) : number :=
  match a with
  | Num x => of_Z (Qfloor x)
  | _ => a
  end.

(** Rounding towards zero, as the quotient of [%] does. *)
Definition Qtrunc (q : Q) : Z :=
  if Qle_bool 0 q then Qfloor q else Qceiling q.

(** [a % b]: the remainder has the sign of the dividend; it is [NaN] when
    the divisor is zero or the dividend is infinite. *)
Definition rem (a b : number) : number :=
  match a, b with
  | NaN, _ | _, NaN => NaN
  | Inf _, _ => NaN
  | Num x, Inf _ => Num x
  | Num x, Num y =>
      if Qeq_bool y 0 then NaN
      else Num (x - y * inject_Z (Qtrunc (x / y)))
  end.

(** [a === b] on numbers: [NaN] equals nothing. *)
Definition strict_eq (a b : number) : bool :=
  match a, b with
  | Num x, Num y => Qeq_bool x y
  | Inf s, Inf t => Bool.eqb s t
  | _, _ => false
  end.

(** [a + b] *)
Definition add (a b : number) : number :=
  match a, b with
  | NaN, _ | _, NaN => NaN
  | Num x, Num y => Num (x + y)
  | Num _, Inf s | Inf s, Num _ => Inf s
  | Inf s, Inf t => if Bool.eqb s t then Inf s else NaN
  end.

(** [a >= b]: false as soon as one side is [NaN]. *)
Definition ge (a b : number) : bool :=
  match a, b with
  | NaN, _ | _, NaN => false
  | Num x, Num y => Qle_bool y x
  | Num _, Inf t => t
  | Inf s, Num _ => negb s
  | Inf s, Inf t => orb (negb s) t
  end.

(** [%] on integers: [None] stands for [NaN]. *)
Definition rem_Z (a b : Z) : option Z :=
  if b =? 0 then None else Some (Z.rem a b).

(** [-a] and [a - b] *)
Definition neg (a : number) : number :=
  match a with
  | Num x => Num (- x)
  | NaN => NaN
  | Inf s => Inf (negb s)
  end.

Definition sub (a b : number) : number := add a (neg b).

(** [Math.abs] *)
Definition abs (a : number) : number :=
  match a with
  | Num x => Num (Qabs x)
  | NaN => NaN
  | Inf _ => Inf false
  end.

(** [a < b], [a <= b] and [a > b]: false as soon as one side is [NaN]. *)
Definition lt (a b : number) : bool :=
  match a, b with
  | NaN, _ | _, NaN => false
  | Num x, Num y => negb (Qle_bool y x)
  | Num _, Inf t => negb t
  | Inf s, Num _ => s
  | Inf s, Inf t => s && negb t
  end.

Definition le (a b : number) : bool := ge b a.
Definition gt (a b : number) : bool := lt b a.

(** [Math.min(a, b)] and [Math.max(a, b)]: [NaN] when an argument is. *)
Definition min2 (a b : number) : number :=
  match a, b with
  | NaN, _ | _, NaN => NaN
  | _, _ => if lt b a then b else a
  end.

Definition max2 (a b : number) : number :=
  match a, b with
  | NaN, _ | _, NaN => NaN
  | _, _ => if lt a b then b else a
  end.

(** [Math.ceil] *)
Definition ceil (a : number) : number :=
  match a with
  | Num x => of_Z (Qceiling x)
  | _ => a
  end.

(** *** The rationals that are doubles

    A finite double is [m * 2^e] or its opposite, with [0 ≤ m < 2^53] and
    [-1074 ≤ e ≤ 971].  When the exact result of [+], [-], [*] or [/] on
    two doubles is a double, that double is what the operation returns. *)

(** [p] without its factors 2, and the exponent of [p] when it is a power
    of 2 *)
Fixpoint odd_part (p : positive) : positive :=
  match p with
  | xO p' => odd_part p'
  | _ => p
  end.

Fixpoint exponent_of_2 (p : positive) : option Z :=
  match p with
  | xH => Some 0
  | xO p' => Z.succ <$> exponent_of_2 p'
  | xI _ => None
  end.

(** [q] is a finite double: in lowest terms its denominator is [2^k] with
    [k ≤ 1074], the odd part of its numerator is below [2^53], and its
    magnitude is below [2^1024]. *)
Definition is_double (q : Q) : bool :=
  let q := Qred q in
  match Qnum q with
  | 0 => true
  | Zpos n | Zneg n =>
      match exponent_of_2 (Qden q) with
      | Some k =>
          (k <=? 1074) && (Zpos (odd_part n) <? 2 ^ 53)
          && (Zpos n <? 2 ^ 1024 * Zpos (Qden q))
      | None => false
      end
  end.

(** [Number.isSafeInteger]: these whole numbers are doubles, and so are
    the whole numbers between them. *)
Definition safe_integer (z : Z) : bool := Z.abs z <=? 2 ^ 53 - 1.

End JS.

(** ** The clock, as far as the API reads it

    The class [Clock] is declared in [Clock.ts]; the fields that the API and
    the player read are taken as data.  [ppqn] and [pulses_since_origin] are
    integer counts. *)

Record TimePosition := mkTimePosition {
  tp_bar : Z;
  tp_beat : Z;
  tp_pulse : Z
}.

Record Clock := mkClock {
  bpm : Q;
  ppqn : Z;
  pulses_since_origin : Z;
  time_position : TimePosition;
  next_beat_in_ticks : Z
}.

(** ** Time filters of [src/API.ts] *)

Module API.

Section TimeFilters.
Variable clock : Clock.

(** [this.ppqn()] without argument and [this.epulse()] *)
Definition api_ppqn : JS.number := JS.of_Z (ppqn clock).
Definition epulse : JS.number := JS.of_Z (pulses_since_origin clock).
Definition bar : Z := tp_bar (time_position clock).

(** [mod = (...n) => n.map(v => epulse() % Math.floor(v * ppqn()) === 0)
                       .some(v => v === true)] *)
Definition mod_ (n : list JS.number) : bool :=
  let results :=
    map (fun value =>
           JS.strict_eq
             (JS.rem epulse (JS.floor (JS.mul value api_ppqn)))
             (JS.of_Z 0)) n in
  existsb (fun value => Bool.eqb value true) results.

(** [div = (chunk) => Math.floor(epulse() / Math.floor(chunk * ppqn())) % 2 === 0] *)
Definition div (chunk : JS.number) : bool :=
  let time_pos := epulse in
  let current_chunk :=
    JS.floor (JS.div time_pos (JS.floor (JS.mul chunk api_ppqn))) in
  JS.strict_eq (JS.rem current_chunk (JS.of_Z 2)) (JS.of_Z 0).

(** [onbar = (n, ...bar) => { const bar_list = [...Array(n).keys()].map(i => i + 1);
                              return bar.some(b => bar_list.includes(b % n)); }]

    [Array(n)] throws a [RangeError] when [n] is negative: [None] stands
    for that exception.  The body reads neither [clock] nor [this.bar()]. *)
Definition onbar (n : Z) (bar : list Z) : option bool :=
  if n <? 0 then None
  else
    let bar_list := map (fun i => i + 1) (seqZ 0 n) in
    Some (existsb
            (fun b => match JS.rem_Z b n with
                      | Some r => bool_decide (r ∈ bar_list)
                      | None => false
                      end) bar).

(** The documented behaviour of [onbar], in the words of the
    specification: the current bar, brought into [1..n] by
    [((bar - 1) mod n) + 1], matches one of the listed bars brought into
    [1..n] the same way.  It is what [onbar] is compared with. *)
Definition onbar_spec (n : Z) (bars : list Z) : bool :=
  existsb (fun b => ((bar - 1) `mod` n) + 1 =? ((b - 1) `mod` n) + 1) bars.

End TimeFilters.

(** *** Counters *)

(** The keys that every plain object inherits from [Object.prototype]:
    for them [name in obj] is true and [obj[name]] reads the inherited
    function (the prototype itself for [__proto__]), whatever [obj] holds
    of its own. *)
Definition inherited_keys : list string :=
  ["constructor"; "__defineGetter__"; "__defineSetter__"; "hasOwnProperty";
   "__lookupGetter__"; "__lookupSetter__"; "isPrototypeOf";
   "propertyIsEnumerable"; "toString"; "valueOf"; "__proto__";
   "toLocaleString"]%string.

Definition inherited (name : string) : bool :=
  bool_decide (name ∈ inherited_keys).

Record Counter := mkCounter {
  value : Z;
  step : Z;
  limit : option Z
}.

Definition set_value (v : Z) (c : Counter) : Counter :=
  mkCounter v (step c) (limit c).
Definition set_step (s : Z) (c : Counter) : Counter :=
  mkCounter (value c) s (limit c).
Definition set_limit (l : option Z) (c : Counter) : Counter :=
  mkCounter (value c) (step c) l.

(** [counter(name, limit?, step?)]: the registry [this.counters] is passed
    in and returned; an absent argument is [None].  The registry holds the
    counters that earlier calls have put there: [name] ranges over the keys
    that [Object.prototype] does not already define ([inherited name] is
    false; on the others [name in this.counters] is true from the start),
    and a numeric name is the string it converts to.  The numbers are whole;
    [value + step] is the exact sum, which is what the code computes as
    long as it is a safe integer. *)
Definition counter (name : string) (limit_ step_ : option Z)
    (counters : gmap string Counter) : Z * gmap string Counter :=
  match counters !! name with
  | None =>
      (* Create new counter with default step of 1 *)
      let c := mkCounter 0 (default 1 step_) limit_ in
      (value c, <[name := c]> counters)
  | Some c =>
      (* Check if limit has changed *)
      let c := if bool_decide (limit c ≠ limit_)
               then set_limit limit_ (set_value 0 c) else c in
      (* Check if step has changed *)
      let c := if bool_decide (Some (step c) ≠ step_)
               then set_step (default (step c) step_) c else c in
      (* Increment existing iterator by step value *)
      let c := set_value (value c + step c) c in
      (* Check for limit overshoot *)
      let c := match limit c with
               | Some l => if l <? value c then set_value 0 c else c
               | None => c
               end in
      (value c, <[name := c]> counters)
  end.

(** A call on a counter that exists, in the words of the specification:
    [limit] and [step] are updated when they differ from the stored ones, the
    value restarts from 0 when the limit changed, [step] is added, and the
    value wraps to 0 when a limit is defined and exceeded.  It is what
    [counter] is compared with. *)
Definition counter_step_spec (limit_ step_ : option Z) (c : Counter) : Counter :=
  let v0 := if bool_decide (limit c = limit_) then value c else 0 in
  let s := default (step c) step_ in
  let v1 := v0 + s in
  let v := match limit_ with
           | Some l => if bool_decide (l < v1) then 0 else v1
           | None => v1
           end in
  mkCounter v s limit_.

(** The values returned by [k] successive calls with the same arguments. *)
Fixpoint counter_calls (k : nat) (name : string) (limit_ step_ : option Z)
    (counters : gmap string Counter) : list Z :=
  match k with
  | O => []
  | S k' =>
      let '(v, counters') := counter name limit_ step_ counters in
      v :: counter_calls k' name limit_ step_ counters'
  end.

(** *** Rhythmic generators *)

(** [Array.from({ length }, (_, i) => f(i))] *)
Definition array_from_length {A} (length : Z) (f : Z → A) : list A :=
  map f (seqZ 0 length).

(** [arr[k]]: [undefined] ([None]) when [k] is [NaN], negative or past
    the end. *)
Definition index {A} (arr : list A) (k : option Z) : option A :=
  match k with
  | Some i => if i <? 0 then None else arr !! Z.to_nat i
  | None => None
  end.

(** [arr.slice(start, end)], with negative positions counted from the end. *)
Definition relative (len pos : Z) : Z :=
  if pos <? 0 then Z.max (len + pos) 0 else Z.min pos len.

Definition slice {A} (arr : list A) (start : Z) (end_ : option Z) : list A :=
  let len := Z.of_nat (length arr) in
  let k := relative len start in
  let final := match end_ with Some e => relative len e | None => len end in
  take (Z.to_nat (final - k)) (drop (Z.to_nat k) arr).

Definition startsDescent (list : list Z) (i : Z) : bool :=
  let length := Z.of_nat (length list) in
  let nextIndex := JS.rem_Z (i + 1) length in
  match index list (Some i), index list nextIndex with
  | Some a, Some b => if b <? a then true else false
  | _, _ => false
  end.

Definition _euclidean_cycle (pulses length rotate : Z) : list bool :=
  if pulses =? length then array_from_length length (fun _ => true)
  else if length <=? pulses then [true]
  else
    let resList :=
      array_from_length length
        (fun i => Z.rem (Z.rem (pulses * (i - 1)) length + length) length) in
    let cycle := imap (fun i _ => startsDescent resList (Z.of_nat i)) resList in
    if negb (rotate =? 0)
    then slice cycle rotate None ++ slice cycle 0 (Some rotate)
    else cycle.

(** [euclid(iterator, pulses, length, rotate = 0)] *)
Definition euclid (iterator pulses length rotate : Z) : option bool :=
  index (_euclidean_cycle pulses length rotate) (JS.rem_Z iterator length).

(** [n.toString(2)] for an integer [n] *)
Fixpoint pos_digits (p : positive) (acc : string) : string :=
  match p with
  | xH => String "1"%char acc
  | xO p' => pos_digits p' (String "0"%char acc)
  | xI p' => pos_digits p' (String "1"%char acc)
  end.

Definition toString2 (n : Z) : string :=
  match n with
  | Z0 => "0"
  | Zpos p => pos_digits p ""
  | Zneg p => String "-"%char (pos_digits p "")
  end.

(** [convert.split("")]: the characters, one by one *)
Definition split_chars (s : string) : list ascii := list_ascii_of_string s.

Definition bin (iterator n : Z) : option bool :=
  let convert := toString2 n in
  let tobin := map (fun x => Ascii.eqb x "1"%char) (split_chars convert) in
  index tobin (JS.rem_Z iterator (Z.of_nat (length tobin))).

(** *** The other time filters *)

Section MoreTimeFilters.
Variable clock : Clock.

(** [modpulse = (...n) => n.map(v => epulse() % v === 0).some(v => v === true)] *)
Definition modpulse (n : list JS.number) : bool :=
  let results :=
    map (fun value =>
           JS.strict_eq (JS.rem (epulse clock) value) (JS.of_Z 0)) n in
  existsb (fun value => Bool.eqb value true) results.

(** [modbar = (...n) => n.map(v => bar() % Math.floor(v * ppqn()) === 0)
                          .some(v => v === true)] *)
Definition modbar (n : list JS.number) : bool :=
  let results :=
    map (fun value =>
           JS.strict_eq
             (JS.rem (JS.of_Z (bar clock))
                (JS.floor (JS.mul value (api_ppqn clock))))
             (JS.of_Z 0)) n in
  existsb (fun value => Bool.eqb value true) results.

(** [divbar = (chunk) => Math.floor((bar() - 1) / chunk) % 2 === 0] *)
Definition divbar (chunk : JS.number) : bool :=
  let time_pos := JS.sub (JS.of_Z (bar clock)) (JS.of_Z 1) in
  let current_chunk := JS.floor (JS.div time_pos chunk) in
  JS.strict_eq (JS.rem current_chunk (JS.of_Z 2)) (JS.of_Z 0).

End MoreTimeFilters.

(** *** Quantification and math functions *)

(** [quantize(value, quantization)] *)
Definition quantize (value : JS.number) (quantization : list JS.number)
    : JS.number :=
  match quantization with
  | [] => value
  | q0 :: _ =>
      fold_left
        (fun closest q =>
           if JS.lt (JS.abs (JS.sub q value)) (JS.abs (JS.sub closest value))
           then q else closest)
        quantization q0
  end.

(** [clamp(value, min, max)] and [limit(value, min, max)], which has the
    same body *)
Definition clamp (value min max : JS.number) : JS.number :=
  JS.min2 (JS.max2 value min) max.

Definition limit' (value min max : JS.number) : JS.number :=
  JS.min2 (JS.max2 value min) max.

(** [Math.min(...values)] and [Math.max(...values)] *)
Definition min (values : list JS.number) : JS.number :=
  fold_left JS.min2 values (JS.Inf false).

Definition max (values : list JS.number) : JS.number :=
  fold_left JS.max2 values (JS.Inf true).

(** [mean(...values)] *)
Definition mean (values : list JS.number) : JS.number :=
  let sum :=
    fold_left (fun accumulator currentValue => JS.add accumulator currentValue)
      values (JS.of_Z 0) in
  JS.div sum (JS.of_Z (Z.of_nat (length values))).

(** The loop of [line]: [for (let value = start; value <= end; value += step)
    result.push(value)].  [None] when [fuel] iterations did not reach the
    end of the loop. *)
Fixpoint line_loop (fuel : nat) (value end_ step : JS.number)
    : option (list JS.number) :=
  match fuel with
  | O => None
  | S fuel' =>
      if JS.le value end_
      then cons value <$> line_loop fuel' (JS.add value step) end_ step
      else Some []
  end.

(** [line(start, end, step = 1)] *)
Definition line (fuel : nat) (start end_ : JS.number) (step : option JS.number)
    : option (list JS.number) :=
  let step := default (JS.of_Z 1) step in
  if (JS.gt end_ start && JS.gt step (JS.of_Z 0))
     || (JS.lt end_ start && JS.lt step (JS.of_Z 0))
  then line_loop fuel start end_ step
  else Some [].

(** *** Randomness functions; [r] is what the call of [this.randomGen()]
    returned. *)

Definition randI (r min max : JS.number) : JS.number :=
  JS.add (JS.floor (JS.mul r (JS.add (JS.sub max min) (JS.of_Z 1)))) min.

Definition rand (r min max : JS.number) : JS.number :=
  JS.add (JS.mul r (JS.sub max min)) min.

Definition dice (r sides : JS.number) : JS.number :=
  JS.add (JS.floor (JS.mul r sides)) (JS.of_Z 1).

(** *** Variables *)

Section Variables.
Context {V : Type}.

(** The property key of a name: a number is converted to its decimal
    writing, which is what [String(n)] gives for a safe integer. *)
Definition property_key (a : string + Z) : string :=
  match a with
  | inl name => name
  | inr n => pretty n
  end.

(** [variable(a, b?)]: [None] is [undefined]; the registry [this.variables]
    is passed in and returned.  A property may hold [undefined]. *)
Definition variable (a : string + Z) (b : option V)
    (variables : gmap string (option V))
    : option V * gmap string (option V) :=
  match a, b with
  | inl name, None => (mjoin (variables !! name), variables)
  | _, _ =>
      let variables := <[property_key a := b]> variables in
      (mjoin (variables !! property_key a), variables)
  end.

Definition delete_variable (name : string)
    (variables : gmap string (option V)) : gmap string (option V) :=
  delete name variables.

Definition clear_variables (variables : gmap string (option V))
    : gmap string (option V) := ∅.

End Variables.

End API.

(** ** Arrays as shared objects

    [Array.prototype.palindrome] reverses its receiver in place, so arrays
    live in a store and are passed by location. *)

Module Arr.

Abbreviation loc := positive.

Section Store.
Context {A : Type}.

Definition M (X : Type) : Type :=
  gmap loc (list A) → option (X * gmap loc (list A)).

Definition ret {X} (x : X) : M X := fun σ => Some (x, σ).
Definition bind {X Y} (m : M X) (f : X → M Y) : M Y :=
  fun σ => match m σ with
           | Some (x, σ') => f x σ'
           | None => None
           end.

Definition read (l : loc) : M (list A) :=
  fun σ => match σ !! l with Some xs => Some (xs, σ) | None => None end.
Definition write (l : loc) (xs : list A) : M unit :=
  fun σ => match σ !! l with
           | Some _ => Some (tt, <[l := xs]> σ)
           | None => None
           end.
Definition alloc (xs : list A) : M loc :=
  fun σ => let l := fresh (dom σ) in Some (l, <[l := xs]> σ).

(** [Array.from(a)]: a new array with the elements of [a] *)
Definition from (a : loc) : M loc :=
  bind (read a) alloc.

(** [a.reverse()]: reverses [a] in place and returns [a] itself *)
Definition reverse (a : loc) : M loc :=
  bind (read a) (fun xs => bind (write a (rev xs)) (fun _ => ret a)).

(** [a.concat(b)]: a new array *)
Definition concat (a b : loc) : M loc :=
  bind (read a) (fun xs => bind (read b) (fun ys => alloc (xs ++ ys))).

(** [Array.prototype.palindrome] *)
Definition palindrome (this : loc) : M loc :=
  bind (from this) (fun left_to_right =>
  bind (reverse this) (fun reversed =>
  bind (from reversed) (fun right_to_left =>
  concat left_to_right right_to_left))).

End Store.

(** *** The other array extensions

    The readers below take the elements of the receiver.  The methods that
    work in place ([rotate], [unique], [repeatAll], [repeatPair],
    [repeatOdd], [degrade], [shuffle]) return the receiver itself: they are
    given by the elements the receiver holds after the call. *)

Inductive outcome (A : Type) : Type :=
  | Returns (a : A)
  | Throws (message : string).
Arguments Returns {A} a.
Arguments Throws {A} message.

(** [arr[k]] for a number [k]: [undefined] unless [k] is an index of [arr]. *)
Definition index_number {A} (arr : list A) (k : JS.number) : option A :=
  match k with
  | JS.Num q =>
      if Qeq_bool q (inject_Z (Qfloor q))
      then API.index arr (Some (Qfloor q)) else None
  | _ => None
  end.

Section Readers.
Context {A : Type}.
Variable clock : Clock.

(** [loop(index)]: [this[index % this.length]] *)
Definition loop (this : list A) (index : JS.number) : option A :=
  index_number this (JS.rem index (JS.of_Z (Z.of_nat (length this)))).

(** [div(divisor)] *)
Definition div (this : list A) (divisor : JS.number) : option A :=
  let chunk_size := divisor in
  let timepos := API.epulse clock in
  let slice_count :=
    JS.floor (JS.div timepos (JS.floor (JS.mul chunk_size (API.api_ppqn clock)))) in
  index_number this (JS.rem slice_count (JS.of_Z (Z.of_nat (length this)))).

(** [bar()]: [this[(api.app.clock.time_position.bar + 1) % this.length]] *)
Definition bar (this : list A) : option A :=
  index_number this
    (JS.rem (JS.add (JS.of_Z (tp_bar (time_position clock))) (JS.of_Z 1))
       (JS.of_Z (Z.of_nat (length this)))).

(** [pulse()]: [this[api.app.clock.time_position.pulse % this.length]] *)
Definition pulse (this : list A) : option A :=
  index_number this
    (JS.rem (JS.of_Z (tp_pulse (time_position clock)))
       (JS.of_Z (Z.of_nat (length this)))).

(** [pick()] and [random()]: [this[Math.floor(r * this.length)]], where [r]
    is what the random generator returned *)
Definition pick (this : list A) (r : JS.number) : option A :=
  index_number this
    (JS.floor (JS.mul r (JS.of_Z (Z.of_nat (length this))))).

End Readers.

Section InPlace.
Context {A : Type}.

(** [arr.splice(start, deleteCount)]: the elements removed and the elements
    left; [None] is [NaN], which counts as 0. *)
Definition splice (arr : list A) (start deleteCount : option Z)
    : list A * list A :=
  let len := Z.of_nat (length arr) in
  let s := API.relative len (default 0 start) in
  let dc := Z.min (Z.max (default 0 deleteCount) 0) (len - s) in
  (take (Z.to_nat dc) (drop (Z.to_nat s) arr),
   take (Z.to_nat s) arr ++ drop (Z.to_nat (s + dc)) arr).

(** [rotate(steps)] *)
Definition rotate (this : list A) (steps : Z) : list A :=
  let length := Z.of_nat (length this) in
  if (steps <? 0) || (0 <? steps) then
    let steps :=
      if steps <? 0
      then (fun r => length + r) <$> JS.rem_Z steps length
      else JS.rem_Z steps length in
    let '(rotated, rest) := splice this (Z.opp <$> steps) steps in
    rotated ++ rest
  else this.

(** [repeatAll(amount)] *)
Definition repeatAll (this : list A) (amount : Z) : outcome (list A) :=
  if amount <? 1 then Throws "Amount should be at least 1"
  else Returns (x ← this; replicate (Z.to_nat amount) x).

(** [repeatPair(amount)]: the elements at even indexes are repeated *)
Definition repeatPair (this : list A) (amount : Z) : outcome (list A) :=
  if amount <? 1 then Throws "Amount should be at least 1"
  else Returns
         (List.concat (imap (fun i x => if Nat.even i
                                   then replicate (Z.to_nat amount) x
                                   else [x]) this)).

(** [repeatOdd(amount)]: the elements at odd indexes are repeated *)
Definition repeatOdd (this : list A) (amount : Z) : outcome (list A) :=
  if amount <? 1 then Throws "Amount should be at least 1"
  else Returns
         (List.concat (imap (fun i x => if negb (Nat.even i)
                                   then replicate (Z.to_nat amount) x
                                   else [x]) this)).

(** One turn of the loop of [unique]: the array, the set [seen] and
    [writeIndex], at [readIndex]. *)
Definition unique_step `{EqDecision A}
    (st : list A * list A * nat) (readIndex : nat) : list A * list A * nat :=
  let '(arr, seen, writeIndex) := st in
  match arr !! readIndex with
  | Some value =>
      if decide (value ∈ seen) then st
      else (<[writeIndex := value]> arr, value :: seen, S writeIndex)
  | None => st
  end.

(** [unique()]: the loop, then [this.length = writeIndex] *)
Definition unique `{EqDecision A} (this : list A) : list A :=
  let '(arr, _, writeIndex) :=
    foldl unique_step (this, [], 0%nat) (seq 0 (length this)) in
  take writeIndex arr.

(** [[this[i], this[j]] = [this[j], this[i]]] for two indexes of [this] *)
Definition swap (this : list A) (i j : nat) : list A :=
  match this !! j, this !! i with
  | Some a, Some b => <[j := b]> (<[i := a]> this)
  | _, _ => this
  end.

(** The loop of [shuffle]; [random k] is what the [k]-th call of
    [Math.random()] returns, a number of [0, 1).  [randomIndex] is
    [Math.floor(Math.random() * currentIndex)], with the exact product. *)
Fixpoint shuffle_loop (random : nat → Q) (k : nat) (currentIndex : nat)
    (this : list A) : list A :=
  match currentIndex with
  | O => this
  | S currentIndex' =>
      let randomIndex :=
        Z.to_nat (Qfloor (random k * inject_Z (Z.of_nat currentIndex))) in
      shuffle_loop random (S k) currentIndex'
        (swap this currentIndex' randomIndex)
  end.

Definition shuffle (random : nat → Q) (this : list A) : list A :=
  shuffle_loop random 0 (length this) this.

(** The loop of [degrade], from index [i], the [k]-th call of
    [Math.random()] coming next.  [None] when [fuel] turns did not reach
    the end of the loop. *)
Fixpoint degrade_loop (fuel : nat) (random : nat → Q) (k : nat) (amount : Q)
    (i : nat) (this : list A) : option (list A) :=
  match fuel with
  | O => None
  | S fuel' =>
      if (i <? length this)%nat then
        let rand := (random k * 100)%Q in
        if negb (Qle_bool amount rand) then
          if (1 <? length this)%nat
          then degrade_loop fuel' random (S k) amount i (delete i this)
          else Some this
        else degrade_loop fuel' random (S k) amount (S i) this
      else Some this
  end.

(** [degrade(amount)]; the loop is given one turn for each element of the
    array and one for the test that ends it. *)
Definition degrade (random : nat → Q) (this : list A) (amount : Q)
    : option (outcome (list A)) :=
  if negb (Qle_bool 0 amount) || negb (Qle_bool amount 100)
  then Some (Throws "Amount should be between 0 and 100")
  else if (length this <=? 1)%nat then Some (Returns this)
  else Returns <$> degrade_loop (S (length this)) random 0 amount 0 this.

End InPlace.

End Arr.

(** ** The pattern player of [src/classes/ZPlayer.ts] *)

Module Player.

(** The fields of [Player] that [areWeThereYet] reads or writes.  [current]
    holds the duration of the current event once [next] has set it;
    [notStarted] is the answer of [this.ziffers.notStarted()], which belongs
    to the zifferjs library. *)
Record Player := mkPlayer {
  firstCallTime : Z;
  lastCallTime : Z;
  waitTime : Z;
  played : bool;
  current : option Q;
  index : Z;
  notStarted : bool
}.

(** The field initialisers of the class; [ziffers] is what the zifferjs
    constructor has built. *)
Definition new_player (ziffers_notStarted : bool) : Player :=
  {| firstCallTime := 0; lastCallTime := 0; waitTime := 0; played := false;
     current := None; index := -1; notStarted := ziffers_notStarted |}.

Section WithClock.
Variable clock : Clock.

(** Modelled from the spec: [Clock.convertPulseToSecond], which is in
    [Clock.ts]: [pulseToSeconds(p) = p * pulse_duration] with
    [pulse_duration = 60 / (bpm * ppqn)]. *)
Definition pulseToSecond (pulse : Z) : JS.number :=
  JS.mul (JS.of_Z pulse)
    (JS.div (JS.Num 60) (JS.mul (JS.Num (bpm clock)) (JS.of_Z (ppqn clock)))).

(** [if (clock.pulses_since_origin < this.lastCallTime) { ... }] *)
Definition rewind_check (p : Player) : Player :=
  if pulses_since_origin clock <? lastCallTime p
  then {| firstCallTime := firstCallTime p; lastCallTime := 0;
          waitTime := waitTime p; played := played p;
          current := current p; index := 0; notStarted := notStarted p |}
  else p.

Definition howAboutNow (p : Player) : bool :=
  (notStarted p
   && ((tp_pulse (time_position clock) =? 1)
       || (next_beat_in_ticks clock <=? pulses_since_origin clock + 1))
   && (firstCallTime p + waitTime p <=? pulses_since_origin clock + 1))
  || match current p with
     | Some duration =>
         JS.ge (pulseToSecond (pulses_since_origin clock + 1))
           (JS.add (pulseToSecond (lastCallTime p))
              (JS.mul (JS.mul (JS.Num duration) (JS.Num 4))
                 (pulseToSecond (ppqn clock))))
     | None => false
     end.

(** [areWeThereYet]: the answer and the player after the call.  The answer
    is the truth value of [howAboutNow], which is what [sound] and [midi]
    test: the JavaScript value is [undefined], not [false], when the first
    alternative fails and [this.current] is not set. *)
Definition areWeThereYet (p : Player) : bool * Player :=
  let p := rewind_check p in
  let now := howAboutNow p in
  let p := {| firstCallTime := firstCallTime p; lastCallTime := lastCallTime p;
              waitTime := waitTime p; played := played p;
              current := current p;
              index := if now then index p + 1 else index p;
              notStarted := notStarted p |} in
  let p := if now && notStarted p
           then {| firstCallTime := pulses_since_origin clock + 1;
                   lastCallTime := lastCallTime p;
                   waitTime := waitTime p; played := played p;
                   current := current p; index := index p;
                   notStarted := notStarted p |}
           else p in
  (now, p).

End WithClock.

Section MorePlayer.
Variable clock : Clock.

(** [updateLastCallTime()] *)
Definition updateLastCallTime (p : Player) : Player :=
  if notStarted p || played p
  then {| firstCallTime := firstCallTime p;
          lastCallTime := pulses_since_origin clock;
          waitTime := waitTime p; played := false;
          current := current p; index := index p;
          notStarted := notStarted p |}
  else p.

(** [wait(value)]; [ziffers_index] is [this.ziffers.index], which belongs to
    the zifferjs library.  [waitTime] is [Math.ceil(value * 4 * ppqn)], with
    the exact product. *)
Definition wait (ziffers_index : Z) (value : Q) (p : Player) : Player :=
  if (index p =? -1) && (ziffers_index =? -1)
  then {| firstCallTime := firstCallTime p; lastCallTime := lastCallTime p;
          waitTime := Qceiling (value * 4 * inject_Z (ppqn clock));
          played := played p; current := current p; index := index p;
          notStarted := notStarted p |}
  else p.

End MorePlayer.

End Player.

(** ** MIDI notes of [src/Note.ts]

    [this.values] holds the numbers of the event under their names; the
    class [Event] that declares it, and the MIDI connection, are outside
    [Note.ts]. *)

Module Note.

(** A value is truthy when it is there and is not zero. *)
Definition truthy (v : option Q) : bool :=
  match v with
  | Some q => negb (Qeq_bool q 0)
  | None => false
  end.

(** [random(min = 0, max = 127)]; [r] is what [this.randomGen()] returned. *)
Definition random (r : Q) (min max : option Z) (values : gmap string Q)
    : gmap string Q :=
  let min := default 0 min in
  let max := default 127 max in
  let min := Z.min (Z.max min 0) 127 in
  let max := Z.min (Z.max max 0) 127 in
  <["note" := inject_Z (Qfloor (r * inject_Z (max - min + 1)) + min)]> values.

(** What [out()] hands to [sendMidiNote]. *)
Record MidiNote := mkMidiNote {
  mn_note : Q;
  mn_channel : Q;
  mn_velocity : Q;
  mn_sustain : Q;
  mn_port : Z;
  mn_bend : option Q
}.

(** [out()]; [pulse_duration] is the clock's, [getMidiOutputIndex] and
    [currentMidiPortIndex] are the answers of the MIDI connection. *)
Definition out (clock : Clock) (pulse_duration : Q)
    (getMidiOutputIndex : Q → Z) (currentMidiPortIndex : Z)
    (values : gmap string Q) : MidiNote :=
  let note := if truthy (values !! "note")
              then default 0%Q (values !! "note") else 60%Q in
  let channel := if truthy (values !! "channel")
                 then default 0%Q (values !! "channel") else 0%Q in
  let velocity := if truthy (values !! "velocity")
                  then default 0%Q (values !! "velocity") else 100%Q in
  let sustain :=
    if truthy (values !! "sustain")
    then (default 0 (values !! "sustain") * pulse_duration
          * inject_Z (ppqn clock))%Q
    else (pulse_duration * inject_Z (ppqn clock))%Q in
  let bend := if truthy (values !! "bend") then values !! "bend" else None in
  let port := if truthy (values !! "port")
              then getMidiOutputIndex (default 0%Q (values !! "port"))
              else currentMidiPortIndex in
  mkMidiNote note channel velocity sustain port bend.

End Note.

(** * Properties *)

(** ** Arithmetic of [%] and [/] on integer operands *)

Section NumberFacts.

Lemma inject_Z_nonzero b : b ≠ 0 → ¬ (inject_Z b == 0)%Q.
Proof.
  intros Hb E. apply Hb. unfold Qeq in E. simpl in E. lia.
Qed.

Lemma Qle_bool_inject_div a b :
  0 < b → Qle_bool 0 (inject_Z a / inject_Z b) = (0 <=? a).
Proof.
  intros Hb. destruct (Z.leb_spec 0 a) as [Ha|Ha].
  - apply Qle_bool_iff. apply Qle_shift_div_l.
    + change 0%Q with (inject_Z 0). rewrite <- Zlt_Qlt. exact Hb.
    + rewrite Qmult_0_l. change 0%Q with (inject_Z 0).
      rewrite <- Zle_Qle. exact Ha.
  - apply not_true_is_false. intros H%Qle_bool_iff.
    apply (Qmult_le_compat_r _ _ (inject_Z b)) in H.
    2:{ change 0%Q with (inject_Z 0). rewrite <- Zle_Qle. lia. }
    rewrite Qmult_0_l in H. rewrite Qmult_comm, Qmult_div_r in H.
    + change 0%Q with (inject_Z 0) in H. rewrite <- Zle_Qle in H. lia.
    + apply inject_Z_nonzero. lia.
Qed.

Lemma Qdiv_opp_opp a b :
  (inject_Z a / inject_Z b == inject_Z (- a) / inject_Z (- b))%Q.
Proof.
  destruct (Z.eq_dec b 0) as [->|Hb].
  - simpl. unfold Qdiv. simpl. rewrite !Qmult_0_r. reflexivity.
  - rewrite !inject_Z_opp. field. by apply inject_Z_nonzero.
Qed.

Lemma Qtrunc_comp x y : (x == y)%Q → JS.Qtrunc x = JS.Qtrunc y.
Proof.
  intros E. unfold JS.Qtrunc.
  assert (Qle_bool 0 x = Qle_bool 0 y) as ->.
  { apply eq_true_iff_eq. rewrite !Qle_bool_iff. rewrite E. reflexivity. }
  rewrite (Qfloor_comp _ _ E), (Qceiling_comp _ _ E). reflexivity.
Qed.

Lemma Qtrunc_div_pos a b :
  0 < b → JS.Qtrunc (inject_Z a / inject_Z b) = Z.quot a b.
Proof.
  intros Hb. unfold JS.Qtrunc. rewrite Qle_bool_inject_div by exact Hb.
  destruct (Z.leb_spec 0 a) as [Ha|Ha].
  - rewrite <- Zdiv_Qdiv. symmetry. apply Z.quot_div_nonneg; lia.
  - unfold Qceiling.
    assert (- (inject_Z a / inject_Z b) == inject_Z (- a) / inject_Z b)%Q as E.
    { rewrite inject_Z_opp. field. apply inject_Z_nonzero. lia. }
    rewrite (Qfloor_comp _ _ E), <- Zdiv_Qdiv.
    rewrite <- (Z.quot_div_nonneg (- a) b) by lia.
    rewrite Z.quot_opp_l by lia. lia.
Qed.

(** The quotient that [%] subtracts is [Z.quot] on integers. *)
Lemma Qtrunc_div_Z a b :
  b ≠ 0 → JS.Qtrunc (inject_Z a / inject_Z b) = Z.quot a b.
Proof.
  intros Hb.
  destruct (Z.lt_total 0 b) as [H|[H|H]]; [by apply Qtrunc_div_pos|lia|].
  rewrite (Qtrunc_comp _ _ (Qdiv_opp_opp a b)).
  rewrite Qtrunc_div_pos by lia.
  rewrite Z.quot_opp_opp by lia. reflexivity.
Qed.

(** [a % b === 0] on integers: never with a zero divisor, otherwise when
    the truncated remainder vanishes. *)
Lemma rem_of_Z_zero a b :
  JS.strict_eq (JS.rem (JS.of_Z a) (JS.of_Z b)) (JS.of_Z 0)
  = negb (b =? 0) && (Z.rem a b =? 0).
Proof.
  unfold JS.of_Z, JS.rem. destruct (Z.eqb_spec b 0) as [->|Hb]; [reflexivity|].
  destruct (Qeq_bool (inject_Z b) 0) eqn:E.
  { apply Qeq_bool_iff in E. by apply inject_Z_nonzero in E. }
  simpl. rewrite Qtrunc_div_Z by exact Hb.
  apply eq_true_iff_eq. rewrite Qeq_bool_iff, Z.eqb_eq.
  unfold Qeq, Qminus, Qplus, Qmult, Qopp, inject_Z; cbn [Qnum Qden].
  pose proof (Z.quot_rem' a b). lia.
Qed.

Lemma mul_floor_Z (v : Q) (k : Z) :
  JS.floor (JS.mul (JS.Num v) (JS.of_Z k)) = JS.of_Z (Qfloor (v * inject_Z k)).
Proof. reflexivity. Qed.

Lemma floor_div_of_Z a b :
  0 < b → JS.floor (JS.div (JS.of_Z a) (JS.of_Z b)) = JS.of_Z (a / b).
Proof.
  intros Hb. unfold JS.of_Z, JS.div.
  destruct (Qeq_bool (inject_Z b) 0) eqn:E.
  { apply Qeq_bool_iff in E. apply inject_Z_nonzero in E; [done|lia]. }
  unfold JS.floor, JS.of_Z. by rewrite <- Zdiv_Qdiv.
Qed.

Lemma rem2_even k : (Z.rem k 2 =? 0) = Z.even k.
Proof.
  apply eq_true_iff_eq. rewrite Z.eqb_eq, Z.rem_mod_eq_0 by lia.
  rewrite Zmod_even. destruct (Z.even k); split; (done || lia).
Qed.

End NumberFacts.

(** ** [mod] and [div] *)

Section TimeFilterFacts.

(** The modulus that [mod] and [div] compute from a finite value. *)
Lemma computed_modulus c (v : Q) :
  JS.floor (JS.mul (JS.Num v) (API.api_ppqn c))
  = JS.of_Z (Qfloor (v * inject_Z (ppqn c))).
Proof. reflexivity. Qed.

Lemma of_Z_inj (m n : Z) : JS.of_Z m = JS.of_Z n → m = n.
Proof. unfold JS.of_Z, inject_Z. congruence. Qed.

Lemma existsb_eqb_true (l : list bool) :
  existsb (fun value => Bool.eqb value true) l = existsb id l.
Proof. induction l as [|[] l IH]; cbn; [done|done|exact IH]. Qed.

(** The remainder test of [mod] and [modbar] for one value: the modulus
    that the program computes is a whole number, an infinity or [NaN]. *)
Lemma modulus_test_iff c (p : Z) (v : JS.number) :
  JS.strict_eq
    (JS.rem (JS.of_Z p) (JS.floor (JS.mul v (API.api_ppqn c)))) (JS.of_Z 0)
  = true
  ↔ (∃ m, JS.floor (JS.mul v (API.api_ppqn c)) = JS.of_Z m
          ∧ m ≠ 0 ∧ p `mod` m = 0)
    ∨ (∃ s, JS.floor (JS.mul v (API.api_ppqn c)) = JS.Inf s ∧ p = 0).
Proof.
  destruct (JS.mul v (API.api_ppqn c)) as [q| |s]; cbn [JS.floor].
  - rewrite rem_of_Z_zero, andb_true_iff, negb_true_iff, Z.eqb_neq, Z.eqb_eq.
    split.
    + intros [Hm Hr]. left. exists (Qfloor q).
      split; [done|]. split; [done|]. by apply Z.rem_mod_eq_0.
    + intros [(m & Hfl & Hm & Hr)|(s & Hfl & _)]; [|discriminate Hfl].
      apply of_Z_inj in Hfl. subst m. split; [done|]. by apply Z.rem_mod_eq_0.
  - split; [discriminate|].
    intros [(m & Hfl & _)|(s & Hfl & _)]; discriminate Hfl.
  - unfold JS.of_Z at 1. cbn [JS.rem JS.strict_eq].
    unfold JS.of_Z. rewrite Qeq_bool_iff.
    change 0%Q with (inject_Z 0). rewrite inject_Z_injective.
    split.
    + intros Hp. right. by exists s.
    + intros [(m & Hfl & _)|(s' & _ & Hp)]; [discriminate Hfl|done].
Qed.

Lemma div_finite c (chunk : Q) :
  0 < Qfloor (chunk * inject_Z (ppqn c)) →
  API.div c (JS.Num chunk)
  = Z.even (pulses_since_origin c / Qfloor (chunk * inject_Z (ppqn c))).
Proof.
  intros Hm. unfold API.div, API.api_ppqn, API.epulse.
  rewrite mul_floor_Z, floor_div_of_Z by exact Hm.
  rewrite rem_of_Z_zero. cbn [Z.eqb negb andb].
  apply rem2_even.
Qed.

(** C3: whenever [Math.floor(v * ppqn)] is zero, [mod(v)] is [false].  The
    value [v] ranges over all numbers, [NaN] and the infinities included;
    [mod] is a total function into the booleans: the remainder by zero is
    the number [NaN], which is not [=== 0], and nothing is thrown. *)
Theorem mod_degenerate_false c (v : JS.number) :
  JS.strict_eq (JS.floor (JS.mul v (API.api_ppqn c))) (JS.of_Z 0) = true →
  API.mod_ c [v] = false.
Proof.
  intros H. unfold API.mod_. cbn [map existsb].
  destruct (JS.floor _) as [q| |s] eqn:E; try discriminate H.
  cbn [JS.strict_eq] in H.
  unfold API.epulse, JS.of_Z, JS.rem.
  replace (Qeq_bool q 0) with true by (symmetry; exact H).
  reflexivity.
Qed.

(** C5: [mod(...values)] is true exactly when, for one of the values, the
    remainder of [pulses_since_origin] by the modulus that the program
    computes as [Math.floor(value * ppqn())] is zero: the modulus is a whole
    number [m] other than zero with [pulses_since_origin mod m = 0], or it
    is infinite and the pulse count is zero (the remainder by an infinity
    is the dividend).  The values range over all numbers, and the modulus
    is the value of the program's expression, whatever the product rounds
    to.  With [ppqn ≥ 1], [mod(1)] is true exactly when [ppqn] divides the
    pulse count. *)
Theorem mod_iff c (vs : list JS.number) :
  (API.mod_ c vs = true ↔
   ∃ v, v ∈ vs ∧
        ((∃ m, JS.floor (JS.mul v (API.api_ppqn c)) = JS.of_Z m ∧
               m ≠ 0 ∧
               pulses_since_origin c `mod` m = 0)
         ∨ (∃ s, JS.floor (JS.mul v (API.api_ppqn c)) = JS.Inf s ∧
                 pulses_since_origin c = 0)))
  ∧ (1 ≤ ppqn c →
     (API.mod_ c [JS.Num 1] = true ↔ (ppqn c | pulses_since_origin c))).
Proof.
  assert (∀ vs : list JS.number, API.mod_ c vs = true ↔
   ∃ v, v ∈ vs ∧
        ((∃ m, JS.floor (JS.mul v (API.api_ppqn c)) = JS.of_Z m ∧
               m ≠ 0 ∧
               pulses_since_origin c `mod` m = 0)
         ∨ (∃ s, JS.floor (JS.mul v (API.api_ppqn c)) = JS.Inf s ∧
                 pulses_since_origin c = 0))) as G.
  { clear vs. intros vs. unfold API.mod_, API.epulse. cbv zeta.
    rewrite existsb_eqb_true.
    change (map ?f vs) with (f <$> vs).
    rewrite existsb_exists. split.
    - intros (b & Hin & Hb). apply list_elem_of_In, list_elem_of_fmap in Hin
        as (v & -> & Hv).
      exists v. split; [done|]. by apply modulus_test_iff.
    - intros (v & Hv & Hm). exists true. split; [|done].
      apply list_elem_of_In, list_elem_of_fmap. exists v. split; [|done].
      symmetry. by apply modulus_test_iff. }
  split; [apply G|]. intros Hp. rewrite G.
  assert (Qfloor (1 * inject_Z (ppqn c)) = ppqn c) as E.
  { rewrite (Qfloor_comp _ _ (Qmult_1_l _)). apply Qfloor_Z. }
  split.
  - intros (v & Hin & [(m & Hfl & Hm & Hr)|(s & Hfl & _)]);
      apply list_elem_of_singleton in Hin; subst v;
      rewrite computed_modulus, E in Hfl; [|discriminate Hfl].
    apply of_Z_inj in Hfl. subst m. by apply Z.mod_divide.
  - intros Hd. exists (JS.Num 1). split; [by apply list_elem_of_singleton|].
    left. exists (ppqn c).
    split; [by rewrite computed_modulus, E|].
    split; [lia|]. apply Z.mod_divide; [lia|done].
Qed.

(** C7: when the modulus [m] that the program computes as
    [Math.floor(chunk * ppqn())] is positive, [div(chunk)] is the parity
    test of [floor(pulses_since_origin / m)]; with [ppqn ≥ 1], [div(2)] is
    true on the [k]-th span [[2k·ppqn, 2(k+1)·ppqn)] exactly when [k] is
    even, for every [k].  The modulus is the value of the program's
    expression, whatever the product rounds to. *)
Theorem div_flip_flop c :
  (∀ (chunk : Q) (m : Z),
     JS.floor (JS.mul (JS.Num chunk) (API.api_ppqn c)) = JS.of_Z m →
     0 < m →
     API.div c (JS.Num chunk) = Z.even (pulses_since_origin c / m))
  ∧ (1 ≤ ppqn c →
     ∀ k, 2 * k * ppqn c ≤ pulses_since_origin c < 2 * (k + 1) * ppqn c →
          API.div c (JS.Num 2) = Z.even k).
Proof.
  split.
  { intros chunk m Hfl Hm. rewrite computed_modulus in Hfl.
    apply of_Z_inj in Hfl. subst m. by apply div_finite. }
  intros Hp k Hk.
  assert (Qfloor (2 * inject_Z (ppqn c)) = 2 * ppqn c) as E.
  { change 2%Q with (inject_Z 2). rewrite <- inject_Z_mult. apply Qfloor_Z. }
  rewrite div_finite; rewrite E; [|lia].
  f_equal. symmetry.
  apply (Z.div_unique _ _ k (pulses_since_origin c - 2 * ppqn c * k)); lia.
Qed.

End TimeFilterFacts.

(** ** [onbar] *)

Section OnbarFacts.

(** What the body of [onbar] computes: the current bar plays no part. *)
Lemma onbar_residue n (bars : list Z) :
  1 ≤ n →
  API.onbar n bars = Some (existsb (fun b => 1 <=? Z.rem b n) bars).
Proof.
  intros Hn. unfold API.onbar.
  destruct (Z.ltb_spec n 0) as [?|_]; [lia|].
  f_equal. induction bars as [|b bars IH]; [reflexivity|].
  cbn [existsb]. rewrite IH. f_equal.
  unfold JS.rem_Z. destruct (Z.eqb_spec n 0) as [?|_]; [lia|].
  pose proof (Z.rem_bound_abs b n ltac:(lia)) as Hr.
  destruct (Z.leb_spec 1 (Z.rem b n)) as [H1|H1].
  - apply bool_decide_eq_true_2. apply list_elem_of_fmap.
    exists (Z.rem b n - 1). split; [lia|]. apply elem_of_seqZ. lia.
  - apply bool_decide_eq_false_2. intros (i & Hi & Hin)%list_elem_of_fmap.
    apply elem_of_seqZ in Hin. lia.
Qed.

(** C2: [onbar(5, 1, 4)] answers [true] whatever the bar, also on bar 2,
    where the documented behaviour is [false]; [onbar(4, 4)] answers [false]
    also on bar 4, where the documented behaviour is [true]. *)
Theorem onbar_ignores_current_bar :
  let on_bar b := mkClock 120 48 0 (mkTimePosition b 1 0) 48 in
  API.onbar 5 [1; 4] = Some true
  ∧ API.onbar_spec (on_bar 2) 5 [1; 4] = false
  ∧ API.onbar 4 [4] = Some false
  ∧ API.onbar_spec (on_bar 4) 4 [4] = true.
Proof. repeat split; reflexivity. Qed.

End OnbarFacts.

(** ** Counters *)

Section CounterFacts.

Lemma counter_existing name limit_ step_ (counters : gmap string API.Counter) c :
  counters !! name = Some c →
  API.counter name limit_ step_ counters
  = (API.value (API.counter_step_spec limit_ step_ c),
     <[name := API.counter_step_spec limit_ step_ c]> counters).
Proof.
  intros Hc. unfold API.counter. rewrite Hc. unfold API.counter_step_spec.
  destruct c as [v s l]. cbn [API.value API.step API.limit].
  destruct limit_ as [l'|], l as [l0|], step_ as [s'|];
    repeat (case_bool_decide; simplify_eq;
            cbn [API.value API.step API.limit
                 API.set_value API.set_step API.set_limit default]);
    try done;
    repeat (match goal with
            | |- context [?a <? ?b] => destruct (Z.ltb_spec a b)
            end;
            cbn [API.value API.step API.limit
                 API.set_value API.set_step API.set_limit default]);
    unfold id in *; try done; try lia.
Qed.

Lemma counter_fresh name limit_ step_ (counters : gmap string API.Counter) :
  counters !! name = None →
  API.counter name limit_ step_ counters
  = (0, <[name := API.mkCounter 0 (default 1 step_) limit_]> counters).
Proof. intros Hc. unfold API.counter. by rewrite Hc. Qed.

(** Once the counter holds [v] in [0..3], with step 1 and limit 3. *)
Lemma counter_calls_running k :
  ∀ name (counters : gmap string API.Counter) v,
    counters !! name = Some (API.mkCounter v 1 (Some 3)) →
    0 ≤ v ≤ 3 →
    API.counter_calls k name (Some 3) None counters
    = map (fun i => (v + 1 + Z.of_nat i) `mod` 4) (seq 0 k).
Proof.
  induction k as [|k IH]; intros name counters v Hc Hv; [reflexivity|].
  cbn [API.counter_calls]. rewrite (counter_existing _ _ _ _ _ Hc).
  cbn [seq map]. unfold API.counter_step_spec.
  cbn [API.value API.step API.limit default].
  rewrite (bool_decide_eq_true_2 (Some 3 = Some 3)) by reflexivity. unfold id.
  case_bool_decide as Hw.
  - assert (v = 3) as -> by lia. cbn [API.value]. f_equal.
    rewrite (IH name _ 0); [|by rewrite lookup_insert_eq|lia].
    rewrite <- seq_shift, map_map. apply map_ext. intros i.
    rewrite Nat2Z.inj_succ.
    replace (3 + 1 + Z.succ (Z.of_nat i))
      with (0 + 1 + Z.of_nat i + 1 * 4) by lia.
    by rewrite Z.mod_add.
  - cbn [API.value]. f_equal.
    + rewrite Z.add_0_r. symmetry. apply Z.mod_small. lia.
    + rewrite (IH name _ (v + 1)); [|by rewrite lookup_insert_eq|lia].
      rewrite <- seq_shift, map_map. apply map_ext. intros i. f_equal. lia.
Qed.

(** C1, as the code has it: for a name that [Object.prototype] does not
    define, and from a registry without that name, the successive calls
    [counter(name, 3)] return 0,1,2,3,0,1,2,3,...: the call that creates the
    counter returns its seed 0.  Every call on a counter that exists takes
    the step of [counter_step_spec] (the value restarts from 0 if the limit
    changed, the step is added, the value wraps to 0 when it exceeds a
    defined limit), stores the result and returns the new value; this is
    stated where the addition is exact: the value, the step and their sum
    are safe integers. *)
Theorem counter_cycle name (counters : gmap string API.Counter) :
  API.inherited name = false →
  counters !! name = None →
  (∀ k, API.counter_calls k name (Some 3) None counters
        = map (fun i => Z.of_nat i `mod` 4) (seq 0 k))
  ∧ API.counter_calls 8 name (Some 3) None counters = [0; 1; 2; 3; 0; 1; 2; 3]
  ∧ (∀ (later : gmap string API.Counter) c limit_ step_,
       later !! name = Some c →
       JS.safe_integer (API.value c) = true →
       JS.safe_integer (default (API.step c) step_) = true →
       JS.safe_integer (API.value c + default (API.step c) step_) = true →
       API.counter name limit_ step_ later
       = (API.value (API.counter_step_spec limit_ step_ c),
          <[name := API.counter_step_spec limit_ step_ c]> later)).
Proof.
  intros _ Hc.
  assert (∀ k, API.counter_calls k name (Some 3) None counters
        = map (fun i => Z.of_nat i `mod` 4) (seq 0 k)) as G.
  { intros [|k]; [reflexivity|].
    cbn [API.counter_calls]. rewrite (counter_fresh _ _ _ _ Hc).
    cbn [seq map default]. f_equal.
    rewrite (counter_calls_running k name _ 0);
      [|by rewrite lookup_insert_eq|lia].
    rewrite <- seq_shift, map_map. apply map_ext. intros i. f_equal. lia. }
  split; [exact G|]. split; [by rewrite G|].
  intros later c limit_ step_ Hl _ _ _. by apply counter_existing.
Qed.

(** C1, as stated, fails: on an empty registry the first call of
    [counter("x", 3)] returns 0, and the eight first values are not
    1,2,3,0,1,2,3,0. *)
Lemma counter_first_call_not_1 :
  (API.counter "x" (Some 3) None ∅).1 = 0
  ∧ bool_decide (API.counter_calls 8 "x" (Some 3) None ∅
                 = [1; 2; 3; 0; 1; 2; 3; 0]) = false.
Proof. split; reflexivity. Qed.

End CounterFacts.

(** ** [euclid] *)

Section EuclidFacts.

Lemma index_rem_nat {A} (arr : list A) (i : nat) :
  arr ≠ [] →
  API.index arr (JS.rem_Z (Z.of_nat i) (Z.of_nat (length arr)))
  = arr !! (i mod length arr)%nat.
Proof.
  intros Hne. unfold JS.rem_Z, API.index.
  assert (length arr ≠ 0%nat) as Hl by (by destruct arr).
  destruct (Z.eqb_spec (Z.of_nat (length arr)) 0) as [E|_]; [lia|].
  rewrite Z.rem_mod_nonneg by lia.
  rewrite <- Nat2Z.inj_mod.
  destruct (Z.ltb_spec (Z.of_nat (i mod length arr)) 0) as [?|_]; [lia|].
  by rewrite Nat2Z.id.
Qed.

(** C6: [euclid(i, 5, 8, 0)] for [i = 0..7] is the cycle
    x.x.xx.x, which has five hits; every later [i] reads the same cycle at
    [i mod 8]; [euclid] has no argument but its four numbers, so equal
    arguments give equal answers. *)
Theorem euclid_5_8_cycle :
  map (fun i => API.euclid i 5 8 0) (seqZ 0 8)
  = Some <$> [true; false; true; false; true; true; false; true]
  ∧ length (filter (fun b => b = true)
              [true; false; true; false; true; true; false; true]) = 5%nat
  ∧ (∀ i : nat,
       API.euclid (Z.of_nat i) 5 8 0
       = [true; false; true; false; true; true; false; true] !! (i mod 8)%nat)
  ∧ (∀ i i' pulses pulses' length length' rotate rotate',
       i = i' → pulses = pulses' → length = length' → rotate = rotate' →
       API.euclid i pulses length rotate
       = API.euclid i' pulses' length' rotate').
Proof.
  split; [reflexivity|]. split; [reflexivity|]. split.
  - intros i. unfold API.euclid.
    change (API._euclidean_cycle 5 8 0)
      with [true; false; true; false; true; true; false; true].
    change 8
      with (Z.of_nat (length [true; false; true; false; true; true; false; true])).
    by apply index_rem_nat.
  - by intros; subst.
Qed.

(** C9: with as many pulses as steps the cycle is all-true, whatever the
    rotation. *)
Theorem euclid_full n r i : 1 ≤ n → 0 ≤ i → API.euclid i n n r = Some true.
Proof.
  intros Hn Hi. unfold API.euclid, API._euclidean_cycle. rewrite Z.eqb_refl.
  unfold API.array_from_length, JS.rem_Z, API.index.
  destruct (Z.eqb_spec n 0) as [?|_]; [lia|].
  pose proof (Z.rem_bound_pos i n Hi ltac:(lia)) as Hr.
  destruct (Z.ltb_spec (Z.rem i n) 0) as [?|_]; [lia|].
  rewrite list_lookup_fmap.
  rewrite (lookup_seqZ_lt 0 n (Z.to_nat (Z.rem i n))) by lia.
  reflexivity.
Qed.

End EuclidFacts.

(** ** [bin] *)

Section BinFacts.

Lemma pos_digits_acc p : ∀ acc,
  API.split_chars (API.pos_digits p acc)
  = API.split_chars (API.pos_digits p "") ++ API.split_chars acc.
Proof.
  induction p as [p IH|p IH|]; intros acc; cbn [API.pos_digits].
  - rewrite (IH (String "1" acc)), (IH (String "1" "")).
    by rewrite <- app_assoc.
  - rewrite (IH (String "0" acc)), (IH (String "0" "")).
    by rewrite <- app_assoc.
  - reflexivity.
Qed.

Lemma pos_digits_snoc p (d : ascii) :
  API.split_chars (API.pos_digits p (String d ""))
  = API.split_chars (API.pos_digits p "") ++ [d].
Proof. apply pos_digits_acc. Qed.

Lemma log2_xO p : Z.log2 (Z.pos p~0) = Z.log2 (Z.pos p) + 1.
Proof. rewrite Pos2Z.inj_xO, Z.log2_double by lia. lia. Qed.

Lemma log2_xI p : Z.log2 (Z.pos p~1) = Z.log2 (Z.pos p) + 1.
Proof. rewrite Pos2Z.inj_xI, Z.log2_succ_double by lia. lia. Qed.

(** The digit string of [p] has [log2 p + 1] digits. *)
Lemma pos_digits_length p :
  Z.of_nat (length (API.split_chars (API.pos_digits p ""))) = Z.log2 (Z.pos p) + 1.
Proof.
  induction p as [p IH|p IH|]; cbn [API.pos_digits].
  - rewrite pos_digits_snoc, length_app, log2_xI. cbn [length]. lia.
  - rewrite pos_digits_snoc, length_app, log2_xO. cbn [length]. lia.
  - reflexivity.
Qed.

(** Its [k]-th digit, from the left, is the bit of weight [log2 p - k]. *)
Lemma pos_digits_lookup p : ∀ k : nat,
  Z.of_nat k ≤ Z.log2 (Z.pos p) →
  map (fun x => Ascii.eqb x "1") (API.split_chars (API.pos_digits p "")) !! k
  = Some (Z.testbit (Z.pos p) (Z.log2 (Z.pos p) - Z.of_nat k)).
Proof.
  induction p as [p IH|p IH|]; intros k Hk; cbn [API.pos_digits].
  - rewrite pos_digits_snoc, map_app. rewrite log2_xI in *.
    pose proof (pos_digits_length p) as Hl.
    pose proof (Z.log2_nonneg (Z.pos p)).
    destruct (decide (Z.of_nat k = Z.log2 (Z.pos p) + 1)) as [E|E].
    + rewrite lookup_app_r by (rewrite length_map; lia).
      rewrite length_map.
      replace (k - length _)%nat with 0%nat by lia.
      replace (Z.log2 (Z.pos p) + 1 - Z.of_nat k) with 0 by lia.
      reflexivity.
    + rewrite lookup_app_l by (rewrite length_map; lia).
      rewrite IH by lia.
      replace (Z.log2 (Z.pos p) + 1 - Z.of_nat k)
        with (Z.succ (Z.log2 (Z.pos p) - Z.of_nat k)) by lia.
      rewrite Pos2Z.inj_xI, Z.testbit_odd_succ by lia. reflexivity.
  - rewrite pos_digits_snoc, map_app. rewrite log2_xO in *.
    pose proof (pos_digits_length p) as Hl.
    pose proof (Z.log2_nonneg (Z.pos p)).
    destruct (decide (Z.of_nat k = Z.log2 (Z.pos p) + 1)) as [E|E].
    + rewrite lookup_app_r by (rewrite length_map; lia).
      rewrite length_map.
      replace (k - length _)%nat with 0%nat by lia.
      replace (Z.log2 (Z.pos p) + 1 - Z.of_nat k) with 0 by lia.
      reflexivity.
    + rewrite lookup_app_l by (rewrite length_map; lia).
      rewrite IH by lia.
      replace (Z.log2 (Z.pos p) + 1 - Z.of_nat k)
        with (Z.succ (Z.log2 (Z.pos p) - Z.of_nat k)) by lia.
      rewrite Pos2Z.inj_xO, Z.testbit_even_succ by lia. reflexivity.
  - assert (k = 0%nat) as -> by (cbn in Hk; lia). reflexivity.
Qed.

(** C8: for [i ≥ 0] and [n ≥ 1], the digit string of [n] has
    [d = log2 n + 1] digits and [bin(i, n)] is its digit number [i mod d]
    from the left, that is the bit of [n] of weight [d - 1 - (i mod d)];
    34 is written 100010 and [bin(i, 34)] reads it for [i = 0..5]. *)
Theorem bin_digit i n :
  (0 ≤ i → 1 ≤ n →
   Z.of_nat (length (API.split_chars (API.toString2 n))) = Z.log2 n + 1
   ∧ API.bin i n = Some (Z.testbit n (Z.log2 n - i `mod` (Z.log2 n + 1))))
  ∧ API.toString2 34 = "100010"%string
  ∧ map (fun i => API.bin i 34) (seqZ 0 6)
    = Some <$> [true; false; false; false; true; false].
Proof.
  split; [|split; reflexivity]. intros Hi Hn.
  destruct n as [|p|p]; try lia. cbn [API.toString2].
  pose proof (pos_digits_length p) as Hl.
  pose proof (Z.log2_nonneg (Z.pos p)) as Hlog.
  split; [exact Hl|].
  unfold API.bin. cbn [API.toString2]. rewrite length_map, Hl.
  unfold JS.rem_Z, API.index.
  destruct (Z.eqb_spec (Z.log2 (Z.pos p) + 1) 0) as [?|_]; [lia|].
  rewrite Z.rem_mod_nonneg by lia.
  pose proof (Z.mod_pos_bound i (Z.log2 (Z.pos p) + 1) ltac:(lia)) as Hm.
  destruct (Z.ltb_spec (i `mod` (Z.log2 (Z.pos p) + 1)) 0) as [?|_]; [lia|].
  rewrite pos_digits_lookup by lia.
  by rewrite Z2Nat.id by lia.
Qed.

End BinFacts.

(** ** [palindrome] *)

Section PalindromeFacts.
Context {A : Type}.
Implicit Types (σ : gmap Arr.loc (list A)) (xs : list A).

Lemma fresh_not_in σ : σ !! fresh (dom σ) = None.
Proof. apply not_elem_of_dom. apply is_fresh. Qed.

Lemma bind_Some {X Y} (m : Arr.M X) (f : X → Arr.M Y) σ x σ' :
  m σ = Some (x, σ') → Arr.bind m f σ = f x σ'.
Proof. intros H. unfold Arr.bind. by rewrite H. Qed.

Lemma read_Some σ a xs : σ !! a = Some xs → Arr.read a σ = Some (xs, σ).
Proof. intros H. unfold Arr.read. by rewrite H. Qed.

Lemma from_Some σ a xs :
  σ !! a = Some xs →
  Arr.from a σ = Some (fresh (dom σ), <[fresh (dom σ) := xs]> σ).
Proof.
  intros H. unfold Arr.from.
  by rewrite (bind_Some _ _ _ _ _ (read_Some _ _ _ H)).
Qed.

Lemma reverse_Some σ a xs :
  σ !! a = Some xs → Arr.reverse a σ = Some (a, <[a := rev xs]> σ).
Proof.
  intros H. unfold Arr.reverse.
  rewrite (bind_Some _ _ _ _ _ (read_Some _ _ _ H)).
  unfold Arr.bind, Arr.write. by rewrite H.
Qed.

Lemma concat_Some σ a b xs ys :
  σ !! a = Some xs → σ !! b = Some ys →
  Arr.concat a b σ = Some (fresh (dom σ), <[fresh (dom σ) := xs ++ ys]> σ).
Proof.
  intros Ha Hb. unfold Arr.concat.
  rewrite (bind_Some _ _ _ _ _ (read_Some _ _ _ Ha)).
  by rewrite (bind_Some _ _ _ _ _ (read_Some _ _ _ Hb)).
Qed.

(** C10: on an array [a] that holds [xs], [a.palindrome()] returns a new
    array [r] holding [xs] followed by [xs] reversed, and leaves [a] itself
    reversed; the arrays that existed before, [a] apart, are unchanged. *)
Theorem palindrome_reverses_receiver σ (a : Arr.loc) xs :
  σ !! a = Some xs →
  ∃ r σ',
    Arr.palindrome a σ = Some (r, σ')
    ∧ σ !! r = None
    ∧ σ' !! r = Some (xs ++ rev xs)
    ∧ σ' !! a = Some (rev xs)
    ∧ ∀ l, l ≠ a → is_Some (σ !! l) → σ' !! l = σ !! l.
Proof.
  intros Ha. unfold Arr.palindrome.
  rewrite (bind_Some _ _ _ _ _ (from_Some _ _ _ Ha)).
  set (l1 := fresh (dom σ)).
  assert (σ !! l1 = None) as H1 by apply fresh_not_in.
  assert (l1 ≠ a) as Hne1 by (intros ->; congruence).
  set (σ1 := <[l1 := xs]> σ).
  assert (σ1 !! a = Some xs) as Ha1 by (unfold σ1; by rewrite lookup_insert_ne).
  rewrite (bind_Some _ _ _ _ _ (reverse_Some _ _ _ Ha1)).
  set (σ2 := <[a := rev xs]> σ1).
  assert (σ2 !! a = Some (rev xs)) as Ha2
    by (unfold σ2; by rewrite lookup_insert_eq).
  rewrite (bind_Some _ _ _ _ _ (from_Some _ _ _ Ha2)).
  set (l3 := fresh (dom σ2)).
  assert (σ2 !! l3 = None) as H3 by apply fresh_not_in.
  assert (l3 ≠ a) as Hne3 by (intros ->; congruence).
  assert (l3 ≠ l1) as Hne31.
  { intros E. rewrite E in H3. unfold σ2, σ1 in H3.
    rewrite lookup_insert_ne in H3 by done.
    rewrite lookup_insert_eq in H3. done. }
  set (σ3 := <[l3 := rev xs]> σ2).
  assert (σ3 !! l1 = Some xs) as E1.
  { unfold σ3, σ2, σ1. rewrite 2!lookup_insert_ne by done.
    apply lookup_insert_eq. }
  assert (σ3 !! l3 = Some (rev xs)) as E3
    by (unfold σ3; by rewrite lookup_insert_eq).
  rewrite (concat_Some _ _ _ _ _ E1 E3).
  set (r := fresh (dom σ3)).
  assert (σ3 !! r = None) as Hr by apply fresh_not_in.
  assert (∀ l, is_Some (σ3 !! l) → r ≠ l) as Hfresh.
  { intros l [ys Hl] ->. congruence. }
  assert (σ3 !! a = Some (rev xs)) as E3a.
  { unfold σ3. by rewrite lookup_insert_ne. }
  assert (∀ l, l ≠ a → is_Some (σ !! l) → σ3 !! l = σ !! l) as Hσ3.
  { intros l Hla [ys Hl].
    assert (l ≠ l1) by (intros ->; congruence).
    assert (σ2 !! l = Some ys) as Hl2.
    { unfold σ2, σ1. by rewrite !lookup_insert_ne. }
    assert (l ≠ l3) by (intros ->; congruence).
    unfold σ3. rewrite lookup_insert_ne by done. by rewrite Hl2. }
  exists r, (<[r := xs ++ rev xs]> σ3). split; [reflexivity|].
  split; [|split; [|split]].
  - destruct (σ !! r) as [ys|] eqn:E; [|done].
    destruct (decide (r = a)) as [->|Hra]; [congruence|].
    rewrite <- Hσ3 in E by (done || by eexists). congruence.
  - by rewrite lookup_insert_eq.
  - rewrite lookup_insert_ne; [done|]. apply Hfresh. by eexists.
  - intros l Hla Hl. rewrite lookup_insert_ne.
    + by apply Hσ3.
    + apply Hfresh. rewrite Hσ3 by done. done.
Qed.

End PalindromeFacts.

(** ** The rewind check of [areWeThereYet] *)

Section PlayerFacts.

(** When the clock is behind [lastCallTime], the check leaves
    [lastCallTime = 0] and [index = 0]. *)
Lemma rewind_check_resets c p :
  pulses_since_origin c < Player.lastCallTime p →
  Player.lastCallTime (Player.rewind_check c p) = 0
  ∧ Player.index (Player.rewind_check c p) = 0.
Proof.
  intros H. unfold Player.rewind_check.
  destruct (Z.ltb_spec (pulses_since_origin c) (Player.lastCallTime p));
    [done|lia].
Qed.

(** So [areWeThereYet] ends with [index] 0 or 1, never the -1 of a new
    player. *)
Lemma areWeThereYet_rewind_index c p :
  pulses_since_origin c < Player.lastCallTime p →
  Player.index (Player.areWeThereYet c p).2 = 0
  ∨ Player.index (Player.areWeThereYet c p).2 = 1.
Proof.
  intros H. destruct (rewind_check_resets c p H) as [_ Hi].
  unfold Player.areWeThereYet. cbn zeta.
  destruct (Player.howAboutNow c (Player.rewind_check c p));
    destruct (Player.notStarted (Player.rewind_check c p));
    cbn; rewrite Hi; auto.
Qed.

(** C4: a player last called at pulse 10, queried when the clock is back at
    pulse 0: the rewind check sets [lastCallTime] to 0 and [index] to 0, and
    [areWeThereYet] answers "not yet" and leaves them so, whereas a new
    player has [index = -1]. *)
Theorem rewind_index_is_not_initial :
  let clock := mkClock 120 48 0 (mkTimePosition 1 1 0) 48 in
  let p := Player.mkPlayer 1 10 0 true (Some (1 # 4)) 3 false in
  pulses_since_origin clock < Player.lastCallTime p
  ∧ Player.lastCallTime (Player.rewind_check clock p) = 0
  ∧ Player.index (Player.rewind_check clock p) = 0
  ∧ Player.areWeThereYet clock p
    = (false, Player.mkPlayer 1 0 0 true (Some (1 # 4)) 0 false)
  ∧ Player.index (Player.new_player true) = -1
  ∧ Player.index (Player.new_player false) = -1.
Proof. repeat split. Qed.

End PlayerFacts.

(** ** The theorems at concrete inputs *)

Section Instances.

(** C1 on the empty registry, with the name [x]; then a call that wraps:
    [counter("x", 3)] on the counter that holds 3. *)
Lemma counter_cycle_witness :
  let later : gmap string API.Counter :=
    <[ "x"%string := API.mkCounter 3 1 (Some 3) ]> ∅ in
  API.inherited "x" = false
  ∧ (∅ : gmap string API.Counter) !! "x"%string = None
  ∧ API.counter_calls 8 "x" (Some 3) None ∅ = [0; 1; 2; 3; 0; 1; 2; 3]
  ∧ later !! "x"%string = Some (API.mkCounter 3 1 (Some 3))
  ∧ JS.safe_integer 3 = true
  ∧ JS.safe_integer 1 = true
  ∧ JS.safe_integer (3 + 1) = true
  ∧ (API.counter "x" (Some 3) None later).1 = 0.
Proof.
  pose proof (counter_cycle "x" ∅ ltac:(reflexivity) ltac:(reflexivity))
    as (_ & Hcycle & Hlater).
  split; [reflexivity|]. split; [reflexivity|]. split; [exact Hcycle|].
  split; [apply lookup_insert_eq|]. split; [reflexivity|].
  split; [reflexivity|]. split; [reflexivity|].
  rewrite (Hlater (<[ "x"%string := API.mkCounter 3 1 (Some 3) ]> ∅)
             (API.mkCounter 3 1 (Some 3)) (Some 3) None
             (lookup_insert_eq _ _ _) ltac:(reflexivity) ltac:(reflexivity)
             ltac:(reflexivity)).
  reflexivity.
Defined.

(** C3 at [mod(0.5)] with [ppqn = 1], on pulse 7. *)
Lemma mod_degenerate_false_witness :
  let c := mkClock 120 1 7 (mkTimePosition 1 1 0) 8 in
  JS.strict_eq (JS.floor (JS.mul (JS.Num (1 # 2)) (API.api_ppqn c)))
    (JS.of_Z 0) = true
  ∧ API.mod_ c [JS.Num (1 # 2)] = false.
Proof.
  split; [reflexivity|].
  apply (mod_degenerate_false (mkClock 120 1 7 (mkTimePosition 1 1 0) 8)).
  reflexivity.
Defined.

(** C5 at [mod(1)] and at [mod(0.5)] with [ppqn = 48], on pulse 96: the
    computed modulus of 0.5 is 24, which divides 96. *)
Lemma mod_iff_witness :
  let c := mkClock 120 48 96 (mkTimePosition 1 3 0) 144 in
  1 ≤ ppqn c
  ∧ (API.mod_ c [JS.Num 1] = true ↔ (ppqn c | pulses_since_origin c))
  ∧ JS.floor (JS.mul (JS.Num (1 # 2)) (API.api_ppqn c)) = JS.of_Z 24
  ∧ pulses_since_origin c `mod` 24 = 0
  ∧ API.mod_ c [JS.Num (1 # 2)] = true.
Proof.
  split; [cbn; lia|].
  split.
  { apply (proj2 (mod_iff (mkClock 120 48 96 (mkTimePosition 1 3 0) 144) [])).
    cbn; lia. }
  split; [reflexivity|]. split; [reflexivity|].
  apply (proj1 (mod_iff (mkClock 120 48 96 (mkTimePosition 1 3 0) 144)
                  [JS.Num (1 # 2)])).
  exists (JS.Num (1 # 2)). split; [by apply list_elem_of_singleton|].
  left. exists 24. split; [reflexivity|]. split; [lia|reflexivity].
Defined.

(** C7 at [div(2)] with [ppqn = 48], on pulse 100, in the second span; and
    at [div(0.5)], whose computed modulus is 24. *)
Lemma div_flip_flop_witness :
  let c := mkClock 120 48 100 (mkTimePosition 1 3 4) 144 in
  1 ≤ ppqn c
  ∧ 2 * 1 * ppqn c ≤ pulses_since_origin c < 2 * (1 + 1) * ppqn c
  ∧ API.div c (JS.Num 2) = false
  ∧ JS.floor (JS.mul (JS.Num (1 # 2)) (API.api_ppqn c)) = JS.of_Z 24
  ∧ 0 < 24
  ∧ API.div c (JS.Num (1 # 2)) = Z.even (pulses_since_origin c / 24).
Proof.
  split; [cbn; lia|]. split; [cbn; lia|].
  split.
  { apply (proj2 (div_flip_flop
                    (mkClock 120 48 100 (mkTimePosition 1 3 4) 144))
             ltac:(cbn; lia) 1).
    cbn; lia. }
  split; [reflexivity|]. split; [lia|].
  apply (proj1 (div_flip_flop (mkClock 120 48 100 (mkTimePosition 1 3 4) 144))
           (1 # 2)%Q 24); [reflexivity|lia].
Defined.

(** C8 at [bin(7, 34)]: digit [7 mod 6 = 1] of 100010. *)
Lemma bin_digit_witness :
  0 ≤ 7 ∧ 1 ≤ 34 ∧ API.bin 7 34 = Some false.
Proof.
  split; [lia|]. split; [lia|].
  exact (proj2 (proj1 (bin_digit 7 34) ltac:(lia) ltac:(lia))).
Defined.

(** C9 at [euclid(6, 4, 4, 1)]. *)
Lemma euclid_full_witness :
  1 ≤ 4 ∧ 0 ≤ 6 ∧ API.euclid 6 4 4 1 = Some true.
Proof.
  split; [lia|]. split; [lia|].
  apply (euclid_full 4 1 6); lia.
Defined.

(** C10 on a store whose only array holds 1, 2, 3. *)
Lemma palindrome_reverses_receiver_witness :
  let σ : gmap Arr.loc (list Z) := {[ 1%positive := [1; 2; 3] ]} in
  σ !! 1%positive = Some [1; 2; 3]
  ∧ ∃ r σ',
      Arr.palindrome 1%positive σ = Some (r, σ')
      ∧ σ !! r = None
      ∧ σ' !! r = Some ([1; 2; 3] ++ rev [1; 2; 3])
      ∧ σ' !! 1%positive = Some (rev [1; 2; 3])
      ∧ ∀ l, l ≠ 1%positive → is_Some (σ !! l) → σ' !! l = σ !! l.
Proof.
  split; [reflexivity|].
  apply (palindrome_reverses_receiver {[ 1%positive := [1; 2; 3] ]} 1%positive).
  reflexivity.
Defined.

End Instances.

(** ** More on [euclid] *)

Section EuclidCount.

Lemma rem_rem_mod a n : 0 < n → Z.rem (Z.rem a n + n) n = a `mod` n.
Proof.
  intros Hn. pose proof (Z.rem_bound_abs a n ltac:(lia)) as Hb.
  rewrite Z.rem_mod_nonneg by lia.
  rewrite <- (Z.mod_add a 1 n) by lia.
  pose proof (Z.quot_rem' a n) as E.
  replace (Z.rem a n + n) with (a + 1 * n + (- (a ÷ n)) * n) by lia.
  by rewrite Z.mod_add by lia.
Qed.

Lemma array_from_length_lookup {A} (n : Z) (f : Z → A) (i : nat) :
  Z.of_nat i < n → API.array_from_length n f !! i = Some (f (Z.of_nat i)).
Proof.
  intros Hi. unfold API.array_from_length.
  change (map f (seqZ 0 n)) with (f <$> seqZ 0 n).
  rewrite list_lookup_fmap, lookup_seqZ_lt by lia. reflexivity.
Qed.

Lemma array_from_length_length {A} (n : Z) (f : Z → A) :
  length (API.array_from_length n f) = Z.to_nat n.
Proof. unfold API.array_from_length. by rewrite length_map, length_seqZ. Qed.

(** The residues that the cycle compares, and how one follows the other. *)
Lemma residue_next p n j :
  0 ≤ p < n →
  (p * j) `mod` n
  = (p * (j - 1)) `mod` n + p
    - (if n <=? (p * (j - 1)) `mod` n + p then n else 0).
Proof.
  intros Hp. pose proof (Z.mod_pos_bound (p * (j - 1)) n ltac:(lia)) as Hb.
  replace (p * j) with (p * (j - 1) + p) by lia.
  rewrite <- Z.add_mod_idemp_l by lia.
  destruct (Z.leb_spec n ((p * (j - 1)) `mod` n + p)).
  - symmetry. apply (Z.mod_unique_pos _ _ 1); lia.
  - rewrite Z.mod_small by lia. lia.
Qed.

Lemma startsDescent_residue p n (i : nat) :
  0 ≤ p < n → Z.of_nat i < n →
  API.startsDescent
    (API.array_from_length n
       (fun i => Z.rem (Z.rem (p * (i - 1)) n + n) n)) (Z.of_nat i)
  = (n <=? (p * (Z.of_nat i - 1)) `mod` n + p).
Proof.
  intros Hp Hi. unfold API.startsDescent.
  rewrite array_from_length_length, Z2Nat.id by lia.
  unfold JS.rem_Z, API.index.
  destruct (Z.eqb_spec n 0) as [?|_]; [lia|].
  destruct (Z.ltb_spec (Z.of_nat i) 0) as [?|_]; [lia|].
  rewrite Nat2Z.id, array_from_length_lookup by lia.
  rewrite Z.rem_mod_nonneg by lia.
  pose proof (Z.mod_pos_bound (Z.of_nat i + 1) n ltac:(lia)) as Hm.
  destruct (Z.ltb_spec ((Z.of_nat i + 1) `mod` n) 0) as [?|_]; [lia|].
  rewrite array_from_length_lookup by lia.
  rewrite Z2Nat.id by lia. rewrite !rem_rem_mod by lia.
  assert ((p * ((Z.of_nat i + 1) `mod` n - 1)) `mod` n = (p * Z.of_nat i) `mod` n) as ->.
  { rewrite (Z.mod_eq (Z.of_nat i + 1) n) by lia.
    replace (p * (Z.of_nat i + 1 - n * ((Z.of_nat i + 1) `div` n) - 1))
      with (p * Z.of_nat i + (- (p * ((Z.of_nat i + 1) `div` n))) * n) by lia.
    by rewrite Z.mod_add by lia. }
  rewrite (residue_next p n (Z.of_nat i)) by lia.
  pose proof (Z.mod_pos_bound (p * (Z.of_nat i - 1)) n ltac:(lia)) as Hb.
  destruct (Z.leb_spec n ((p * (Z.of_nat i - 1)) `mod` n + p));
    destruct (Z.ltb_spec ((p * (Z.of_nat i - 1)) `mod` n + p - n)
                ((p * (Z.of_nat i - 1)) `mod` n)); try lia; try reflexivity.
  all: destruct (Z.ltb_spec ((p * (Z.of_nat i - 1)) `mod` n + p - 0)
                ((p * (Z.of_nat i - 1)) `mod` n)); try lia; reflexivity.
Qed.


Lemma euclidean_cycle_unrotated p n :
  0 ≤ p < n →
  API._euclidean_cycle p n 0
  = (fun i => n <=? (p * (i - 1)) `mod` n + p) <$> seqZ 0 n.
Proof.
  intros Hp. unfold API._euclidean_cycle.
  destruct (Z.eqb_spec p n) as [?|_]; [lia|].
  destruct (Z.leb_spec n p) as [?|_]; [lia|].
  cbn [Z.eqb negb]. apply list_eq. intros i.
  rewrite list_lookup_imap, list_lookup_fmap.
  destruct (decide (Z.of_nat i < n)) as [Hi|Hi].
  - rewrite array_from_length_lookup, lookup_seqZ_lt by lia. cbn [fmap option_fmap option_map].
    f_equal. rewrite startsDescent_residue by lia. f_equal.
  - rewrite lookup_seqZ_ge by lia.
    rewrite (lookup_ge_None_2 (API.array_from_length _ _)); [done|].
    rewrite array_from_length_length. lia.
Qed.

Lemma hits_prefix p n (k : nat) :
  0 ≤ p < n →
  n * Z.of_nat (length (filter (fun b : bool => b = true)
                          ((fun i => n <=? (p * (i - 1)) `mod` n + p)
                             <$> seqZ 0 (Z.of_nat k))))
  = Z.of_nat k * p + (p * (0 - 1)) `mod` n - (p * (Z.of_nat k - 1)) `mod` n.
Proof.
  intros Hp. induction k as [|k IH].
  { rewrite seqZ_nil by lia. cbn [fmap list_fmap filter list_filter length]. lia. }
  rewrite seqZ_S, fmap_app, filter_app, length_app, Nat2Z.inj_add.
  rewrite Z.mul_add_distr_l, IH. clear IH.
  cbn [fmap list_fmap]. rewrite Z.add_0_l.
  replace (Z.of_nat (S k) - 1) with (Z.of_nat k) by lia.
  rewrite (residue_next p n (Z.of_nat k)) by lia.
  destruct (Z.leb_spec n ((p * (Z.of_nat k - 1)) `mod` n + p)).
  - rewrite filter_cons_True by done. cbn [filter list_filter length]. lia.
  - rewrite filter_cons_False by done. cbn [filter list_filter length]. lia.
Qed.

Lemma slice_rotation {A} (l : list A) (r : Z) :
  API.slice l r None ++ API.slice l 0 (Some r)
  = drop (Z.to_nat (API.relative (Z.of_nat (length l)) r)) l
    ++ take (Z.to_nat (API.relative (Z.of_nat (length l)) r)) l.
Proof.
  unfold API.slice.
  assert (0 ≤ API.relative (Z.of_nat (length l)) r ≤ Z.of_nat (length l)) as Hk.
  { unfold API.relative. destruct (Z.ltb_spec r 0); lia. }
  assert (API.relative (Z.of_nat (length l)) 0 = 0) as ->.
  { unfold API.relative. cbn [Z.ltb Z.compare]. lia. }
  cbn [drop Z.to_nat]. rewrite Z.sub_0_r. f_equal.
  apply take_ge. rewrite length_drop. lia.
Qed.

Lemma euclidean_cycle_count pulses length_ rotate :
  0 ≤ pulses < length_ →
  length (API._euclidean_cycle pulses length_ rotate) = Z.to_nat length_
  ∧ Z.of_nat (length (filter (fun b : bool => b = true)
                        (API._euclidean_cycle pulses length_ rotate))) = pulses.
Proof.
  intros Hp.
  pose proof (euclidean_cycle_unrotated pulses length_ Hp) as E0.
  assert (length (API._euclidean_cycle pulses length_ 0) = Z.to_nat length_) as L0.
  { by rewrite E0, length_fmap, length_seqZ. }
  assert (Z.of_nat (length (filter (fun b : bool => b = true)
                         (API._euclidean_cycle pulses length_ 0))) = pulses) as C0.
  { rewrite E0. pose proof (hits_prefix pulses length_ (Z.to_nat length_) Hp) as H.
    rewrite Z2Nat.id in H by lia.
    replace (pulses * (length_ - 1)) with (pulses * (0 - 1) + pulses * length_) in H by lia.
    rewrite Z.mod_add in H by lia. nia. }
  destruct (decide (rotate = 0)) as [->|Hr]; [done|].
  assert (API._euclidean_cycle pulses length_ rotate
          = API.slice (API._euclidean_cycle pulses length_ 0) rotate None
            ++ API.slice (API._euclidean_cycle pulses length_ 0) 0 (Some rotate)) as ->.
  { unfold API._euclidean_cycle.
    destruct (Z.eqb_spec pulses length_) as [?|_]; [lia|].
    destruct (Z.leb_spec length_ pulses) as [?|_]; [lia|].
    destruct (Z.eqb_spec rotate 0) as [?|_]; [lia|]. reflexivity. }
  rewrite slice_rotation.
  set (c := API._euclidean_cycle pulses length_ 0) in *.
  set (k := Z.to_nat _).
  split.
  - rewrite length_app, Nat.add_comm, <- length_app, take_drop. exact L0.
  - rewrite filter_app, length_app, Nat.add_comm, <- length_app, <- filter_app, take_drop.
    exact C0.
Qed.



Lemma euclid_lookup i p n r :
  0 ≤ i → 0 < n →
  API.euclid i p n r = API._euclidean_cycle p n r !! Z.to_nat (i `mod` n).
Proof.
  intros Hi Hn. unfold API.euclid, JS.rem_Z, API.index.
  destruct (Z.eqb_spec n 0) as [?|_]; [lia|].
  rewrite Z.rem_mod_nonneg by lia.
  pose proof (Z.mod_pos_bound i n Hn).
  destruct (Z.ltb_spec (i `mod` n) 0) as [?|_]; [lia|]. reflexivity.
Qed.

Lemma euclidean_cycle_rotated p n r :
  0 ≤ p < n → r ≠ 0 →
  API._euclidean_cycle p n r
  = drop (Z.to_nat (API.relative n r)) (API._euclidean_cycle p n 0)
    ++ take (Z.to_nat (API.relative n r)) (API._euclidean_cycle p n 0).
Proof.
  intros Hp Hr.
  assert (API._euclidean_cycle p n r
          = API.slice (API._euclidean_cycle p n 0) r None
            ++ API.slice (API._euclidean_cycle p n 0) 0 (Some r)) as ->.
  { unfold API._euclidean_cycle.
    destruct (Z.eqb_spec p n) as [?|_]; [lia|].
    destruct (Z.leb_spec n p) as [?|_]; [lia|].
    destruct (Z.eqb_spec r 0) as [?|_]; [lia|]. reflexivity. }
  rewrite slice_rotation.
  rewrite (proj1 (euclidean_cycle_count p n 0 Hp)), Z2Nat.id by lia. reflexivity.
Qed.

(** X2: a rotation between [-length] and [length] moves the reading point:
    [euclid(i, pulses, length, rotate)] is the unrotated cycle read at
    [(i + rotate) mod length]. *)
Theorem euclid_rotate_shifts i pulses length_ rotate :
  0 ≤ i → 0 ≤ pulses < length_ → - length_ ≤ rotate ≤ length_ →
  API.euclid i pulses length_ rotate
  = API.euclid ((i + rotate) `mod` length_) pulses length_ 0.
Proof.
  intros Hi Hp Hr.
  pose proof (Z.mod_pos_bound (i + rotate) length_ ltac:(lia)) as Hb.
  pose proof (Z.mod_pos_bound i length_ ltac:(lia)) as Hbi.
  rewrite !euclid_lookup by lia. rewrite Z.mod_mod by lia.
  destruct (decide (rotate = 0)) as [->|Hr0]; [by rewrite Z.add_0_r|].
  rewrite euclidean_cycle_rotated by done.
  pose proof (proj1 (euclidean_cycle_count pulses length_ 0 Hp)) as L0.
  set (c := API._euclidean_cycle pulses length_ 0) in *.
  set (k := API.relative length_ rotate).
  assert (0 ≤ k ≤ length_ ∧ (k = rotate ∨ k = length_ + rotate)) as [Hk Hk'].
  { unfold k, API.relative. destruct (Z.ltb_spec rotate 0); lia. }
  assert ((i + rotate) `mod` length_ = (i `mod` length_ + k) `mod` length_) as ->.
  { destruct Hk' as [->| ->].
    - by rewrite Z.add_mod_idemp_l by lia.
    - rewrite Z.add_mod_idemp_l by lia.
      replace (i + (length_ + rotate)) with (i + rotate + 1 * length_) by lia.
      by rewrite Z.mod_add by lia. }
  set (j := i `mod` length_) in *.
  destruct (decide (j + k < length_)) as [Hlt|Hge].
  - rewrite Z.mod_small by lia.
    rewrite lookup_app_l by (rewrite length_drop; lia).
    rewrite lookup_drop. f_equal. lia.
  - rewrite lookup_app_r by (rewrite length_drop; lia).
    rewrite length_drop, lookup_take_lt by lia.
    f_equal.
    assert ((j + k) `mod` length_ = j + k - length_) as ->.
    { symmetry. apply (Z.mod_unique_pos _ _ 1); lia. }
    lia.
Qed.

(** X3: for [length ≥ 1], [euclid] has period [length] in a non-negative
    iterator and is defined there when [0 ≤ pulses ≤ length]; a negative
    iterator that is not a multiple of [length] gives [undefined]. *)
Theorem euclid_periodic i pulses length_ rotate :
  1 ≤ length_ →
  (0 ≤ i →
   API.euclid (i + length_) pulses length_ rotate
   = API.euclid i pulses length_ rotate)
  ∧ (0 ≤ i → 0 ≤ pulses ≤ length_ →
     is_Some (API.euclid i pulses length_ rotate))
  ∧ (i < 0 → Z.rem i length_ ≠ 0 →
     API.euclid i pulses length_ rotate = None).
Proof.
  intros Hn. split; [|split].
  - intros Hi. rewrite !euclid_lookup by lia.
    replace (i + length_) with (i + 1 * length_) by lia.
    by rewrite Z.mod_add by lia.
  - intros Hi Hp. rewrite euclid_lookup by lia.
    apply lookup_lt_is_Some.
    pose proof (Z.mod_pos_bound i length_ ltac:(lia)).
    destruct (decide (pulses = length_)) as [->|Hne].
    + unfold API._euclidean_cycle. rewrite Z.eqb_refl.
      rewrite array_from_length_length. lia.
    + rewrite (proj1 (euclidean_cycle_count pulses length_ rotate ltac:(lia))). lia.
  - intros Hi Hr. unfold API.euclid, JS.rem_Z, API.index.
    destruct (Z.eqb_spec length_ 0) as [?|_]; [lia|].
    pose proof (Z.rem_nonpos i length_ ltac:(lia) ltac:(lia)).
    destruct (Z.ltb_spec (Z.rem i length_) 0) as [_|?]; [done|lia].
Qed.

(** X4: a cycle of length 0 gives [undefined] for every iterator, without
    a fault; with more pulses than steps the cycle is the one-element
    array [[true]], so [euclid] is [true] on the multiples of [length] and
    [undefined] elsewhere. *)
Theorem euclid_degenerate i pulses length_ rotate :
  API.euclid i pulses 0 rotate = None
  ∧ (1 ≤ length_ < pulses → 0 ≤ i →
     API.euclid i pulses length_ rotate
     = if i `mod` length_ =? 0 then Some true else None).
Proof.
  split; [reflexivity|]. intros Hp Hi.
  rewrite euclid_lookup by lia. unfold API._euclidean_cycle.
  destruct (Z.eqb_spec pulses length_) as [?|_]; [lia|].
  destruct (Z.leb_spec length_ pulses) as [_|?]; [|lia].
  pose proof (Z.mod_pos_bound i length_ ltac:(lia)).
  destruct (Z.eqb_spec (i `mod` length_) 0) as [->|Hne]; [reflexivity|].
  destruct (Z.to_nat (i `mod` length_)) eqn:E; [lia|reflexivity].
Qed.

End EuclidCount.

(** ** More on counters *)

Section MoreCounterFacts.

(** A counter that holds [j * s], with step [s ≥ 1] and limit [L]. *)
Lemma counter_calls_stepping k :
  ∀ name step_ (counters : gmap string API.Counter) L s j,
    1 ≤ s → (step_ = None ∨ step_ = Some s) →
    counters !! name = Some (API.mkCounter (j * s) s (Some L)) →
    0 ≤ j ≤ L / s →
    API.counter_calls k name (Some L) step_ counters
    = map (fun i => ((j + 1 + Z.of_nat i) `mod` (L / s + 1)) * s) (seq 0 k).
Proof.
  induction k as [|k IH]; intros name step_ counters L s j Hs Hstep Hc Hj;
    [reflexivity|].
  cbn [API.counter_calls]. rewrite (counter_existing _ _ _ _ _ Hc).
  cbn [seq map]. unfold API.counter_step_spec.
  cbn [API.value API.step API.limit].
  rewrite (bool_decide_eq_true_2 (Some L = Some L)) by reflexivity.
  assert (default s step_ = s) as -> by (by destruct Hstep as [-> | ->]).
  assert (0 ≤ L) as HL.
  { destruct (Z.le_gt_cases 0 L) as [|Hneg]; [done|].
    pose proof (Z.div_lt_upper_bound L s 0 ltac:(lia) ltac:(lia)). lia. }
  pose proof (Z.div_pos L s HL ltac:(lia)) as Hq.
  assert (L < (j + 1) * s ↔ L / s < j + 1) as Hwrap.
  { split.
    - intros H. apply Z.div_lt_upper_bound; lia.
    - intros H. destruct (Z.le_gt_cases ((j + 1) * s) L) as [Hle|]; [|done].
      pose proof (Z.div_le_lower_bound L s (j + 1) ltac:(lia) ltac:(lia)). lia. }
  replace (j * s + s) with ((j + 1) * s) by lia.
  case_bool_decide as Hw.
  - assert (j = L / s) as Hjq by (apply Hwrap in Hw; lia).
    cbn [API.value]. f_equal.
    + rewrite Z.add_0_r, Hjq, Z.mod_same by lia. lia.
    + rewrite (IH name step_ _ L s 0); [|done|done|by rewrite lookup_insert_eq|lia].
      rewrite <- seq_shift, map_map. apply map_ext. intros i. f_equal.
      rewrite Nat2Z.inj_succ.
      replace (j + 1 + Z.succ (Z.of_nat i))
        with (0 + 1 + Z.of_nat i + 1 * (L / s + 1)) by lia.
      by rewrite Z.mod_add by lia.
  - assert (j + 1 ≤ L / s) as Hjq by (rewrite Hwrap in Hw; lia).
    cbn [API.value]. f_equal.
    + rewrite Z.add_0_r. rewrite Z.mod_small by lia. reflexivity.
    + rewrite (IH name step_ _ L s (j + 1));
        [|done|done|by rewrite lookup_insert_eq|lia].
      rewrite <- seq_shift, map_map. apply map_ext. intros i. f_equal. f_equal.
      lia.
Qed.

(** X5: for a name that [Object.prototype] does not define, and from a
    registry without that name, the successive calls [counter(name, L, s)]
    with [L ≥ 0] and a step [s ≥ 1] (1 when absent), [L + s] being a safe
    integer so that every addition is exact, return 0, s, 2s, ... up to the
    last multiple of [s] that is at most [L], and start again: the call
    number [i] returns [(i mod (L / s + 1)) * s]. *)
Theorem counter_cycle_general name step_ L (counters : gmap string API.Counter) :
  API.inherited name = false →
  counters !! name = None → 0 ≤ L → 1 ≤ default 1 step_ →
  JS.safe_integer (L + default 1 step_) = true →
  ∀ k, API.counter_calls k name (Some L) step_ counters
       = map (fun i => (Z.of_nat i `mod` (L / default 1 step_ + 1))
                       * default 1 step_) (seq 0 k).
Proof.
  intros _ Hc HL Hs _ [|k]; [reflexivity|].
  set (s := default 1 step_) in *.
  pose proof (Z.div_pos L s HL ltac:(lia)) as Hq.
  cbn [API.counter_calls]. rewrite (counter_fresh _ _ _ _ Hc).
  cbn [seq map]. f_equal.
  rewrite (counter_calls_stepping k name step_ _ L s 0).
  - rewrite <- seq_shift, map_map. apply map_ext. intros i. f_equal. f_equal. lia.
  - lia.
  - unfold s. destruct step_; cbn; auto.
  - by rewrite lookup_insert_eq.
  - lia.
Qed.

Lemma counter_calls_unbounded k :
  ∀ name step_ (counters : gmap string API.Counter) s v,
    (step_ = None ∨ step_ = Some s) →
    counters !! name = Some (API.mkCounter v s None) →
    API.counter_calls k name None step_ counters
    = map (fun i => v + (1 + Z.of_nat i) * s) (seq 0 k).
Proof.
  induction k as [|k IH]; intros name step_ counters s v Hstep Hc; [reflexivity|].
  cbn [API.counter_calls]. rewrite (counter_existing _ _ _ _ _ Hc).
  cbn [seq map]. unfold API.counter_step_spec.
  cbn [API.value API.step API.limit].
  rewrite (bool_decide_eq_true_2 (None = None)) by reflexivity.
  assert (default s step_ = s) as -> by (by destruct Hstep as [-> | ->]).
  cbn [API.value]. f_equal; [lia|].
  rewrite (IH name step_ _ s (v + s)); [|done|by rewrite lookup_insert_eq].
  rewrite <- seq_shift, map_map. apply map_ext. intros i. lia.
Qed.

(** X6: without a limit the counter never wraps: for a name that
    [Object.prototype] does not define, and from a registry without that
    name, the call number [i] of [counter(name, undefined, s)] returns
    [i * s], for any whole step, negative ones included, as long as the
    values stay safe integers ([k * s] is one, for the [k] calls made). *)
Theorem counter_without_limit name step_ (counters : gmap string API.Counter) :
  API.inherited name = false →
  counters !! name = None →
  ∀ k, JS.safe_integer (Z.of_nat k * default 1 step_) = true →
       API.counter_calls k name None step_ counters
       = map (fun i => Z.of_nat i * default 1 step_) (seq 0 k).
Proof.
  intros _ Hc [|k] _; [reflexivity|].
  cbn [API.counter_calls]. rewrite (counter_fresh _ _ _ _ Hc).
  cbn [seq map]. f_equal.
  rewrite (counter_calls_unbounded k name step_ _ (default 1 step_) 0).
  - rewrite <- seq_shift, map_map. apply map_ext. intros i. lia.
  - destruct step_; cbn; auto.
  - by rewrite lookup_insert_eq.
Qed.

(** X7: for a name that [Object.prototype] does not define, a call with a
    limit [L ≥ 0] never returns more than [L], whether it creates the
    counter, steps it or wraps it; the value returned is the one stored
    under [name], with that limit; the other counters of the registry are
    left as they were. *)
Theorem counter_within_limit name L step_ (counters : gmap string API.Counter) :
  API.inherited name = false →
  0 ≤ L →
  (API.counter name (Some L) step_ counters).1 ≤ L
  ∧ (∃ c, (API.counter name (Some L) step_ counters).2 !! name = Some c
          ∧ API.value c = (API.counter name (Some L) step_ counters).1
          ∧ API.limit c = Some L)
  ∧ ∀ other, other ≠ name →
      (API.counter name (Some L) step_ counters).2 !! other = counters !! other.
Proof.
  intros _ HL. destruct (counters !! name) as [c|] eqn:Hc.
  - rewrite (counter_existing _ _ _ _ _ Hc). cbn [fst snd].
    split; [|split].
    + unfold API.counter_step_spec. cbn [API.value].
      case_bool_decide; lia.
    + eexists. rewrite lookup_insert_eq. split; [reflexivity|]. done.
    + intros other Hne. by rewrite lookup_insert_ne.
  - rewrite (counter_fresh _ _ _ _ Hc). cbn [fst snd].
    split; [lia|split].
    + eexists. rewrite lookup_insert_eq. split; [reflexivity|]. done.
    + intros other Hne. by rewrite lookup_insert_ne.
Qed.

End MoreCounterFacts.

(** ** [modpulse], [modbar] and [divbar] *)

Section MoreTimeFilterFacts.

(** X8: [modpulse] with integer arguments is true exactly when one of them
    is not zero and divides the pulse count. *)
Theorem modpulse_iff c (ns : list Z) :
  API.modpulse c (JS.of_Z <$> ns) = true
  ↔ ∃ n, n ∈ ns ∧ n ≠ 0 ∧ (n | pulses_since_origin c).
Proof.
  unfold API.modpulse, API.epulse. rewrite existsb_eqb_true.
  change (map ?f (JS.of_Z <$> ns)) with (f <$> (JS.of_Z <$> ns)).
  rewrite <- list_fmap_compose, existsb_exists. split.
  - intros (b & Hin & Hb). apply list_elem_of_In, list_elem_of_fmap in Hin
      as (n & -> & Hn).
    unfold id, compose in Hb. rewrite rem_of_Z_zero in Hb.
    apply andb_true_iff in Hb as [Hz Hr].
    apply negb_true_iff, Z.eqb_neq in Hz. apply Z.eqb_eq in Hr.
    exists n. split; [done|]. split; [done|]. by apply Z.rem_divide.
  - intros (n & Hn & Hz & Hd). exists true. split; [|done].
    apply list_elem_of_In, list_elem_of_fmap. exists n. split; [|done].
    unfold compose. rewrite rem_of_Z_zero. symmetry.
    apply andb_true_iff. split.
    + by apply negb_true_iff, Z.eqb_neq.
    + apply Z.eqb_eq. by apply Z.rem_divide.
Qed.

(** X9: [modbar] multiplies its argument by [ppqn], as [mod] does: it is
    true exactly when, for one of the values, the modulus that the program
    computes as [Math.floor(value * ppqn())] is a whole number other than
    zero that divides the bar number, or is infinite while the bar number
    is zero.  The values range over all numbers, and the modulus is the
    value of the program's expression, whatever the product rounds to. *)
Theorem modbar_iff c (vs : list JS.number) :
  API.modbar c vs = true
  ↔ ∃ v, v ∈ vs
         ∧ ((∃ m, JS.floor (JS.mul v (API.api_ppqn c)) = JS.of_Z m
                  ∧ m ≠ 0
                  ∧ (m | tp_bar (time_position c)))
            ∨ (∃ s, JS.floor (JS.mul v (API.api_ppqn c)) = JS.Inf s
                    ∧ tp_bar (time_position c) = 0)).
Proof.
  assert (∀ m, m ≠ 0 →
            tp_bar (time_position c) `mod` m = 0
            ↔ (m | tp_bar (time_position c))) as Hdiv.
  { intros m Hm. by apply Z.mod_divide. }
  unfold API.modbar, API.bar. rewrite existsb_eqb_true.
  change (map ?f vs) with (f <$> vs).
  rewrite existsb_exists. split.
  - intros (b & Hin & Hb). apply list_elem_of_In, list_elem_of_fmap in Hin
      as (v & -> & Hv).
    exists v. split; [done|].
    apply modulus_test_iff in Hb as [(m & Hfl & Hm & Hr)|Hinf]; [left|by right].
    exists m. split; [done|]. split; [done|]. by apply Hdiv.
  - intros (v & Hv & Hm). exists true. split; [|done].
    apply list_elem_of_In, list_elem_of_fmap. exists v. split; [|done].
    symmetry. apply modulus_test_iff.
    destruct Hm as [(m & Hfl & Hm & Hr)|Hinf]; [left|by right].
    exists m. split; [done|]. split; [done|]. by apply Hdiv.
Qed.

Lemma floor_div_Q_of_Z (x : Q) (a b : Z) :
  (x == inject_Z a)%Q → 0 < b →
  JS.floor (JS.div (JS.Num x) (JS.of_Z b)) = JS.of_Z (a / b).
Proof.
  intros E Hb. unfold JS.of_Z, JS.div.
  destruct (Qeq_bool (inject_Z b) 0) eqn:E0.
  { apply Qeq_bool_iff in E0. apply inject_Z_nonzero in E0; [done|lia]. }
  unfold JS.floor, JS.of_Z. f_equal. f_equal.
  rewrite (Zdiv_Qdiv a b). apply Qfloor_comp. by rewrite E.
Qed.

(** X10: for a whole [chunk ≥ 1], [divbar(chunk)] is the parity test of
    [floor((bar - 1) / chunk)]: true on the bars [1..chunk], false on the
    next [chunk] bars, and so on; it is false on bar 0. *)
Theorem divbar_flip_flop c (chunk : Z) :
  1 ≤ chunk →
  API.divbar c (JS.of_Z chunk)
  = Z.even ((tp_bar (time_position c) - 1) / chunk)
  ∧ (∀ k, k * chunk < tp_bar (time_position c) ≤ (k + 1) * chunk →
          API.divbar c (JS.of_Z chunk) = Z.even k)
  ∧ (tp_bar (time_position c) = 0 → API.divbar c (JS.of_Z chunk) = false).
Proof.
  intros Hc.
  assert (API.divbar c (JS.of_Z chunk)
          = Z.even ((tp_bar (time_position c) - 1) / chunk)) as E.
  { unfold API.divbar, API.bar, JS.sub, JS.of_Z at 1 2. cbn [JS.neg JS.add].
    rewrite (floor_div_Q_of_Z _ (tp_bar (time_position c) - 1) chunk).
    - rewrite rem_of_Z_zero. cbn [Z.eqb negb andb]. apply rem2_even.
    - unfold Qeq, Qplus, Qopp, inject_Z; cbn [Qnum Qden]. lia.
    - lia. }
  split; [exact E|]. split.
  - intros k Hk. rewrite E. f_equal. symmetry.
    apply (Z.div_unique _ _ k (tp_bar (time_position c) - 1 - chunk * k)); lia.
  - intros H0. rewrite E, H0. 
    replace ((0 - 1) / chunk) with (-1); [reflexivity|].
    apply (Z.div_unique _ _ (-1) (chunk - 1)); lia.
Qed.

End MoreTimeFilterFacts.

(** X9 at [modbar(0.5)] with [ppqn = 48], on bar 48: the computed modulus
    is 24. *)
Lemma modbar_iff_witness :
  let c := mkClock 120 48 0 (mkTimePosition 48 1 0) 48 in
  JS.floor (JS.mul (JS.Num (1 # 2)) (API.api_ppqn c)) = JS.of_Z 24
  ∧ (24 | tp_bar (time_position c))
  ∧ API.modbar c [JS.Num (1 # 2)] = true.
Proof.
  assert (24 | 48) as Hd by (exists 2; reflexivity).
  split; [reflexivity|]. split; [exact Hd|].
  apply (proj2 (modbar_iff (mkClock 120 48 0 (mkTimePosition 48 1 0) 48)
                  [JS.Num (1 # 2)])).
  exists (JS.Num (1 # 2)). split; [by apply list_elem_of_singleton|].
  left. exists 24. split; [reflexivity|]. split; [lia|exact Hd].
Defined.

(** X10 at [divbar(2)] on bar 3. *)
Lemma divbar_flip_flop_witness :
  let c := mkClock 120 48 0 (mkTimePosition 3 1 0) 48 in
  1 ≤ 2 ∧ API.divbar c (JS.of_Z 2) = Z.even ((3 - 1) / 2).
Proof.
  split; [lia|].
  exact (proj1 (divbar_flip_flop (mkClock 120 48 0 (mkTimePosition 3 1 0) 48) 2
                  ltac:(lia))).
Defined.

(** ** The array readers [loop], [pulse], [bar], [div] and [pick] *)

Section ReaderFacts.
Context {A : Type}.
Implicit Types this : list A.

Lemma index_number_Z this (q : Q) (z : Z) :
  (q == inject_Z z)%Q → Arr.index_number this (JS.Num q) = API.index this (Some z).
Proof.
  intros E. unfold Arr.index_number.
  assert (Qfloor q = z) as -> by (rewrite (Qfloor_comp _ _ E); apply Qfloor_Z).
  replace (Qeq_bool q (inject_Z z)) with true; [done|].
  symmetry. by apply Qeq_bool_iff.
Qed.

Lemma rem_of_Z_Num a b :
  b ≠ 0 →
  ∃ q, JS.rem (JS.of_Z a) (JS.of_Z b) = JS.Num q ∧ (q == inject_Z (Z.rem a b))%Q.
Proof.
  intros Hb. unfold JS.of_Z, JS.rem.
  destruct (Qeq_bool (inject_Z b) 0) eqn:E.
  { apply Qeq_bool_iff in E. by apply inject_Z_nonzero in E. }
  eexists. split; [reflexivity|].
  rewrite Qtrunc_div_Z by exact Hb.
  unfold Qeq, Qminus, Qplus, Qmult, Qopp, inject_Z; cbn [Qnum Qden].
  pose proof (Z.quot_rem' a b). lia.
Qed.

Lemma rem_Q_of_Z (x : Q) a b :
  (x == inject_Z a)%Q → b ≠ 0 →
  ∃ q, JS.rem (JS.Num x) (JS.of_Z b) = JS.Num q ∧ (q == inject_Z (Z.rem a b))%Q.
Proof.
  intros Ex Hb. unfold JS.of_Z, JS.rem.
  destruct (Qeq_bool (inject_Z b) 0) eqn:E.
  { apply Qeq_bool_iff in E. by apply inject_Z_nonzero in E. }
  eexists. split; [reflexivity|].
  assert (JS.Qtrunc (x / inject_Z b) = Z.quot a b) as ->.
  { rewrite <- Qtrunc_div_Z by exact Hb. apply Qtrunc_comp. by rewrite Ex. }
  rewrite Ex.
  unfold Qeq, Qminus, Qplus, Qmult, Qopp, inject_Z; cbn [Qnum Qden].
  pose proof (Z.quot_rem' a b). lia.
Qed.

(** Reading at [k % length] for a whole [k]. *)
Lemma index_rem_of_Z this (x : Q) (k : Z) :
  (x == inject_Z k)%Q →
  Arr.index_number this (JS.rem (JS.Num x) (JS.of_Z (Z.of_nat (length this))))
  = API.index this (JS.rem_Z k (Z.of_nat (length this))).
Proof.
  intros Ex. unfold JS.rem_Z.
  destruct (Z.eqb_spec (Z.of_nat (length this)) 0) as [E|Hne].
  - rewrite E. unfold JS.of_Z, JS.rem. reflexivity.
  - destruct (rem_Q_of_Z x k _ Ex Hne) as (q & -> & Hq).
    by apply index_number_Z.
Qed.

Lemma index_rem_nonneg this (k : Z) :
  0 ≤ k → this ≠ [] →
  API.index this (JS.rem_Z k (Z.of_nat (length this)))
  = this !! Z.to_nat (k `mod` Z.of_nat (length this)).
Proof.
  intros Hk Hne. unfold JS.rem_Z, API.index.
  assert (length this ≠ 0%nat) by (by destruct this).
  destruct (Z.eqb_spec (Z.of_nat (length this)) 0) as [?|_]; [lia|].
  rewrite Z.rem_mod_nonneg by lia.
  pose proof (Z.mod_pos_bound k (Z.of_nat (length this)) ltac:(lia)).
  destruct (Z.ltb_spec (k `mod` Z.of_nat (length this)) 0) as [?|_]; [lia|].
  reflexivity.
Qed.

(** X11: on a non-empty array, [loop(i)] with a whole [i ≥ 0] is the element
    at [i mod length], so it is always an element of the array; with a
    negative [i] that is not a multiple of the length it is [undefined];
    on the empty array it is [undefined] for every number.  [pulse()] and
    [bar()] are [loop] at the pulse of the clock and at its bar plus one. *)
Theorem loop_wraps this (i : Z) :
  (this ≠ [] → 0 ≤ i →
   Arr.loop this (JS.of_Z i) = this !! Z.to_nat (i `mod` Z.of_nat (length this))
   ∧ is_Some (Arr.loop this (JS.of_Z i)))
  ∧ (i < 0 → Z.rem i (Z.of_nat (length this)) ≠ 0 →
     Arr.loop this (JS.of_Z i) = None)
  ∧ (∀ x, Arr.loop (@nil A) x = None)
  ∧ (∀ c, Arr.pulse c this = Arr.loop this (JS.of_Z (tp_pulse (time_position c)))
          ∧ Arr.bar c this = Arr.loop this (JS.of_Z (tp_bar (time_position c) + 1))).
Proof.
  split; [|split; [|split]].
  - intros Hne Hi.
    assert (Arr.loop this (JS.of_Z i)
            = this !! Z.to_nat (i `mod` Z.of_nat (length this))) as ->.
    { unfold Arr.loop, JS.of_Z at 1.
      rewrite (index_rem_of_Z this _ i) by reflexivity.
      by rewrite index_rem_nonneg. }
    split; [done|]. apply lookup_lt_is_Some.
    assert (length this ≠ 0%nat) by (by destruct this).
    pose proof (Z.mod_pos_bound i (Z.of_nat (length this)) ltac:(lia)). lia.
  - intros Hi Hr. unfold Arr.loop, JS.of_Z at 1.
    rewrite (index_rem_of_Z this _ i) by reflexivity.
    unfold JS.rem_Z, API.index.
    destruct (Z.eqb_spec (Z.of_nat (length this)) 0) as [?|Hl]; [done|].
    pose proof (Z.rem_nonpos i (Z.of_nat (length this)) ltac:(lia) ltac:(lia)).
    destruct (Z.ltb_spec (Z.rem i (Z.of_nat (length this))) 0) as [_|?];
      [done|lia].
  - intros x. unfold Arr.loop. cbn [length]. by destruct x as [q| |s].
  - intros c. split; [reflexivity|].
    unfold Arr.bar, Arr.loop, JS.of_Z at 1 2 4. cbn [JS.add].
    rewrite (index_rem_of_Z this _ (tp_bar (time_position c) + 1)).
    + by rewrite (index_rem_of_Z this _ (tp_bar (time_position c) + 1)).
    + by rewrite inject_Z_plus.
Qed.

(** X12: when the modulus [m] that the program computes as
    [Math.floor(divisor * ppqn())] is positive, and with a pulse count
    [p ≥ 0], the array method [div(divisor)] of a non-empty array reads the
    element at [(p / m) mod length]: each element lasts [m] pulses.  On a
    two-element array it gives the first element exactly when the time
    filter [div(divisor)] is true.  The modulus is the value of the
    program's expression, whatever the product rounds to. *)
Theorem array_div_follows_div c this (divisor : Q) (m : Z) :
  JS.floor (JS.mul (JS.Num divisor) (API.api_ppqn c)) = JS.of_Z m →
  0 < m → 0 ≤ pulses_since_origin c →
  (this ≠ [] →
   Arr.div c this (JS.Num divisor)
   = this !! Z.to_nat ((pulses_since_origin c / m)
                       `mod` Z.of_nat (length this)))
  ∧ ∀ x y : A, Arr.div c [x; y] (JS.Num divisor)
           = Some (if API.div c (JS.Num divisor) then x else y).
Proof.
  intros Hfl Hm Hp. rewrite computed_modulus in Hfl.
  apply of_Z_inj in Hfl. subst m.
  assert (∀ l : list A, l ≠ [] →
   Arr.div c l (JS.Num divisor)
   = l !! Z.to_nat ((pulses_since_origin c
                         / Qfloor (divisor * inject_Z (ppqn c)))
                       `mod` Z.of_nat (length l))) as G.
  { intros l Hne. unfold Arr.div, API.api_ppqn, API.epulse.
    rewrite mul_floor_Z, floor_div_of_Z by exact Hm.
    unfold JS.of_Z at 1.
    rewrite (index_rem_of_Z l _ _) by reflexivity.
    apply index_rem_nonneg; [|done].
    apply Z.div_pos; lia. }
  split; [apply G|]. intros x y. rewrite G by done.
  rewrite div_finite by exact Hm. cbn [length].
  set (k := _ / _). change (Z.of_nat 2) with 2.
  rewrite Zmod_even. destruct (Z.even k); reflexivity.
Qed.

(** X13: [pick()] and [random()] on a non-empty array, for a random number
    of [0, 1), give an element of the array; on the empty array they give
    [undefined]. *)
Theorem pick_in_array this (r : Q) :
  (this ≠ [] → (0 <= r)%Q → (r < 1)%Q →
   ∃ x, Arr.pick this (JS.Num r) = Some x ∧ x ∈ this)
  ∧ Arr.pick (@nil A) (JS.Num r) = None.
Proof.
  split.
  - intros Hne H0 H1. unfold Arr.pick, JS.of_Z, JS.mul, JS.floor, JS.of_Z.
    rewrite (index_number_Z this _ _ (Qeq_refl _)).
    set (n := Z.of_nat (length this)).
    assert (0 < n) as Hn by (unfold n; destruct this; [done|cbn; lia]).
    assert (0 ≤ Qfloor (r * inject_Z n) < n) as Hf.
    { split.
      - change 0 with (Qfloor (inject_Z 0)). apply Qfloor_resp_le.
        apply Qmult_le_0_compat; [done|].
        change 0%Q with (inject_Z 0). rewrite <- Zle_Qle. lia.
      - apply Z.lt_nge. intros Hge.
        assert (inject_Z n <= r * inject_Z n)%Q as Hle.
        { eapply Qle_trans; [|apply Qfloor_le]. by rewrite <- Zle_Qle. }
        assert (r * inject_Z n < 1 * inject_Z n)%Q as Hlt.
        { apply Qmult_lt_compat_r; [|done].
          change 0%Q with (inject_Z 0). by rewrite <- Zlt_Qlt. }
        rewrite Qmult_1_l in Hlt.
        apply (Qlt_irrefl (inject_Z n)). eapply Qle_lt_trans; eauto. }
    unfold API.index.
    destruct (Z.ltb_spec (Qfloor (r * inject_Z n)) 0) as [?|_]; [lia|].
    destruct (this !! Z.to_nat (Qfloor (r * inject_Z n))) as [x|] eqn:E.
    + exists x. split; [done|]. by eapply list_elem_of_lookup_2.
    + apply lookup_ge_None in E. lia.
  - unfold Arr.pick. cbn [length]. unfold JS.of_Z, JS.mul, JS.floor, JS.of_Z.
    rewrite (index_number_Z [] _ _ (Qeq_refl _)). unfold API.index.
    by destruct (_ <? 0).
Qed.

End ReaderFacts.

(** ** [rotate] *)

Section RotateFacts.
Context {A : Type}.
Implicit Types this : list A.

Lemma drop_take_all this :
  drop (Z.to_nat (Z.of_nat (length this))) this
  ++ take (Z.to_nat (Z.of_nat (length this))) this = this.
Proof.
  rewrite Nat2Z.id, drop_all. cbn [app]. by apply take_ge.
Qed.

Lemma splice_tail this (k : Z) :
  0 ≤ k ≤ Z.of_nat (length this) →
  Arr.splice this (Some (- k)) (Some k)
  = (drop (Z.to_nat (Z.of_nat (length this) - k)) this,
     take (Z.to_nat (Z.of_nat (length this) - k)) this).
Proof.
  intros Hk. unfold Arr.splice, default, from_option, id.
  set (len := Z.of_nat (length this)) in *.
  destruct (decide (k = 0)) as [->|Hk0].
  - assert (API.relative len (- 0) = 0) as ->.
    { unfold API.relative. destruct (Z.ltb_spec (- 0) 0); lia. }
    rewrite Z.max_id, Z.min_l, Z.sub_0_r, Z.add_0_r by lia.
    change (Z.to_nat 0) with 0%nat. cbn [take drop app].
    unfold len. rewrite Nat2Z.id, drop_all, firstn_all. reflexivity.
  - assert (API.relative len (- k) = len - k) as ->.
    { unfold API.relative. destruct (Z.ltb_spec (- k) 0); lia. }
    rewrite Z.max_l, Z.min_l by lia.
    replace (len - k + k) with len by lia.
    unfold len at 3. rewrite Nat2Z.id, drop_all, app_nil_r.
    f_equal. apply take_ge. rewrite length_drop. lia.
Qed.

Lemma rotate_drop_take this (steps : Z) :
  this ≠ [] →
  Arr.rotate this steps
  = drop (Z.to_nat (Z.of_nat (length this)
                    - steps `mod` Z.of_nat (length this))) this
    ++ take (Z.to_nat (Z.of_nat (length this)
                       - steps `mod` Z.of_nat (length this))) this.
Proof.
  intros Hne. unfold Arr.rotate.
  set (len := Z.of_nat (length this)) in *.
  assert (0 < len) as Hlen by (unfold len; destruct this; [done|cbn; lia]).
  pose proof (Z.mod_pos_bound steps len Hlen) as Hm.
  unfold JS.rem_Z. destruct (Z.eqb_spec len 0) as [?|_]; [lia|].
  destruct (Z.ltb_spec steps 0) as [Hneg|Hnn]; cbn [orb fmap option_fmap option_map].
  - assert (len + Z.rem steps len = steps `mod` len
            ∨ (Z.rem steps len = 0 ∧ steps `mod` len = 0)) as Hr.
    { pose proof (Z.rem_bound_abs steps len ltac:(lia)) as Hb.
      pose proof (Z.rem_nonpos steps len ltac:(lia) ltac:(lia)) as Hb'.
      destruct (decide (Z.rem steps len = 0)) as [E|E].
      - right. split; [done|]. apply Z.rem_mod_eq_0; [lia|done].
      - left. apply (Z.mod_unique_pos _ _ (steps ÷ len - 1)); [lia|].
        pose proof (Z.quot_rem' steps len). lia. }
    destruct Hr as [->|[-> E0]].
    + unfold len at 1 2. rewrite splice_tail by (fold len; lia). reflexivity.
    + rewrite Z.add_0_r. unfold len at 1 2.
      rewrite splice_tail by (fold len; lia). fold len.
      rewrite E0, Z.sub_diag, Z.sub_0_r. change (Z.to_nat 0) with 0%nat.
      cbn [drop take]. rewrite app_nil_r. unfold len. by rewrite drop_take_all.
  - destruct (Z.ltb_spec 0 steps) as [Hpos|Hz].
    + rewrite Z.rem_mod_nonneg by lia.
      unfold len at 1. rewrite splice_tail by (fold len; lia). reflexivity.
    + assert (steps = 0) as -> by lia. rewrite Z.mod_0_l, Z.sub_0_r by lia.
      unfold len. by rewrite drop_take_all.
Qed.

Lemma rotate_nil (steps : Z) : Arr.rotate (@nil A) steps = [].
Proof.
  unfold Arr.rotate. cbn [length]. unfold JS.rem_Z. cbn [Z.of_nat Z.eqb].
  destruct (steps <? 0); destruct (0 <? steps); reflexivity.
Qed.

Lemma rotate_length this (steps : Z) :
  length (Arr.rotate this steps) = length this.
Proof.
  destruct (decide (this = [])) as [->|Hne]; [by rewrite rotate_nil|].
  rewrite rotate_drop_take by done.
  by rewrite length_app, Nat.add_comm, <- length_app, take_drop.
Qed.

Lemma rotate_lookup this (steps : Z) (i : nat) :
  (i < length this)%nat →
  Arr.rotate this steps !! i
  = this !! Z.to_nat ((Z.of_nat i - steps) `mod` Z.of_nat (length this)).
Proof.
  intros Hi. assert (this ≠ []) as Hne by (intros ->; cbn in Hi; lia).
  rewrite rotate_drop_take by done.
  set (len := Z.of_nat (length this)) in *.
  assert (0 < len) as Hlen by (unfold len; lia).
  pose proof (Z.mod_pos_bound steps len Hlen) as Hm.
  set (k := steps `mod` len) in *.
  assert ((Z.of_nat i - steps) `mod` len = (Z.of_nat i - k) `mod` len) as ->.
  { unfold k. by rewrite Zminus_mod_idemp_r. }
  destruct (decide (Z.of_nat i < k)) as [Hlt|Hge].
  - rewrite lookup_app_l by (rewrite length_drop; lia).
    rewrite lookup_drop. f_equal.
    assert ((Z.of_nat i - k) `mod` len = Z.of_nat i - k + len) as ->.
    { symmetry. apply (Z.mod_unique_pos _ _ (-1)); lia. }
    lia.
  - rewrite lookup_app_r by (rewrite length_drop; lia).
    rewrite length_drop, lookup_take_lt by lia. f_equal.
    rewrite Z.mod_small by lia. lia.
Qed.

(** X14: [rotate(steps)] moves every element [steps] places to the right,
    around the end: the array keeps its length, its element at index [i] is
    the former element at [(i - steps) mod length], and it holds the same
    elements; the empty array stays empty. *)
Theorem rotate_moves_right this (steps : Z) :
  length (Arr.rotate this steps) = length this
  ∧ (∀ i : nat, (i < length this)%nat →
       Arr.rotate this steps !! i
       = this !! Z.to_nat ((Z.of_nat i - steps) `mod` Z.of_nat (length this)))
  ∧ Arr.rotate this steps ≡ₚ this
  ∧ Arr.rotate (@nil A) steps = [].
Proof.
  split; [apply rotate_length|]. split; [apply rotate_lookup|].
  split; [|apply rotate_nil].
  destruct (decide (this = [])) as [->|Hne]; [by rewrite rotate_nil|].
  rewrite rotate_drop_take by done.
  rewrite Permutation_app_comm. by rewrite take_drop.
Qed.

(** X15: two rotations in a row are the rotation by the sum of the steps; so
    rotating by [steps] and then by [-steps] gives the array back, and so
    does rotating by a multiple of the length. *)
Theorem rotate_compose this (a b : Z) :
  Arr.rotate (Arr.rotate this a) b = Arr.rotate this (a + b)
  ∧ Arr.rotate (Arr.rotate this a) (- a) = this
  ∧ Arr.rotate this (a * Z.of_nat (length this)) = this.
Proof.
  assert (∀ (l : list A) x y, Arr.rotate (Arr.rotate l x) y = Arr.rotate l (x + y)) as G.
  { intros l x y. apply list_eq. intros i.
    destruct (decide (i < length l)%nat) as [Hi|Hi].
    - rewrite rotate_lookup by (by rewrite rotate_length).
      rewrite rotate_length.
      assert (0 < Z.of_nat (length l)) as Hlen by lia.
      pose proof (Z.mod_pos_bound (Z.of_nat i - y) _ Hlen) as Hm.
      rewrite rotate_lookup by lia. rewrite rotate_lookup by done.
      f_equal. f_equal. rewrite Z2Nat.id by lia.
      rewrite Zminus_mod_idemp_l. f_equal. lia.
    - rewrite !lookup_ge_None_2; [done| |]; rewrite !rotate_length; lia. }
  assert (∀ l : list A, Arr.rotate l 0 = l) as G0.
  { intros l. unfold Arr.rotate. reflexivity. }
  split; [apply G|]. split.
  - by rewrite G, Z.add_opp_diag_r.
  - apply list_eq. intros i.
    destruct (decide (i < length this)%nat) as [Hi|Hi].
    + rewrite rotate_lookup by done. f_equal.
      replace (Z.of_nat i - a * Z.of_nat (length this))
        with (Z.of_nat i + (- a) * Z.of_nat (length this)) by lia.
      rewrite Z.mod_add, Z.mod_small by lia. lia.
    + rewrite !lookup_ge_None_2; [done| |]; rewrite ?rotate_length; lia.
Qed.

End RotateFacts.

(** ** [unique] *)

Section UniqueFacts.
Context {A : Type} `{EqDecision A}.
Implicit Types this : list A.

Lemma sublist_same_length (l1 l2 : list A) :
  l1 `sublist_of` l2 → length l1 = length l2 → l1 = l2.
Proof.
  induction 1 as [|x l1 l2 Hs IH|x l1 l2 Hs IH]; intros Hl.
  - done.
  - cbn in Hl. f_equal. apply IH. lia.
  - apply sublist_length in Hs. cbn in Hl. lia.
Qed.

(** What the loop of [unique] has built after [r] turns: the first
    [writeIndex] slots hold the elements met once each, in the order of
    their first occurrence, and the slots from [r] on are untouched. *)
Lemma unique_loop_invariant this (r : nat) :
  (r ≤ length this)%nat →
  ∃ arr seen w,
    foldl Arr.unique_step (this, [], 0%nat) (seq 0 r) = (arr, seen, w)
    ∧ (w ≤ r)%nat
    ∧ length arr = length this
    ∧ drop r arr = drop r this
    ∧ seen = reverse (take w arr)
    ∧ NoDup (take w arr)
    ∧ (∀ x, x ∈ take w arr ↔ x ∈ take r this)
    ∧ take w arr `sublist_of` take r this.
Proof.
  induction r as [|r IH]; intros Hr.
  - exists this, [], 0%nat. cbn [seq foldl take]. repeat split; try done.
    + apply NoDup_nil_2.
  - destruct IH as (arr & seen & w & Hf & Hw & Hlen & Hdrop & Hseen & Hnd & Hin & Hsub);
      [lia|].
    rewrite seq_S, foldl_app, Hf. cbn [foldl Nat.add].
    assert (is_Some (this !! r)) as [v Hv] by (apply lookup_lt_is_Some; lia).
    assert (arr !! r = Some v) as Hav.
    { rewrite <- (Nat.add_0_r r), <- lookup_drop, Hdrop, lookup_drop.
      by rewrite Nat.add_0_r. }
    assert (take (S r) this = take r this ++ [v]) as Htake.
    { by apply take_S_r. }
    unfold Arr.unique_step. rewrite Hav.
    destruct (decide (v ∈ seen)) as [Hvs|Hvs].
    + exists arr, seen, w. split; [done|]. split; [lia|]. split; [done|].
      split.
      { replace (S r) with (r + 1)%nat by lia.
        by rewrite <- !drop_drop, Hdrop. }
      split; [done|]. split; [done|]. split.
      * intros x. rewrite Htake, elem_of_app, <- Hin, list_elem_of_singleton.
        split; [auto|]. intros [?| ->]; [done|].
        rewrite Hseen, elem_of_reverse in Hvs. done.
      * rewrite Htake. by apply sublist_inserts_r.
    + assert (take (S w) (<[w:=v]> arr) = take w arr ++ [v]) as Htw.
      { rewrite (take_S_r _ _ v).
        - by rewrite take_insert_ge by lia.
        - apply list_lookup_insert_eq. lia. }
      exists (<[w:=v]> arr), (v :: seen), (S w).
      split; [done|]. split; [lia|]. split; [by rewrite length_insert|].
      split.
      { rewrite drop_insert_lt by lia.
        replace (S r) with (r + 1)%nat by lia.
        by rewrite <- !drop_drop, Hdrop. }
      split.
      { rewrite Htw, reverse_app, Hseen. reflexivity. }
      assert (v ∉ take w arr) as Hnot.
      { intros Hx. apply Hvs. by rewrite Hseen, elem_of_reverse. }
      split.
      { rewrite Htw. apply NoDup_app. split; [done|]. split.
        - intros x Hx ->%list_elem_of_singleton. done.
        - apply NoDup_singleton. }
      split.
      * intros x. rewrite Htw, Htake, !elem_of_app, Hin. done.
      * rewrite Htw, Htake. apply sublist_app; [done|]. reflexivity.
Qed.

(** X16: [unique()] leaves an array without duplicates that holds exactly
    the elements the array had, in the order of their first occurrence (it
    is a sublist of the former array); an array without duplicates is left
    as it is, so [unique] twice is [unique] once. *)
Theorem unique_first_occurrences this :
  NoDup (Arr.unique this)
  ∧ (∀ x, x ∈ Arr.unique this ↔ x ∈ this)
  ∧ Arr.unique this `sublist_of` this
  ∧ (NoDup this → Arr.unique this = this)
  ∧ Arr.unique (Arr.unique this) = Arr.unique this.
Proof.
  assert (∀ l : list A,
    NoDup (Arr.unique l) ∧ (∀ x, x ∈ Arr.unique l ↔ x ∈ l)
    ∧ Arr.unique l `sublist_of` l) as G.
  { intros l.
    destruct (unique_loop_invariant l (length l) (Nat.le_refl _))
      as (arr & seen & w & Hf & Hw & Hlen & Hdrop & Hseen & Hnd & Hin & Hsub).
    unfold Arr.unique. rewrite Hf. rewrite firstn_all in Hin, Hsub. done. }
  assert (∀ l : list A, NoDup l → Arr.unique l = l) as Gid.
  { intros l Hl. destruct (G l) as (Hnd & Hin & Hsub).
    apply sublist_same_length; [done|].
    apply Permutation_length. by apply NoDup_Permutation. }
  destruct (G this) as (Hnd & Hin & Hsub).
  repeat split; try done; try apply Hin.
  - apply Gid.
  - by apply Gid.
Qed.

End UniqueFacts.

(** ** [repeatAll], [repeatPair] and [repeatOdd] *)

Section RepeatFacts.
Context {A : Type}.
Implicit Types this : list A.

Lemma bind_replicate_length this (n : nat) :
  length (x ← this; replicate n x) = (n * length this)%nat.
Proof.
  induction this as [|x l IH]; [cbn; lia|].
  cbn [mbind list_bind]. rewrite length_app, length_replicate.
  change (length (x :: l)) with (S (length l)).
  fold (mbind (M:=list) (replicate (A:=A) n) l). rewrite IH. lia.
Qed.

Lemma bind_replicate_lookup this (n k : nat) :
  (0 < n)%nat →
  (x ← this; replicate n x) !! k = this !! (k / n)%nat.
Proof.
  intros Hn. revert k. induction this as [|x l IH]; intros k; [done|].
  cbn [mbind list_bind]. fold (mbind (M:=list) (replicate (A:=A) n) l).
  destruct (decide (k < n)%nat) as [Hk|Hk].
  - rewrite lookup_app_l by (by rewrite length_replicate).
    rewrite Nat.div_small by done. cbn. apply lookup_replicate_2. done.
  - rewrite lookup_app_r by (rewrite length_replicate; lia).
    rewrite length_replicate, IH.
    replace k with ((k - n) + 1 * n)%nat at 2 by lia.
    rewrite Nat.div_add by lia. by rewrite Nat.add_1_r.
Qed.

Lemma bind_replicate_compose this (a b : nat) :
  (y ← (x ← this; replicate a x); replicate b y)
  = (x ← this; replicate (a * b) x).
Proof.
  induction this as [|x l IH]; [done|].
  cbn [mbind list_bind]. rewrite bind_app.
  fold (mbind (M:=list) (replicate (A:=A) a) l).
  fold (mbind (M:=list) (replicate (A:=A) (a * b)) l).
  rewrite IH. f_equal. clear IH.
  induction a as [|a IHa]; [done|].
  cbn [replicate mbind list_bind Nat.mul].
  fold (mbind (M:=list) (replicate (A:=A) b) (replicate a x)).
  by rewrite IHa, replicate_add.
Qed.

(** X17: [repeatAll(amount)] throws when [amount < 1]; otherwise the array
    gets [amount] times as long, its element at index [k] being the former
    element at [k / amount]; repeating by [a] and then by [b] is repeating
    by [a * b]. *)
Theorem repeatAll_blocks this (amount : Z) :
  (amount < 1 →
   Arr.repeatAll this amount = Arr.Throws "Amount should be at least 1")
  ∧ (1 ≤ amount →
     ∃ l, Arr.repeatAll this amount = Arr.Returns l
          ∧ Z.of_nat (length l) = amount * Z.of_nat (length this)
          ∧ (∀ k : nat, l !! k = this !! Z.to_nat (Z.of_nat k / amount))
          ∧ ∀ b, 1 ≤ b → Arr.repeatAll l b = Arr.repeatAll this (amount * b)).
Proof.
  unfold Arr.repeatAll. split.
  - intros H. destruct (Z.ltb_spec amount 1); [done|lia].
  - intros H. destruct (Z.ltb_spec amount 1) as [?|_]; [lia|].
    eexists. split; [reflexivity|]. split; [|split].
    + rewrite bind_replicate_length. lia.
    + intros k. rewrite bind_replicate_lookup by lia. f_equal.
      rewrite <- (Z2Nat.id amount) at 2 by lia.
      rewrite <- Nat2Z.inj_div. by rewrite Nat2Z.id.
    + intros b Hb. destruct (Z.ltb_spec b 1) as [?|_]; [lia|].
      destruct (Z.ltb_spec (amount * b) 1) as [?|_]; [nia|].
      f_equal. rewrite bind_replicate_compose. f_equal.
      rewrite Z2Nat.inj_mul by lia. reflexivity.
Qed.

Lemma imap_blocks_length (n : nat) (even_first : bool) this :
  length (List.concat
            (imap (fun i x => if xorb even_first (Nat.even i)
                              then [x] else replicate n x) this))
  = if even_first
    then (length this / 2 + n * ((length this + 1) / 2))%nat
    else ((length this + 1) / 2 + n * (length this / 2))%nat.
Proof.
  revert even_first. induction this as [|x l IH]; intros b.
  - destruct b; cbn; lia.
  - cbn [imap List.concat]. rewrite length_app.
    rewrite (imap_ext _ (fun i x => if xorb (negb b) (Nat.even i)
                                    then [x] else replicate n x)).
    2:{ intros i y _. cbn [compose]. rewrite Nat.even_succ, <- Nat.negb_even.
        by destruct b, (Nat.even i). }
    rewrite IH. cbn [Nat.even length].
    assert (∀ m, ((S m + 1) / 2 = m / 2 + 1)%nat) as H1.
    { intros m. replace (S m + 1)%nat with (m + 1 * 2)%nat by lia.
      by rewrite Nat.div_add. }
    assert (∀ m, (S m / 2 = (m + 1) / 2)%nat) as H2.
    { intros m. by rewrite Nat.add_1_r. }
    destruct b; cbn [xorb negb]; rewrite ?length_replicate, ?H1, ?H2; cbn [length]; lia.
Qed.

Lemma imap_blocks_elem (n : nat) (even_first : bool) this (y : A) :
  (0 < n)%nat →
  y ∈ List.concat
        (imap (fun i x => if xorb even_first (Nat.even i)
                          then [x] else replicate n x) this)
  ↔ y ∈ this.
Proof.
  intros Hn. revert even_first. induction this as [|x l IH]; intros b; [done|].
  cbn [imap List.concat]. rewrite elem_of_app, elem_of_cons.
  rewrite (imap_ext _ (fun i x => if xorb (negb b) (Nat.even i)
                                  then [x] else replicate n x)).
  2:{ intros i z _. cbn [compose]. rewrite Nat.even_succ, <- Nat.negb_even.
      by destruct b, (Nat.even i). }
  rewrite IH. 
  assert (y ∈ (if xorb b (Nat.even 0) then [x] else replicate n x) ↔ y = x) as ->.
  { destruct (xorb b (Nat.even 0)).
    - apply list_elem_of_singleton.
    - rewrite elem_of_replicate. split; [by intros []|]. intros ->. split; [done|lia]. }
  done.
Qed.

Lemma imap_blocks_1 (even_first : bool) this :
  List.concat (imap (fun i x => if xorb even_first (Nat.even i)
                                then [x] else replicate 1 x) this) = this.
Proof.
  revert even_first. induction this as [|x l IH]; intros b; [done|].
  cbn [imap List.concat].
  rewrite (imap_ext _ (fun i x => if xorb (negb b) (Nat.even i)
                                  then [x] else replicate 1 x)).
  2:{ intros i z _. cbn [compose]. rewrite Nat.even_succ, <- Nat.negb_even.
      by destruct b, (Nat.even i). }
  rewrite IH. by destruct (xorb b (Nat.even 0)).
Qed.

Lemma repeatPair_blocks this (amount : Z) :
  1 ≤ amount →
  Arr.repeatPair this amount
  = Arr.Returns
      (List.concat (imap (fun i x => if xorb true (Nat.even i)
                                     then [x] else replicate (Z.to_nat amount) x)
                      this)).
Proof.
  intros H. unfold Arr.repeatPair. destruct (Z.ltb_spec amount 1) as [?|_]; [lia|].
  f_equal. f_equal. apply imap_ext. intros i x _. by destruct (Nat.even i).
Qed.

Lemma repeatOdd_blocks this (amount : Z) :
  1 ≤ amount →
  Arr.repeatOdd this amount
  = Arr.Returns
      (List.concat (imap (fun i x => if xorb false (Nat.even i)
                                     then [x] else replicate (Z.to_nat amount) x)
                      this)).
Proof.
  intros H. unfold Arr.repeatOdd. destruct (Z.ltb_spec amount 1) as [?|_]; [lia|].
  f_equal. f_equal. apply imap_ext. intros i x _. by destruct (Nat.even i).
Qed.

(** X18: [repeatPair] and [repeatOdd] throw when [amount < 1]; otherwise
    [repeatPair] repeats the elements at even indexes (0, 2, ...) [amount]
    times and keeps the others once, [repeatOdd] does the opposite: the
    lengths are as stated, the elements are the same as before, and with
    [amount = 1] the array is unchanged. *)
Theorem repeatPair_repeatOdd this (amount : Z) :
  (amount < 1 →
   Arr.repeatPair this amount = Arr.Throws "Amount should be at least 1"
   ∧ Arr.repeatOdd this amount = Arr.Throws "Amount should be at least 1")
  ∧ (1 ≤ amount →
     ∃ lp lo,
       Arr.repeatPair this amount = Arr.Returns lp
       ∧ Arr.repeatOdd this amount = Arr.Returns lo
       ∧ Z.of_nat (length lp)
         = amount * ((Z.of_nat (length this) + 1) / 2)
           + Z.of_nat (length this) / 2
       ∧ Z.of_nat (length lo)
         = (Z.of_nat (length this) + 1) / 2
           + amount * (Z.of_nat (length this) / 2)
       ∧ (∀ x, x ∈ lp ↔ x ∈ this) ∧ (∀ x, x ∈ lo ↔ x ∈ this)
       ∧ (amount = 1 → lp = this ∧ lo = this)).
Proof.
  split.
  - intros H. unfold Arr.repeatPair, Arr.repeatOdd.
    destruct (Z.ltb_spec amount 1); [done|lia].
  - intros H. rewrite repeatPair_blocks, repeatOdd_blocks by done.
    eexists _, _. split; [reflexivity|]. split; [reflexivity|].
    assert (0 < Z.to_nat amount)%nat as Hn by lia.
    assert (∀ m : nat, Z.of_nat (m / 2) = Z.of_nat m / 2) as Hd.
    { intros m. by rewrite Nat2Z.inj_div. }
    split; [|split; [|split; [|split]]].
    + rewrite imap_blocks_length, Nat2Z.inj_add, Nat2Z.inj_mul, !Hd.
      rewrite Nat2Z.inj_add. lia.
    + rewrite imap_blocks_length, Nat2Z.inj_add, Nat2Z.inj_mul, !Hd.
      rewrite Nat2Z.inj_add. lia.
    + intros x. by apply imap_blocks_elem.
    + intros x. by apply imap_blocks_elem.
    + intros ->. change (Z.to_nat 1) with 1%nat. by rewrite !imap_blocks_1.
Qed.

End RepeatFacts.

(** ** [shuffle] and [degrade] *)

Section RandomArrayFacts.
Context {A : Type}.
Implicit Types this : list A.

Lemma swap_Permutation this (i j : nat) : Arr.swap this i j ≡ₚ this.
Proof.
  unfold Arr.swap.
  destruct (this !! j) as [a|] eqn:Ha; [|done].
  destruct (this !! i) as [b|] eqn:Hb; [|done].
  by apply Permutation_insert_swap.
Qed.

Lemma swap_length this (i j : nat) : length (Arr.swap this i j) = length this.
Proof. apply Permutation_length, swap_Permutation. Qed.

Lemma swap_lookup_other this (i j m : nat) :
  m ≠ i → m ≠ j → Arr.swap this i j !! m = this !! m.
Proof.
  intros Hi Hj. unfold Arr.swap.
  destruct (this !! j) as [a|]; [|done]. destruct (this !! i) as [b|]; [|done].
  by rewrite !list_lookup_insert_ne.
Qed.

Lemma swap_lookup_first this (i j : nat) :
  (i < length this)%nat → (j < length this)%nat →
  Arr.swap this i j !! i = this !! j.
Proof.
  intros Hi Hj. unfold Arr.swap.
  destruct (lookup_lt_is_Some_2 this j Hj) as [a Ha].
  destruct (lookup_lt_is_Some_2 this i Hi) as [b Hb].
  rewrite Ha, Hb. destruct (decide (i = j)) as [->|Hne].
  - rewrite list_lookup_insert_eq by (by rewrite length_insert). congruence.
  - rewrite list_lookup_insert_ne by done.
    by rewrite list_lookup_insert_eq.
Qed.

Lemma random_index_bound (r : Q) (n : nat) :
  (0 <= r)%Q → (r < 1)%Q → (0 < n)%nat →
  (Z.to_nat (Qfloor (r * inject_Z (Z.of_nat n))) < n)%nat.
Proof.
  intros H0 H1 Hn.
  assert (Qfloor (r * inject_Z (Z.of_nat n)) < Z.of_nat n); [|lia].
  apply Z.lt_nge. intros Hge.
  assert (inject_Z (Z.of_nat n) <= r * inject_Z (Z.of_nat n))%Q as Hle.
  { eapply Qle_trans; [|apply Qfloor_le]. by rewrite <- Zle_Qle. }
  assert (r * inject_Z (Z.of_nat n) < 1 * inject_Z (Z.of_nat n))%Q as Hlt.
  { apply Qmult_lt_compat_r; [|done].
    change 0%Q with (inject_Z 0). rewrite <- Zlt_Qlt. lia. }
  rewrite Qmult_1_l in Hlt.
  apply (Qlt_irrefl (inject_Z (Z.of_nat n))). eapply Qle_lt_trans; eauto.
Qed.

Lemma shuffle_loop_Permutation random (n : nat) :
  ∀ k this, Arr.shuffle_loop random k n this ≡ₚ this.
Proof.
  induction n as [|n IH]; intros k this; [done|].
  cbn [Arr.shuffle_loop]. rewrite IH. apply swap_Permutation.
Qed.

(** The loop leaves the slots from [currentIndex] on as they are. *)
Lemma shuffle_loop_lookup_ge random (n : nat) :
  (∀ k, (0 <= random k)%Q ∧ (random k < 1)%Q) →
  ∀ k this (m : nat), (n ≤ m)%nat →
    Arr.shuffle_loop random k n this !! m = this !! m.
Proof.
  intros Hr. induction n as [|n IH]; intros k this m Hm; [done|].
  cbn [Arr.shuffle_loop]. rewrite IH by lia.
  pose proof (random_index_bound (random k) (S n)
                (proj1 (Hr k)) (proj2 (Hr k)) ltac:(lia)).
  apply swap_lookup_other; lia.
Qed.

(** X19: for random numbers of [0, 1), [shuffle()] leaves a permutation of
    the array; the first number drawn decides which element ends in the
    last slot: the one at the index [j] that the program computes as
    [Math.floor(Math.random() * length)], whatever the product rounds to. *)
Theorem shuffle_permutes (random : nat → Q) this :
  (∀ k, (0 <= random k)%Q ∧ (random k < 1)%Q) →
  Arr.shuffle random this ≡ₚ this
  ∧ length (Arr.shuffle random this) = length this
  ∧ (this ≠ [] →
     ∀ j, JS.floor (JS.mul (JS.Num (random 0%nat))
                      (JS.of_Z (Z.of_nat (length this)))) = JS.of_Z j →
          Arr.shuffle random this !! (length this - 1)%nat
          = this !! Z.to_nat j).
Proof.
  intros Hr. unfold Arr.shuffle.
  split; [apply shuffle_loop_Permutation|].
  split; [apply Permutation_length, shuffle_loop_Permutation|].
  intros Hne j Hj.
  change (JS.floor _)
    with (JS.of_Z (Qfloor (random 0%nat * inject_Z (Z.of_nat (length this)))))
    in Hj.
  apply of_Z_inj in Hj. subst j.
  destruct (length this) as [|n] eqn:Hn.
  { by destruct this. }
  cbn [Arr.shuffle_loop]. rewrite shuffle_loop_lookup_ge by (done || lia).
  replace (S n - 1)%nat with n by lia.
  pose proof (random_index_bound (random 0%nat) (S n)
                (proj1 (Hr 0%nat)) (proj2 (Hr 0%nat)) ltac:(lia)).
  apply swap_lookup_first; lia.
Qed.

Lemma degrade_loop_spec (random : nat → Q) (amount : Q) (fuel : nat) :
  ∀ k i this,
    (length this - i < fuel)%nat →
    ∃ l, Arr.degrade_loop fuel random k amount i this = Some l
         ∧ l `sublist_of` this
         ∧ (this ≠ [] → l ≠ [])
         ∧ ((∀ k, (amount <= random k * 100)%Q) → l = this).
Proof.
  induction fuel as [|fuel IH]; intros k i this Hf; [lia|].
  cbn [Arr.degrade_loop].
  destruct (Nat.ltb_spec i (length this)) as [Hi|Hi].
  - destruct (Qle_bool amount (random k * 100)) eqn:Hle; cbn [negb].
    + destruct (IH (S k) (S i) this ltac:(lia)) as (l & -> & Hs & Hn & He).
      by exists l.
    + destruct (Nat.ltb_spec 1 (length this)) as [H1|H1].
      * destruct (IH (S k) i (delete i this)) as (l & -> & Hs & Hn & He).
        { rewrite length_delete by (by apply lookup_lt_is_Some_2). lia. }
        exists l. split; [done|]. split; [|split].
        -- etrans; [exact Hs|]. apply sublist_delete.
        -- intros _. apply Hn. intros E.
           assert (length (delete i this) = 0%nat) as El by (by rewrite E).
           rewrite length_delete in El by (by apply lookup_lt_is_Some_2). lia.
        -- intros Ha. specialize (Ha k). apply Qle_bool_iff in Ha. congruence.
      * exists this. done.
  - exists this. done.
Qed.

Lemma degrade_loop_all (random : nat → Q) (fuel : nat) :
  (∀ k, (random k < 1)%Q) →
  ∀ k this x,
    (length this < fuel)%nat →
    Arr.degrade_loop fuel random k 100 0 (this ++ [x]) = Some [x].
Proof.
  intros Hr. induction fuel as [|fuel IH]; intros k this x Hf; [lia|].
  cbn [Arr.degrade_loop]. rewrite length_app. cbn [length].
  destruct (Nat.ltb_spec 0 (length this + 1)) as [_|?]; [|lia].
  assert (Qle_bool 100 (random k * 100) = false) as ->.
  { apply not_true_is_false. intros H%Qle_bool_iff.
    assert (random k * 100 < 1 * 100)%Q as Hlt.
    { apply Qmult_lt_compat_r; [done|apply Hr]. }
    apply (Qlt_irrefl 100). eapply Qle_lt_trans; [exact H|exact Hlt]. }
  cbn [negb]. destruct this as [|y l].
  - reflexivity.
  - cbn [length app]. destruct (Nat.ltb_spec 1 (S (length l) + 1)) as [_|?]; [|lia].
    cbn [delete list_delete]. apply IH. cbn [length] in Hf. lia.
Qed.

(** X20: [degrade(amount)] throws when [amount] is outside [0, 100];
    otherwise, whatever the random numbers, its loop ends and leaves a
    sublist of the array, which is not empty unless the array was; with
    [amount = 0] and random numbers that are not negative the array is
    unchanged; with [amount = 100] and random numbers below 1 only the last
    element is left. *)
Theorem degrade_keeps_one (random : nat → Q) this (amount : Q) :
  ((amount < 0)%Q ∨ (100 < amount)%Q →
   Arr.degrade random this amount
   = Some (Arr.Throws "Amount should be between 0 and 100"))
  ∧ ((0 <= amount)%Q → (amount <= 100)%Q →
     ∃ l, Arr.degrade random this amount = Some (Arr.Returns l)
          ∧ l `sublist_of` this
          ∧ (this ≠ [] → l ≠ [])
          ∧ ((amount == 0)%Q → (∀ k, (0 <= random k)%Q) → l = this))
  ∧ ((∀ k, (random k < 1)%Q) →
     ∀ x, Arr.degrade random (this ++ [x]) 100 = Some (Arr.Returns [x])).
Proof.
  unfold Arr.degrade. split; [|split].
  - intros H.
    assert (negb (Qle_bool 0 amount) || negb (Qle_bool amount 100) = true) as ->;
      [|done].
    apply orb_true_iff. destruct H as [H|H]; [left|right];
      apply negb_true_iff, not_true_is_false; intros Hle%Qle_bool_iff;
      apply (Qlt_irrefl amount); eauto using Qlt_le_trans, Qle_lt_trans.
  - intros H0 H100.
    assert (negb (Qle_bool 0 amount) || negb (Qle_bool amount 100) = false) as ->.
    { apply orb_false_iff. split; apply negb_false_iff, Qle_bool_iff; done. }
    destruct (Nat.leb_spec (length this) 1) as [Hl|Hl].
    + exists this. done.
    + destruct (degrade_loop_spec random amount (S (length this)) 0%nat 0%nat this
                  ltac:(lia)) as (l & -> & Hs & Hn & He).
      exists l. split; [done|]. split; [done|]. split; [done|].
      intros Ha Hr. apply He. intros k. rewrite Ha.
      apply Qmult_le_0_compat; [apply Hr|done].
  - intros Hr x. cbn [Qle_bool Qnum Qden Z.leb Z.mul Z.compare negb orb].
    rewrite length_app. cbn [length].
    destruct (Nat.leb_spec (length this + 1) 1) as [Hl|Hl].
    + destruct this; [done|cbn in Hl; lia].
    + cbn [fmap option_fmap option_map].
      rewrite (degrade_loop_all random _ Hr) by lia. done.
Qed.

End RandomArrayFacts.

(** ** [quantize], [clamp] and [limit] *)

Section QuantizeFacts.

Lemma lt_Num (a b : Q) : JS.lt (JS.Num a) (JS.Num b) = true ↔ (a < b)%Q.
Proof.
  cbn [JS.lt]. rewrite negb_true_iff. split.
  - intros H. apply Qnot_le_lt. intros Hle%Qle_bool_iff. congruence.
  - intros H. apply not_true_is_false. intros Hle%Qle_bool_iff.
    apply (Qlt_irrefl a). eauto using Qlt_le_trans.
Qed.

Lemma lt_Num_false (a b : Q) : JS.lt (JS.Num a) (JS.Num b) = false ↔ (b <= a)%Q.
Proof.
  cbn [JS.lt]. rewrite negb_false_iff. apply Qle_bool_iff.
Qed.

(** The loop of [quantize], once [closest] is the first of the nearest
    values among those already seen ([seen]). *)
Lemma quantize_loop (v : Q) (rest : list Q) :
  ∀ (seen : list Q) (c : Q) (i : nat),
    seen !! i = Some c →
    (∀ q, q ∈ seen → (Qabs (c - v) <= Qabs (q - v))%Q) →
    (∀ j q, (j < i)%nat → seen !! j = Some q → (Qabs (c - v) < Qabs (q - v))%Q) →
    ∃ r i',
      fold_left
        (fun closest q =>
           if JS.lt (JS.abs (JS.sub q (JS.Num v)))
                (JS.abs (JS.sub closest (JS.Num v)))
           then q else closest)
        (JS.Num <$> rest) (JS.Num c) = JS.Num r
      ∧ (seen ++ rest) !! i' = Some r
      ∧ (∀ q, q ∈ seen ++ rest → (Qabs (r - v) <= Qabs (q - v))%Q)
      ∧ (∀ j q, (j < i')%nat → (seen ++ rest) !! j = Some q →
                (Qabs (r - v) < Qabs (q - v))%Q).
Proof.
  induction rest as [|x rest IH]; intros seen c i Hc Hmin Hfirst.
  - exists c, i. rewrite app_nil_r. done.
  - cbn [fmap list_fmap fold_left].
    change (JS.abs (JS.sub (JS.Num x) (JS.Num v))) with (JS.Num (Qabs (x - v))).
    change (JS.abs (JS.sub (JS.Num c) (JS.Num v))) with (JS.Num (Qabs (c - v))).
    destruct (JS.lt (JS.Num (Qabs (x - v))) (JS.Num (Qabs (c - v)))) eqn:Hlt.
    + apply lt_Num in Hlt.
      destruct (IH (seen ++ [x]) x (length seen)) as (r & i' & Hf & Hl & Hm & Hfi).
      * by rewrite lookup_app_r, Nat.sub_diag by lia.
      * intros q [Hq| ->%list_elem_of_singleton]%elem_of_app; [|apply Qle_refl].
        apply Qlt_le_weak. eapply Qlt_le_trans; [exact Hlt|]. by apply Hmin.
      * intros j q Hj Hq. rewrite lookup_app_l in Hq by done.
        eapply Qlt_le_trans; [exact Hlt|]. apply Hmin.
        by eapply list_elem_of_lookup_2.
      * exists r, i'. rewrite <- app_assoc in Hl, Hm, Hfi. done.
    + apply lt_Num_false in Hlt.
      destruct (IH (seen ++ [x]) c i) as (r & i' & Hf & Hl & Hm & Hfi).
      * rewrite lookup_app_l; [done|]. by eapply lookup_lt_Some.
      * intros q [Hq| ->%list_elem_of_singleton]%elem_of_app; [by apply Hmin|done].
      * intros j q Hj Hq. apply (Hfirst j q Hj).
        rewrite lookup_app_l in Hq; [done|].
        apply lookup_lt_Some in Hc. lia.
      * exists r, i'. rewrite <- app_assoc in Hl, Hm, Hfi. done.
Qed.

(** X21: [quantize(value, quantization)] returns [value] when the array is
    empty; otherwise it returns an element of the array whose distance to
    [value], as the program computes it by [Math.abs(q - value)], is the
    least, and the first of them when several are at that distance.  When
    the differences [q - value] are doubles, the computed distances are the
    exact ones, and the result is the first of the nearest elements. *)
Theorem quantize_nearest (v : Q) (qs : list Q) :
  API.quantize (JS.Num v) [] = JS.Num v
  ∧ (qs ≠ [] →
     ∃ r i,
       API.quantize (JS.Num v) (JS.Num <$> qs) = JS.Num r
       ∧ qs !! i = Some r
       ∧ (∀ q, q ∈ qs →
            JS.lt (JS.abs (JS.sub (JS.Num q) (JS.Num v)))
              (JS.abs (JS.sub (JS.Num r) (JS.Num v))) = false)
       ∧ (∀ j q, (j < i)%nat → qs !! j = Some q →
            JS.lt (JS.abs (JS.sub (JS.Num r) (JS.Num v)))
              (JS.abs (JS.sub (JS.Num q) (JS.Num v))) = true)
       ∧ ((∀ q, q ∈ qs → JS.is_double (q - v) = true) →
          (∀ q, q ∈ qs → (Qabs (r - v) <= Qabs (q - v))%Q)
          ∧ (∀ j q, (j < i)%nat → qs !! j = Some q →
                    (Qabs (r - v) < Qabs (q - v))%Q))).
Proof.
  split; [reflexivity|]. intros Hne. destruct qs as [|q0 rest]; [done|].
  unfold API.quantize. cbn [fmap list_fmap fold_left].
  change (JS.abs (JS.sub (JS.Num q0) (JS.Num v))) with (JS.Num (Qabs (q0 - v))).
  assert (JS.lt (JS.Num (Qabs (q0 - v))) (JS.Num (Qabs (q0 - v))) = false) as ->.
  { apply lt_Num_false, Qle_refl. }
  destruct (quantize_loop v rest [q0] q0 0%nat) as (r & i & Hf & Hl & Hm & Hfi).
  - done.
  - intros q ->%list_elem_of_singleton. apply Qle_refl.
  - intros j q Hj. lia.
  - exists r, i. split; [exact Hf|]. split; [exact Hl|].
    split; [|split; [|done]].
    + intros q Hq.
      change (JS.lt (JS.Num (Qabs (q - v))) (JS.Num (Qabs (r - v))) = false).
      apply lt_Num_false. by apply Hm.
    + intros j q Hj Hq.
      change (JS.lt (JS.Num (Qabs (r - v))) (JS.Num (Qabs (q - v))) = true).
      apply lt_Num. by apply (Hfi j).
Qed.

Lemma max2_Num (a b : Q) :
  JS.max2 (JS.Num a) (JS.Num b) = JS.Num (if Qle_bool b a then a else b).
Proof. cbn [JS.max2 JS.lt]. by destruct (Qle_bool b a). Qed.

Lemma min2_Num (a b : Q) :
  JS.min2 (JS.Num a) (JS.Num b) = JS.Num (if Qle_bool a b then a else b).
Proof. cbn [JS.min2 JS.lt]. by destruct (Qle_bool a b). Qed.

(** X22: [clamp(value, min, max)], and [limit], which is the same function,
    return a number between [min] and [max] when [min ≤ max], and [value]
    itself when it is already between them; when [max < min] they return
    [max]; a [NaN] argument gives [NaN]. *)
Theorem clamp_range (v lo hi : Q) :
  ∃ r, API.clamp (JS.Num v) (JS.Num lo) (JS.Num hi) = JS.Num r
       ∧ API.limit' (JS.Num v) (JS.Num lo) (JS.Num hi) = JS.Num r
       ∧ ((lo <= hi)%Q → (lo <= r)%Q ∧ (r <= hi)%Q)
       ∧ ((lo <= v)%Q → (v <= hi)%Q → r = v)
       ∧ ((hi < lo)%Q → r = hi)
       ∧ API.clamp JS.NaN (JS.Num lo) (JS.Num hi) = JS.NaN
       ∧ API.clamp (JS.Num v) JS.NaN (JS.Num hi) = JS.NaN
       ∧ API.clamp (JS.Num v) (JS.Num lo) JS.NaN = JS.NaN.
Proof.
  unfold API.clamp, API.limit'. rewrite max2_Num, min2_Num.
  eexists. split; [reflexivity|]. split; [reflexivity|].
  destruct (Qle_bool lo v) eqn:H1;
    [apply Qle_bool_iff in H1|
     assert (v < lo)%Q as H1' by
       (apply Qnot_le_lt; intros H%Qle_bool_iff; congruence)].
  - destruct (Qle_bool v hi) eqn:H2;
      [apply Qle_bool_iff in H2|
       assert (hi < v)%Q as H2' by
         (apply Qnot_le_lt; intros H%Qle_bool_iff; congruence)];
      repeat split; intros; try done; lra.
  - destruct (Qle_bool lo hi) eqn:H2;
      [apply Qle_bool_iff in H2|
       assert (hi < lo)%Q as H2' by
         (apply Qnot_le_lt; intros H%Qle_bool_iff; congruence)];
      repeat split; intros; try done; lra.
Qed.

End QuantizeFacts.

(** ** [min], [max], [mean], [line] and the random numbers *)

Section MathFacts.

Lemma fold_min2_Num (l : list Q) :
  ∀ c : Q, ∃ r,
    fold_left JS.min2 (JS.Num <$> l) (JS.Num c) = JS.Num r
    ∧ r ∈ c :: l ∧ ∀ q, q ∈ c :: l → (r <= q)%Q.
Proof.
  induction l as [|x l IH]; intros c.
  - exists c. split; [done|]. split; [by apply list_elem_of_singleton|].
    intros q ->%list_elem_of_singleton. lra.
  - cbn [fmap list_fmap fold_left]. rewrite min2_Num.
    destruct (IH (if Qle_bool c x then c else x)) as (r & -> & Hin & Hle).
    exists r. split; [done|].
    destruct (Qle_bool c x) eqn:E;
      [apply Qle_bool_iff in E|
       assert (x < c)%Q by (apply Qnot_le_lt; intros H%Qle_bool_iff; congruence)].
    + split.
      * apply elem_of_cons in Hin as [->|Hin]; [by left|by do 2 right].
      * intros q [->|[->|Hq]%elem_of_cons]%elem_of_cons.
        -- apply Hle. by left.
        -- pose proof (Hle c ltac:(by left)). lra.
        -- apply Hle. by right.
    + split.
      * by right.
      * intros q [->|Hq]%elem_of_cons; [|by apply Hle].
        pose proof (Hle x ltac:(by left)). lra.
Qed.

Lemma fold_max2_Num (l : list Q) :
  ∀ c : Q, ∃ r,
    fold_left JS.max2 (JS.Num <$> l) (JS.Num c) = JS.Num r
    ∧ r ∈ c :: l ∧ ∀ q, q ∈ c :: l → (q <= r)%Q.
Proof.
  induction l as [|x l IH]; intros c.
  - exists c. split; [done|]. split; [by apply list_elem_of_singleton|].
    intros q ->%list_elem_of_singleton. lra.
  - cbn [fmap list_fmap fold_left]. rewrite max2_Num.
    destruct (IH (if Qle_bool x c then c else x)) as (r & -> & Hin & Hle).
    exists r. split; [done|].
    destruct (Qle_bool x c) eqn:E;
      [apply Qle_bool_iff in E|
       assert (c < x)%Q by (apply Qnot_le_lt; intros H%Qle_bool_iff; congruence)].
    + split.
      * apply elem_of_cons in Hin as [->|Hin]; [by left|by do 2 right].
      * intros q [->|[->|Hq]%elem_of_cons]%elem_of_cons.
        -- apply Hle. by left.
        -- pose proof (Hle c ltac:(by left)). lra.
        -- apply Hle. by right.
    + split.
      * by right.
      * intros q [->|Hq]%elem_of_cons; [|by apply Hle].
        pose proof (Hle x ltac:(by left)). lra.
Qed.

Lemma fold_add_Num (l : list Q) :
  ∀ c : Q, ∃ s,
    fold_left (fun accumulator currentValue => JS.add accumulator currentValue)
      (JS.Num <$> l) (JS.Num c) = JS.Num s
    ∧ (s == c + fold_right Qplus 0 l)%Q.
Proof.
  induction l as [|x l IH]; intros c.
  - exists c. split; [done|]. cbn. ring.
  - cbn [fmap list_fmap fold_left fold_right JS.add].
    destruct (IH (c + x)%Q) as (s & -> & Hs). exists s. split; [done|].
    rewrite Hs. ring.
Qed.

Lemma sum_bounds (l : list Q) (lo hi : Q) :
  (∀ q, q ∈ l → (lo <= q)%Q ∧ (q <= hi)%Q) →
  (inject_Z (Z.of_nat (length l)) * lo <= fold_right Qplus 0 l)%Q
  ∧ (fold_right Qplus 0 l <= inject_Z (Z.of_nat (length l)) * hi)%Q.
Proof.
  induction l as [|x l IH]; intros H.
  - change (inject_Z (Z.of_nat (length (@nil Q)))) with 0%Q.
    cbn [fold_right]. lra.
  - destruct IH as [IH1 IH2]; [intros q Hq; apply H; by right|].
    destruct (H x ltac:(by left)) as [Hx1 Hx2].
    cbn [length fold_right]. rewrite Nat2Z.inj_succ, <- Z.add_1_r, inject_Z_plus.
    change (inject_Z 1) with 1%Q.
    remember (fold_right Qplus 0%Q l) as F eqn:HF. clear HF.
    remember (inject_Z (Z.of_nat (length l))) as N eqn:HN. clear HN.
    lra.
Qed.

(** X23: without argument [min()] is [+Infinity], [max()] is [-Infinity] and
    [mean()] is [NaN]; on a non-empty list of numbers [min] and [max] are
    elements of the list that bound all the others.  When the sums that
    [mean] accumulates from the left and its final quotient are doubles, so
    that no addition rounds, [mean] is the sum divided by the count, and it
    lies between [min] and [max]. *)
Theorem min_mean_max (qs : list Q) :
  API.min [] = JS.Inf false ∧ API.max [] = JS.Inf true ∧ API.mean [] = JS.NaN
  ∧ (qs ≠ [] →
     ∃ lo hi,
       API.min (JS.Num <$> qs) = JS.Num lo
       ∧ API.max (JS.Num <$> qs) = JS.Num hi
       ∧ lo ∈ qs ∧ hi ∈ qs
       ∧ (∀ q, q ∈ qs → (lo <= q)%Q ∧ (q <= hi)%Q)
       ∧ ((∀ k : nat, JS.is_double (fold_right Qplus 0%Q (take k qs)) = true) →
          JS.is_double (fold_right Qplus 0%Q qs
                        / inject_Z (Z.of_nat (length qs))) = true →
          ∃ m, API.mean (JS.Num <$> qs) = JS.Num m
               ∧ (m * inject_Z (Z.of_nat (length qs))
                  == fold_right Qplus 0 qs)%Q
               ∧ (lo <= m)%Q ∧ (m <= hi)%Q)).
Proof.
  split; [reflexivity|]. split; [reflexivity|]. split; [reflexivity|].
  intros Hne. destruct qs as [|x l]; [done|].
  destruct (fold_min2_Num l x) as (lo & Hlo & Hlo_in & Hlo_le).
  destruct (fold_max2_Num l x) as (hi & Hhi & Hhi_in & Hhi_le).
  destruct (fold_add_Num (x :: l) 0) as (s & Hs & Hsum).
  set (n := inject_Z (Z.of_nat (length (x :: l)))).
  assert (0 < n)%Q as Hn.
  { unfold n. change 0%Q with (inject_Z 0). rewrite <- Zlt_Qlt. cbn [length]. lia. }
  exists lo, hi.
  split; [exact Hlo|]. split; [exact Hhi|]. split; [done|]. split; [done|].
  split; [intros q Hq; split; [by apply Hlo_le|by apply Hhi_le]|].
  intros _ _. exists (s / n)%Q.
  split.
  { unfold API.mean. change (JS.of_Z 0) with (JS.Num 0%Q).
    rewrite Hs, length_fmap. unfold JS.of_Z, JS.div. fold n.
    destruct (Qeq_bool n 0) eqn:E; [|done].
    apply Qeq_bool_iff in E. lra. }
  assert (s == fold_right Qplus 0 (x :: l))%Q as Hs' by (rewrite Hsum; ring).
  split.
  { rewrite <- Hs'. field. clearbody n. lra. }
  destruct (sum_bounds (x :: l) lo hi) as [B1 B2].
  { intros q Hq. split; [by apply Hlo_le|by apply Hhi_le]. }
  fold n in B1, B2. rewrite <- Hs' in B1, B2.
  clearbody n. split.
  - apply Qle_shift_div_l; [done|]. lra.
  - apply Qle_shift_div_r; [done|]. lra.
Qed.

End MathFacts.

Section LineFacts.

Lemma le_Num (a b : Q) : JS.le (JS.Num a) (JS.Num b) = true ↔ (a <= b)%Q.
Proof. cbn [JS.le JS.ge]. apply Qle_bool_iff. Qed.

Lemma le_Num_false (a b : Q) : JS.le (JS.Num a) (JS.Num b) = false ↔ (b < a)%Q.
Proof.
  cbn [JS.le JS.ge]. split.
  - intros H. apply Qnot_le_lt. intros Hle%Qle_bool_iff. congruence.
  - intros H. apply not_true_is_false. intros Hle%Qle_bool_iff. lra.
Qed.

(** The loop of [line] from [v], when [m] more values fit below [end_]. *)
Lemma line_loop_values (end_ step : Q) (m : nat) :
  (0 < step)%Q →
  ∀ (v : Q) (fuel : nat),
    (end_ < v + inject_Z (Z.of_nat m) * step)%Q →
    (m = 0%nat ∨ (v + (inject_Z (Z.of_nat m) - 1) * step <= end_)%Q) →
    (m < fuel)%nat →
    ∃ l, API.line_loop fuel (JS.Num v) (JS.Num end_) (JS.Num step) = Some l
         ∧ length l = m
         ∧ ∀ k : nat, (k < m)%nat →
             ∃ q, l !! k = Some (JS.Num q)
                  ∧ (q == v + inject_Z (Z.of_nat k) * step)%Q.
Proof.
  intros Hstep. induction m as [|m IH]; intros v fuel Hhi Hlo Hf.
  - destruct fuel as [|fuel]; [lia|]. cbn [API.line_loop].
    assert (JS.le (JS.Num v) (JS.Num end_) = false) as ->.
    { apply le_Num_false. change (inject_Z (Z.of_nat 0)) with 0%Q in Hhi. lra. }
    exists []. split; [done|]. split; [done|]. intros k Hk. lia.
  - destruct fuel as [|fuel]; [lia|]. cbn [API.line_loop].
    destruct Hlo as [?|Hlo]; [lia|].
    rewrite Nat2Z.inj_succ, <- Z.add_1_r, inject_Z_plus in Hhi, Hlo.
    change (inject_Z 1) with 1%Q in Hhi, Hlo.
    assert (0 <= inject_Z (Z.of_nat m))%Q as Hm0.
    { change 0%Q with (inject_Z 0). rewrite <- Zle_Qle. lia. }
    assert (JS.le (JS.Num v) (JS.Num end_) = true) as ->.
    { apply le_Num. remember (inject_Z (Z.of_nat m)) as M. clear HeqM. nra. }
    cbn [JS.add].
    destruct (IH (v + step)%Q fuel) as (l & -> & Hlen & Hl).
    + remember (inject_Z (Z.of_nat m)) as M. clear HeqM. lra.
    + destruct m as [|m']; [by left|right].
      remember (inject_Z (Z.of_nat (S m'))) as M. clear HeqM. lra.
    + lia.
    + exists (JS.Num v :: l). split; [done|]. split; [cbn; lia|].
      intros [|k] Hk.
      * exists v. split; [done|]. change (inject_Z (Z.of_nat 0)) with 0%Q. ring.
      * destruct (Hl k ltac:(lia)) as (q & Hq & Eq).
        exists q. split; [done|]. rewrite Eq.
        rewrite Nat2Z.inj_succ, <- Z.add_1_r, inject_Z_plus.
        change (inject_Z 1) with 1%Q. ring.
Qed.

(** X24: [line(start, end, step)] is empty as soon as [end ≤ start], also
    for a negative step: the loop tests [value <= end], so a descending line
    has no value.  With [start < end] and [step > 0] (1 when absent), and
    when the numbers [start + k * step] up to the first one beyond [end]
    are doubles, so that no addition of the loop rounds, the loop ends and
    gives the [n = floor((end - start) / step) + 1] values
    [start + k * step], [k < n]. *)
Theorem line_values (start end_ : Q) (step : option Q) :
  ((end_ <= start)%Q →
   ∀ (s : option JS.number) (fuel : nat), (0 < fuel)%nat →
     API.line fuel (JS.Num start) (JS.Num end_) s = Some [])
  ∧ ((start < end_)%Q → (0 < default 1%Q step)%Q →
     (∀ k : nat,
        Z.of_nat k ≤ Qfloor ((end_ - start) / default 1%Q step) + 1 →
        JS.is_double (start + inject_Z (Z.of_nat k) * default 1%Q step)
        = true) →
     ∀ fuel : nat,
       (Qfloor ((end_ - start) / default 1%Q step) + 1 < Z.of_nat fuel) →
       ∃ l, API.line fuel (JS.Num start) (JS.Num end_) (JS.Num <$> step) = Some l
            ∧ Z.of_nat (length l) = Qfloor ((end_ - start) / default 1%Q step) + 1
            ∧ ∀ k : nat, (k < length l)%nat →
                ∃ q, l !! k = Some (JS.Num q)
                     ∧ (q == start + inject_Z (Z.of_nat k) * default 1%Q step)%Q
                     ∧ (q <= end_)%Q).
Proof.
  split.
  - intros Hle s fuel Hf. unfold API.line.
    assert (JS.gt (JS.Num end_) (JS.Num start) = false) as ->.
    { unfold JS.gt. by apply lt_Num_false. }
    cbn [andb orb].
    destruct (JS.lt (JS.Num end_) (JS.Num start)
              && JS.lt (default (JS.of_Z 1) s) (JS.of_Z 0)) eqn:E; [|done].
    apply andb_true_iff in E as [E _]. apply lt_Num in E.
    destruct fuel as [|fuel]; [lia|]. cbn [API.line_loop].
    assert (JS.le (JS.Num start) (JS.Num end_) = false) as ->; [|done].
    by apply le_Num_false.
  - intros Hlt Hstep _ fuel Hf. unfold API.line.
    set (st := default 1%Q step) in *.
    assert (default (JS.of_Z 1) (JS.Num <$> step) = JS.Num st) as ->.
    { unfold st. by destruct step. }
    assert (JS.gt (JS.Num end_) (JS.Num start) = true) as ->.
    { unfold JS.gt. by apply lt_Num. }
    assert (JS.gt (JS.Num st) (JS.of_Z 0) = true) as ->.
    { unfold JS.gt, JS.of_Z. apply lt_Num. exact Hstep. }
    cbn [andb orb].
    set (n := Qfloor ((end_ - start) / st)) in *.
    assert (0 ≤ n) as Hn.
    { unfold n. change 0 with (Qfloor (inject_Z 0)). apply Qfloor_resp_le.
      change (inject_Z 0) with 0%Q. apply Qle_shift_div_l; [done|]. lra. }
    pose proof (Qfloor_le ((end_ - start) / st)) as Hfl. fold n in Hfl.
    pose proof (Qlt_floor ((end_ - start) / st)) as Hfu. fold n in Hfu.
    rewrite inject_Z_plus in Hfu. change (inject_Z 1) with 1%Q in Hfu.
    assert ((end_ - start) / st * st == end_ - start)%Q as Hdiv.
    { field. lra. }
    assert (inject_Z n * st <= end_ - start)%Q as B1.
    { rewrite <- Hdiv. apply Qmult_le_compat_r; [done|lra]. }
    assert (end_ - start < (inject_Z n + 1) * st)%Q as B2.
    { rewrite <- Hdiv. apply Qmult_lt_compat_r; done. }
    assert (inject_Z (Z.of_nat (Z.to_nat (n + 1))) == inject_Z n + 1)%Q as Em.
    { rewrite Z2Nat.id by lia. rewrite inject_Z_plus. reflexivity. }
    destruct (line_loop_values end_ st (Z.to_nat (n + 1)) Hstep start fuel)
      as (l & -> & Hlen & Hl).
    + rewrite Em. lra.
    + right. rewrite Em. lra.
    + lia.
    + exists l. split; [done|]. split; [lia|].
      intros k Hk. destruct (Hl k ltac:(lia)) as (q & Hq & Eq).
      exists q. split; [done|]. split; [done|]. rewrite Eq.
      assert (inject_Z (Z.of_nat k) <= inject_Z n)%Q as Hkn.
      { rewrite <- Zle_Qle. lia. }
      remember (inject_Z (Z.of_nat k)) as K. remember (inject_Z n) as N.
      clear HeqK HeqN Em Hfl Hfu. nra.
Qed.

(** X25: for a random number [r] of [0, 1), a double, and for arguments
    small enough that nothing overflows: [randI(min, max)] with safe
    integers [min ≤ max] whose span [max - min + 1] is a safe integer is a
    whole number of [min..max]; [dice(sides)] with a safe integer
    [sides ≥ 1] is a whole number of [1..sides]; and [rand(min, max)] with
    doubles [min ≤ max] that are at most [2^1023] apart lies in
    [min, max]. *)
Theorem random_ranges (r : Q) :
  JS.is_double r = true → (0 <= r)%Q → (r < 1)%Q →
  (∀ lo hi : Z, lo ≤ hi →
     JS.safe_integer lo = true → JS.safe_integer hi = true →
     JS.safe_integer (hi - lo + 1) = true →
     ∃ k, lo ≤ k ≤ hi
          ∧ JS.strict_eq (API.randI (JS.Num r) (JS.of_Z lo) (JS.of_Z hi))
              (JS.of_Z k) = true)
  ∧ (∀ sides : Z, 1 ≤ sides → JS.safe_integer sides = true →
       ∃ k, 1 ≤ k ≤ sides
            ∧ JS.strict_eq (API.dice (JS.Num r) (JS.of_Z sides)) (JS.of_Z k)
              = true)
  ∧ (∀ lo hi : Q, (lo <= hi)%Q →
       JS.is_double lo = true → JS.is_double hi = true →
       (hi - lo <= inject_Z (2 ^ 1023))%Q →
       ∃ q, API.rand (JS.Num r) (JS.Num lo) (JS.Num hi) = JS.Num q
            ∧ (lo <= q)%Q ∧ (q <= hi)%Q).
Proof.
  intros _ H0 H1.
  assert (∀ n : Z, 0 < n → 0 ≤ Qfloor (r * inject_Z n) < n) as Hfloor.
  { intros n Hn.
    assert (0 < inject_Z n)%Q as Hn'.
    { change 0%Q with (inject_Z 0). by rewrite <- Zlt_Qlt. }
    split.
    - change 0 with (Qfloor (inject_Z 0)). apply Qfloor_resp_le.
      change (inject_Z 0) with 0%Q. apply Qmult_le_0_compat; lra.
    - apply Z.lt_nge. intros Hge.
      pose proof (Qfloor_le (r * inject_Z n)) as Hle.
      assert (inject_Z n <= inject_Z (Qfloor (r * inject_Z n)))%Q as Hle'
        by (by rewrite <- Zle_Qle).
      remember (inject_Z n) as N. clear HeqN.
      remember (inject_Z (Qfloor (r * N))) as F. clear HeqF. nra. }
  split; [|split].
  - intros lo hi Hle _ _ _. exists (Qfloor (r * inject_Z (hi - lo + 1)) + lo).
    pose proof (Hfloor (hi - lo + 1) ltac:(lia)).
    split; [lia|].
    unfold API.randI, JS.of_Z, JS.sub, JS.neg, JS.add, JS.mul, JS.floor, JS.of_Z,
      JS.strict_eq.
    apply Qeq_bool_iff.
    assert (inject_Z hi + - inject_Z lo + inject_Z 1 == inject_Z (hi - lo + 1))%Q as E.
    { unfold Qeq, Qplus, Qopp, inject_Z; cbn [Qnum Qden]. lia. }
    rewrite (Qfloor_comp _ (r * inject_Z (hi - lo + 1))) by (by rewrite E).
    generalize (Qfloor (r * inject_Z (hi - lo + 1))). intros F.
    unfold Qeq, Qplus, inject_Z; cbn [Qnum Qden]. lia.
  - intros sides Hs _. exists (Qfloor (r * inject_Z sides) + 1).
    pose proof (Hfloor sides ltac:(lia)).
    split; [lia|].
    unfold API.dice, JS.of_Z, JS.add, JS.mul, JS.floor, JS.of_Z, JS.strict_eq.
    apply Qeq_bool_iff.
    generalize (Qfloor (r * inject_Z sides)). intros F.
    unfold Qeq, Qplus, inject_Z; cbn [Qnum Qden]. lia.
  - intros lo hi Hle _ _ _. eexists. split; [reflexivity|]. split; nra.
Qed.

End LineFacts.

(** ** Variables *)

Section VariableFacts.
Context {V : Type}.
Implicit Types variables : gmap string (option V).

(** X26: for a name that [Object.prototype] does not define, a variable
    set under that name is read back, and reading does not change the
    registry; the other names are not affected; after [delete_variable] or
    [clear_variables] the variable is [undefined].  A safe integer names the
    variable of its decimal writing, but a call with a number and no value
    does not read: it stores [undefined]. *)
Theorem variable_round_trip (name : string) (v : V) variables :
  API.inherited name = false →
  (API.variable (inl name) (Some v) variables).1 = Some v
  ∧ API.variable (inl name) None (API.variable (inl name) (Some v) variables).2
    = (Some v, (API.variable (inl name) (Some v) variables).2)
  ∧ (∀ other, other ≠ name →
       (API.variable (inl other) None
          (API.variable (inl name) (Some v) variables).2).1
       = (API.variable (inl other) None variables).1)
  ∧ (API.variable (inl name) None
       (API.delete_variable name
          (API.variable (inl name) (Some v) variables).2)).1 = None
  ∧ (API.variable (inl name) None
       (API.clear_variables
          (API.variable (inl name) (Some v) variables).2)).1 = None
  ∧ (∀ n : Z,
       JS.safe_integer n = true →
       (API.variable (inl (pretty n)) None
          (API.variable (inr n) (Some v) variables).2).1 = Some v
       ∧ (API.variable (inr n) None
            (API.variable (inr n) (Some v) variables).2).1 = None
       ∧ (API.variable (inl (pretty n)) None
            (API.variable (inr n) None
               (API.variable (inr n) (Some v) variables).2).2).1 = None).
Proof.
  intros _.
  unfold API.variable, API.delete_variable, API.clear_variables,
    API.property_key. cbn [fst snd].
  rewrite !lookup_insert_eq. cbn [mjoin option_join].
  split; [done|]. split; [done|]. split.
  { intros other Hne. by rewrite lookup_insert_ne. }
  split; [by rewrite lookup_delete_eq|]. split; [by rewrite lookup_empty|].
  intros n _. rewrite !lookup_insert_eq. done.
Qed.

End VariableFacts.

(** ** The pattern player *)

Section MorePlayerFacts.

(** X27: a new player that waits.  [wait(value)] stores the wait time
    [Math.ceil(value * 4 * ppqn)], which is the ceiling of the exact product
    when [value * 4] and that product are doubles.  Whatever the wait time
    stored: before it is reached a query answers "not yet" and changes
    nothing; the query that answers "yes" comes no sooner than the wait
    time, and it sets [index] to 0 and [firstCallTime] to the coming
    pulse. *)
Theorem wait_gates_start c c' (value : Q) :
  0 ≤ pulses_since_origin c' →
  (JS.is_double (value * 4) = true →
   JS.is_double (value * 4 * inject_Z (ppqn c)) = true →
   Player.waitTime (Player.wait c (-1) value (Player.new_player true))
   = Qceiling (value * 4 * inject_Z (ppqn c)))
  ∧ (pulses_since_origin c' + 1
     < Player.waitTime (Player.wait c (-1) value (Player.new_player true)) →
     Player.areWeThereYet c'
       (Player.wait c (-1) value (Player.new_player true))
     = (false, Player.wait c (-1) value (Player.new_player true)))
  ∧ ((Player.areWeThereYet c'
        (Player.wait c (-1) value (Player.new_player true))).1 = true →
     Player.waitTime (Player.wait c (-1) value (Player.new_player true))
     ≤ pulses_since_origin c' + 1
     ∧ Player.index
         (Player.areWeThereYet c'
            (Player.wait c (-1) value (Player.new_player true))).2 = 0
     ∧ Player.firstCallTime
         (Player.areWeThereYet c'
            (Player.wait c (-1) value (Player.new_player true))).2
       = pulses_since_origin c' + 1).
Proof.
  intros Hp.
  set (w := Qceiling (value * 4 * inject_Z (ppqn c))).
  change (Player.wait c (-1) value (Player.new_player true))
    with (Player.mkPlayer 0 0 w false None (-1) true).
  split; [reflexivity|].
  unfold Player.areWeThereYet, Player.rewind_check, Player.howAboutNow.
  cbn [Player.lastCallTime].
  destruct (Z.ltb_spec (pulses_since_origin c') 0) as [?|_]; [lia|].
  cbn [Player.lastCallTime Player.firstCallTime Player.waitTime Player.current
       Player.notStarted Player.index Player.played andb orb fst snd].
  rewrite orb_false_r, Z.add_0_l.
  split.
  - intros Hlt. destruct (Z.leb_spec w (pulses_since_origin c' + 1)) as [?|_]; [lia|].
    rewrite andb_false_r. reflexivity.
  - destruct (Z.leb_spec w (pulses_since_origin c' + 1)) as [Hle|_].
    + rewrite andb_true_r.
      destruct ((tp_pulse (time_position c') =? 1)
                || (next_beat_in_ticks c' <=? pulses_since_origin c' + 1));
        cbn; [done|discriminate].
    + rewrite andb_false_r. cbn. discriminate.
Qed.

(** X28: once a query has answered "yes", or has seen the clock behind,
    [index] is not negative, and it stays so through every later query:
    [areWeThereYet] never brings [index] back to -1.  From then on [wait]
    changes nothing. *)
Theorem index_never_back_to_initial c (p : Player.Player) :
  ((Player.areWeThereYet c p).1 = true → -1 ≤ Player.index p →
   0 ≤ Player.index (Player.areWeThereYet c p).2)
  ∧ (pulses_since_origin c < Player.lastCallTime p →
     0 ≤ Player.index (Player.areWeThereYet c p).2)
  ∧ (0 ≤ Player.index p → 0 ≤ Player.index (Player.areWeThereYet c p).2)
  ∧ (0 ≤ Player.index p →
     ∀ c' ziffers_index value, Player.wait c' ziffers_index value p = p).
Proof.
  unfold Player.areWeThereYet, Player.rewind_check.
  destruct (Z.ltb_spec (pulses_since_origin c) (Player.lastCallTime p)) as [Hr|Hr].
  - set (q := Player.mkPlayer _ _ _ _ _ _ _).
    destruct (Player.howAboutNow c q); destruct (Player.notStarted q);
      cbn; repeat split; intros; try lia.
    all: unfold Player.wait; destruct (Z.eqb_spec (Player.index p) (-1)); [lia|done].
  - destruct (Player.howAboutNow c p); destruct (Player.notStarted p);
      cbn; repeat split; intros; try lia; try discriminate.
    all: unfold Player.wait; destruct (Z.eqb_spec (Player.index p) (-1)); [lia|done].
Qed.

(** X29: [updateLastCallTime] on a player that has not started, or that
    has just played, records the current pulse; the query that follows at
    the same clock then sees no rewind, and leaves the player as it is when
    it answers "not yet".  On a player in the middle of an event
    [updateLastCallTime] does nothing. *)
Theorem updateLastCallTime_then_query c (p : Player.Player) :
  (Player.notStarted p || Player.played p = true →
   Player.lastCallTime (Player.updateLastCallTime c p) = pulses_since_origin c
   ∧ Player.played (Player.updateLastCallTime c p) = false
   ∧ Player.rewind_check c (Player.updateLastCallTime c p)
     = Player.updateLastCallTime c p
   ∧ ((Player.areWeThereYet c (Player.updateLastCallTime c p)).1 = false →
      (Player.areWeThereYet c (Player.updateLastCallTime c p)).2
      = Player.updateLastCallTime c p))
  ∧ (Player.notStarted p || Player.played p = false →
     Player.updateLastCallTime c p = p).
Proof.
  unfold Player.updateLastCallTime. split; intros ->; [|done].
  set (q := Player.mkPlayer _ _ _ _ _ _ _).
  assert (Player.rewind_check c q = q) as Hrw.
  { unfold Player.rewind_check, q. cbn [Player.lastCallTime].
    by rewrite Z.ltb_irrefl. }
  split; [done|]. split; [done|]. split; [done|].
  unfold Player.areWeThereYet. rewrite Hrw. cbn [fst snd].
  intros ->. reflexivity.
Qed.

End MorePlayerFacts.

(** ** MIDI notes *)

Section NoteFacts.

Lemma floor_scaled_bounds (r : Q) (d : Z) :
  (0 <= r)%Q → (r < 1)%Q →
  (1 ≤ d → 0 ≤ Qfloor (r * inject_Z d) < d)
  ∧ (d ≤ 0 → d ≤ Qfloor (r * inject_Z d) ≤ 0).
Proof.
  intros H0 H1.
  pose proof (Qfloor_le (r * inject_Z d)) as Hfl.
  pose proof (Qlt_floor (r * inject_Z d)) as Hfu.
  set (f := Qfloor (r * inject_Z d)) in *. clearbody f.
  assert (inject_Z (f + 1) == inject_Z f + 1)%Q as E
    by (rewrite inject_Z_plus; reflexivity).
  rewrite E in Hfu. clear E.
  split; intros Hd.
  - assert (1 <= inject_Z d)%Q as Hd'.
    { change 1%Q with (inject_Z 1). by rewrite <- Zle_Qle. }
    assert (inject_Z (-1) < inject_Z f)%Q as B1.
    { change (inject_Z (-1)) with (-1)%Q.
      remember (inject_Z d) as D. remember (inject_Z f) as F.
      clear HeqD HeqF. nra. }
    assert (inject_Z f < inject_Z d)%Q as B2.
    { remember (inject_Z d) as D. remember (inject_Z f) as F.
      clear HeqD HeqF. nra. }
    rewrite <- Zlt_Qlt in B1, B2. lia.
  - assert (inject_Z d <= 0)%Q as Hd'.
    { change 0%Q with (inject_Z 0). by rewrite <- Zle_Qle. }
    assert (inject_Z d + inject_Z (-1) < inject_Z f)%Q as B1.
    { change (inject_Z (-1)) with (-1)%Q.
      remember (inject_Z d) as D. remember (inject_Z f) as F.
      clear HeqD HeqF. nra. }
    assert (inject_Z f <= inject_Z 0)%Q as B2.
    { change (inject_Z 0) with 0%Q.
      remember (inject_Z d) as D. remember (inject_Z f) as F.
      clear HeqD HeqF. nra. }
    rewrite <- inject_Z_plus, <- Zlt_Qlt in B1. rewrite <- Zle_Qle in B2. lia.
Qed.

(** X30: for a random number of [0, 1), [random(min, max)] stores a whole
    note of [0..127], whatever [min] and [max] are, and leaves the other
    values alone; [out] sends that note, except that the note 0 is sent as
    60. *)
Theorem note_random_range (r : Q) (min max : option Z) (values : gmap string Q) :
  (0 <= r)%Q → (r < 1)%Q →
  ∃ k : Z,
    Note.random r min max values !! "note"%string = Some (inject_Z k)
    ∧ 0 ≤ k ≤ 127
    ∧ (∀ key, key ≠ "note"%string →
         Note.random r min max values !! key = values !! key)
    ∧ ∀ c pulse_duration getMidiOutputIndex currentMidiPortIndex,
        Note.mn_note
          (Note.out c pulse_duration getMidiOutputIndex currentMidiPortIndex
             (Note.random r min max values))
        = if k =? 0 then 60%Q else inject_Z k.
Proof.
  intros H0 H1. unfold Note.random.
  set (lo := Z.min (Z.max (default 0 min) 0) 127).
  set (hi := Z.min (Z.max (default 127 max) 0) 127).
  assert (0 ≤ lo ≤ 127 ∧ 0 ≤ hi ≤ 127) as [Hlo Hhi] by (unfold lo, hi; lia).
  set (f := Qfloor (r * inject_Z (hi - lo + 1))).
  assert (0 ≤ f + lo ≤ 127) as Hk.
  { pose proof (floor_scaled_bounds r (hi - lo + 1) H0 H1) as [Bp Bn].
    fold f in Bp, Bn.
    destruct (Z.le_gt_cases 1 (hi - lo + 1)) as [Hd|Hd].
    - specialize (Bp Hd). lia.
    - specialize (Bn ltac:(lia)). lia. }
  exists (f + lo). split; [by rewrite lookup_insert_eq|]. split; [done|].
  split; [intros key Hne; by rewrite lookup_insert_ne|].
  intros c pd g cur. unfold Note.out. cbn [Note.mn_note].
  rewrite lookup_insert_eq. cbn [Note.truthy default from_option id].
  destruct (Z.eqb_spec (f + lo) 0) as [E|E].
  - rewrite E. reflexivity.
  - destruct (Qeq_bool (inject_Z (f + lo)) 0) eqn:Eq; [|done].
    apply Qeq_bool_iff in Eq. by apply inject_Z_nonzero in Eq.
Qed.

End NoteFacts.

(** ** The further properties at concrete inputs *)

Section MoreInstances.


(** X2 at [euclid(9, 3, 8, -2)]. *)
Lemma euclid_rotate_shifts_witness :
  0 ≤ 9 ∧ 0 ≤ 3 < 8 ∧ - 8 ≤ -2 ≤ 8
  ∧ API.euclid 9 3 8 (-2) = API.euclid ((9 + -2) `mod` 8) 3 8 0.
Proof.
  split; [lia|]. split; [lia|]. split; [lia|].
  apply (euclid_rotate_shifts 9 3 8 (-2)); lia.
Defined.

(** X3 at [euclid(5, 3, 8, 1)]. *)
Lemma euclid_periodic_witness :
  1 ≤ 8 ∧ 0 ≤ 5 ∧ API.euclid (5 + 8) 3 8 1 = API.euclid 5 3 8 1.
Proof.
  split; [lia|]. split; [lia|].
  apply (proj1 (euclid_periodic 5 3 8 1 ltac:(lia))). lia.
Defined.

(** X4 at [euclid(16, 9, 8, 0)]. *)
Lemma euclid_degenerate_witness :
  1 ≤ 8 < 9 ∧ 0 ≤ 16
  ∧ API.euclid 16 9 8 0 = (if 16 `mod` 8 =? 0 then Some true else None).
Proof.
  split; [lia|]. split; [lia|].
  apply (proj2 (euclid_degenerate 16 9 8 0)); lia.
Defined.

(** X5 at [counter("x", 7, 2)] on the empty registry. *)
Lemma counter_cycle_general_witness :
  API.inherited "x" = false
  ∧ (∅ : gmap string API.Counter) !! "x"%string = None
  ∧ 0 ≤ 7 ∧ 1 ≤ default 1 (Some 2)
  ∧ JS.safe_integer (7 + default 1 (Some 2)) = true
  ∧ API.counter_calls 6 "x" (Some 7) (Some 2) ∅
    = map (fun i => (Z.of_nat i `mod` (7 / default 1 (Some 2) + 1))
                    * default 1 (Some 2)) (seq 0 6).
Proof.
  split; [reflexivity|]. split; [reflexivity|]. split; [lia|].
  split; [cbn; lia|]. split; [reflexivity|].
  apply (counter_cycle_general "x" (Some 2) 7 ∅);
    [reflexivity|reflexivity|lia|cbn; lia|reflexivity].
Defined.

(** X6 at [counter("x", undefined, -3)] on the empty registry. *)
Lemma counter_without_limit_witness :
  API.inherited "x" = false
  ∧ (∅ : gmap string API.Counter) !! "x"%string = None
  ∧ JS.safe_integer (Z.of_nat 4 * default 1 (Some (-3))) = true
  ∧ API.counter_calls 4 "x" None (Some (-3)) ∅
    = map (fun i => Z.of_nat i * default 1 (Some (-3))) (seq 0 4).
Proof.
  split; [reflexivity|]. split; [reflexivity|]. split; [reflexivity|].
  apply (counter_without_limit "x" (Some (-3)) ∅);
    [reflexivity|reflexivity|reflexivity].
Defined.

(** X7 at [counter("x", 5)] on the counter that holds 5: the step brings
    it to 6, which is over the limit, and the call wraps. *)
Lemma counter_within_limit_witness :
  let counters : gmap string API.Counter :=
    <[ "x"%string := API.mkCounter 5 1 (Some 5) ]> ∅ in
  API.inherited "x" = false
  ∧ counters !! "x"%string = Some (API.mkCounter 5 1 (Some 5))
  ∧ 0 ≤ 5
  ∧ (API.counter "x" (Some 5) None counters).1 ≤ 5.
Proof.
  split; [reflexivity|]. split; [apply lookup_insert_eq|]. split; [lia|].
  apply (counter_within_limit "x" 5 None
           (<[ "x"%string := API.mkCounter 5 1 (Some 5) ]> ∅));
    [reflexivity|lia].
Defined.

(** X11 at [[10, 20, 30].loop(4)]. *)
Lemma loop_wraps_witness :
  [10; 20; 30] ≠ [] ∧ 0 ≤ 4
  ∧ Arr.loop [10; 20; 30] (JS.of_Z 4)
    = [10; 20; 30] !! Z.to_nat (4 `mod` Z.of_nat (length [10; 20; 30])).
Proof.
  split; [done|]. split; [lia|].
  apply (proj1 (loop_wraps [10; 20; 30] 4)); [done|lia].
Defined.

(** X12 at [[1, 2, 3].div(0.5)] with [ppqn = 48], on pulse 100: the
    computed modulus is 24. *)
Lemma array_div_follows_div_witness :
  let c := mkClock 120 48 100 (mkTimePosition 1 3 4) 144 in
  JS.floor (JS.mul (JS.Num (1 # 2)) (API.api_ppqn c)) = JS.of_Z 24
  ∧ 0 < 24 ∧ 0 ≤ pulses_since_origin c
  ∧ [1; 2; 3] ≠ []
  ∧ Arr.div c [1; 2; 3] (JS.Num (1 # 2))
    = [1; 2; 3] !! Z.to_nat ((pulses_since_origin c / 24)
                             `mod` Z.of_nat (length [1; 2; 3])).
Proof.
  split; [reflexivity|]. split; [lia|]. split; [cbn; lia|]. split; [done|].
  apply (proj1 (array_div_follows_div
                  (mkClock 120 48 100 (mkTimePosition 1 3 4) 144) [1; 2; 3]
                  (1 # 2) 24 ltac:(reflexivity) ltac:(lia) ltac:(cbn; lia))).
  done.
Defined.

(** X13 at [[1, 2, 3].pick()] with the random number 1/2. *)
Lemma pick_in_array_witness :
  [1; 2; 3] ≠ [] ∧ (0 <= 1 # 2)%Q ∧ (1 # 2 < 1)%Q
  ∧ ∃ x, Arr.pick [1; 2; 3] (JS.Num (1 # 2)) = Some x ∧ x ∈ [1; 2; 3].
Proof.
  split; [done|]. split; [done|]. split; [done|].
  apply (proj1 (pick_in_array [1; 2; 3] (1 # 2))); done.
Defined.

(** X14 at [[1, 2, 3, 4].rotate(1)], index 0. *)
Lemma rotate_moves_right_witness :
  (0 < length [1; 2; 3; 4])%nat
  ∧ Arr.rotate [1; 2; 3; 4] 1 !! 0%nat
    = [1; 2; 3; 4] !! Z.to_nat ((Z.of_nat 0 - 1)
                                `mod` Z.of_nat (length [1; 2; 3; 4])).
Proof.
  split; [cbn; lia|].
  apply (proj1 (proj2 (rotate_moves_right [1; 2; 3; 4] 1))). cbn; lia.
Defined.

(** X16 at an array without duplicates. *)
Lemma unique_first_occurrences_witness :
  NoDup [3; 1; 2] ∧ Arr.unique [3; 1; 2] = [3; 1; 2].
Proof.
  assert (NoDup [3; 1; 2]) as H by (by vm_compute; apply (bool_decide_unpack _); vm_compute).
  split; [exact H|].
  apply (proj1 (proj2 (proj2 (proj2 (unique_first_occurrences [3; 1; 2]))))).
  exact H.
Defined.

(** X17 at [[1, 2].repeatAll(3)]. *)
Lemma repeatAll_blocks_witness :
  1 ≤ 3
  ∧ ∃ l, Arr.repeatAll [1; 2] 3 = Arr.Returns l
         ∧ Z.of_nat (length l) = 3 * Z.of_nat (length [1; 2])
         ∧ (∀ k : nat, l !! k = [1; 2] !! Z.to_nat (Z.of_nat k / 3))
         ∧ ∀ b, 1 ≤ b → Arr.repeatAll l b = Arr.repeatAll [1; 2] (3 * b).
Proof.
  split; [lia|]. apply (proj2 (repeatAll_blocks [1; 2] 3)). lia.
Defined.

(** X18 at [[1, 2, 3].repeatPair(2)] and [[1, 2, 3].repeatOdd(2)], which
    leave five and four elements, and at the amount 0, where both throw. *)
Lemma repeatPair_repeatOdd_witness :
  1 ≤ 2
  ∧ (∃ lp lo,
       Arr.repeatPair [1; 2; 3] 2 = Arr.Returns lp
       ∧ Arr.repeatOdd [1; 2; 3] 2 = Arr.Returns lo
       ∧ Z.of_nat (length lp)
         = 2 * ((Z.of_nat (length [1; 2; 3]) + 1) / 2)
           + Z.of_nat (length [1; 2; 3]) / 2
       ∧ Z.of_nat (length lo)
         = (Z.of_nat (length [1; 2; 3]) + 1) / 2
           + 2 * (Z.of_nat (length [1; 2; 3]) / 2)
       ∧ (∀ x, x ∈ lp ↔ x ∈ [1; 2; 3]) ∧ (∀ x, x ∈ lo ↔ x ∈ [1; 2; 3])
       ∧ (2 = 1 → lp = [1; 2; 3] ∧ lo = [1; 2; 3]))
  ∧ 0 < 1
  ∧ Arr.repeatPair [1; 2; 3] 0 = Arr.Throws "Amount should be at least 1"
  ∧ Arr.repeatOdd [1; 2; 3] 0 = Arr.Throws "Amount should be at least 1".
Proof.
  split; [lia|].
  split; [apply (proj2 (repeatPair_repeatOdd [1; 2; 3] 2)); lia|].
  split; [lia|]. apply (proj1 (repeatPair_repeatOdd [1; 2; 3] 0)). lia.
Defined.

(** X19 with the random number 1/2 at every draw: on three elements the
    first index computed is 1, and the element 2 ends in the last slot. *)
Lemma shuffle_permutes_witness :
  (∀ k : nat, (0 <= (fun _ : nat => 1 # 2) k)%Q
              ∧ ((fun _ : nat => 1 # 2) k < 1)%Q)
  ∧ Arr.shuffle (fun _ => 1 # 2) [1; 2; 3] ≡ₚ [1; 2; 3]
  ∧ [1; 2; 3] ≠ []
  ∧ JS.floor (JS.mul (JS.Num (1 # 2))
                (JS.of_Z (Z.of_nat (length [1; 2; 3])))) = JS.of_Z 1
  ∧ Arr.shuffle (fun _ => 1 # 2) [1; 2; 3] !! (length [1; 2; 3] - 1)%nat
    = [1; 2; 3] !! Z.to_nat 1.
Proof.
  assert (∀ k : nat, (0 <= (fun _ : nat => 1 # 2) k)%Q
                     ∧ ((fun _ : nat => 1 # 2) k < 1)%Q) as H by done.
  pose proof (shuffle_permutes (fun _ => 1 # 2) [1; 2; 3] H)
    as (Hperm & _ & Hlast).
  split; [exact H|]. split; [exact Hperm|]. split; [done|].
  split; [reflexivity|].
  apply Hlast; [done|reflexivity].
Defined.

(** X20 at [[1, 2, 3].degrade(50)] with the random number 1/4 at every
    draw. *)
Lemma degrade_keeps_one_witness :
  (0 <= 50)%Q ∧ (50 <= 100)%Q
  ∧ ∃ l, Arr.degrade (fun _ => 1 # 4) [1; 2; 3] 50 = Some (Arr.Returns l)
         ∧ l `sublist_of` [1; 2; 3]
         ∧ ([1; 2; 3] ≠ [] → l ≠ [])
         ∧ ((50 == 0)%Q → (∀ k : nat, (0 <= 1 # 4)%Q) → l = [1; 2; 3]).
Proof.
  split; [done|]. split; [done|].
  apply (proj1 (proj2 (degrade_keeps_one (fun _ => 1 # 4) [1; 2; 3] 50))); done.
Defined.

(** X21 at [quantize(4, [1, 3, 5, 8])]: 3 and 5 are as near, and the
    differences are whole numbers. *)
Lemma quantize_nearest_witness :
  [1; 3; 5; 8]%Q ≠ []
  ∧ (∀ q, q ∈ [1; 3; 5; 8]%Q → JS.is_double (q - 4) = true)
  ∧ ∃ r i,
      API.quantize (JS.Num 4) (JS.Num <$> [1; 3; 5; 8]%Q) = JS.Num r
      ∧ [1; 3; 5; 8]%Q !! i = Some r
      ∧ (∀ q, q ∈ [1; 3; 5; 8]%Q → (Qabs (r - 4) <= Qabs (q - 4))%Q)
      ∧ (∀ j q, (j < i)%nat → [1; 3; 5; 8]%Q !! j = Some q →
                (Qabs (r - 4) < Qabs (q - 4))%Q).
Proof.
  assert (∀ q, q ∈ [1; 3; 5; 8]%Q → JS.is_double (q - 4) = true) as Hd.
  { intros q Hq. repeat (apply elem_of_cons in Hq as [-> | Hq]; [reflexivity|]).
    by apply elem_of_nil in Hq. }
  split; [done|]. split; [exact Hd|].
  destruct (proj2 (quantize_nearest 4 [1; 3; 5; 8]%Q) ltac:(done))
    as (r & i & Hq & Hi & _ & _ & Hexact).
  exists r, i. split; [exact Hq|]. split; [exact Hi|]. exact (Hexact Hd).
Defined.

(** X25 with the random number 1/2, for [randI(3, 7)] and
    [rand(0.5, 2)]. *)
Lemma random_ranges_witness :
  JS.is_double (1 # 2) = true ∧ (0 <= 1 # 2)%Q ∧ (1 # 2 < 1)%Q
  ∧ 3 ≤ 7
  ∧ JS.safe_integer 3 = true ∧ JS.safe_integer 7 = true
  ∧ JS.safe_integer (7 - 3 + 1) = true
  ∧ (∃ k, 3 ≤ k ≤ 7
          ∧ JS.strict_eq (API.randI (JS.Num (1 # 2)) (JS.of_Z 3) (JS.of_Z 7))
              (JS.of_Z k) = true)
  ∧ (1 # 2 <= 2)%Q
  ∧ JS.is_double (1 # 2) = true ∧ JS.is_double 2 = true
  ∧ (2 - (1 # 2) <= inject_Z (2 ^ 1023))%Q
  ∧ ∃ q, API.rand (JS.Num (1 # 2)) (JS.Num (1 # 2)) (JS.Num 2) = JS.Num q
         ∧ (1 # 2 <= q)%Q ∧ (q <= 2)%Q.
Proof.
  pose proof (random_ranges (1 # 2) ltac:(reflexivity) ltac:(done)
                ltac:(done)) as (HrandI & _ & Hrand).
  split; [reflexivity|]. split; [done|]. split; [done|]. split; [lia|].
  split; [reflexivity|]. split; [reflexivity|]. split; [reflexivity|].
  split.
  { apply HrandI; [lia|reflexivity|reflexivity|reflexivity]. }
  split; [done|]. split; [reflexivity|]. split; [reflexivity|].
  assert (2 - (1 # 2) <= inject_Z (2 ^ 1023))%Q as Hspan
    by (apply Qle_bool_iff; by vm_compute).
  split; [exact Hspan|].
  apply Hrand; [done|reflexivity|reflexivity|exact Hspan].
Defined.

(** X24 at [line(0, 10, 4)]: the values 0, 4, 8 and the number 12 beyond
    the end are whole. *)
Lemma line_values_witness :
  (0 < 10)%Q ∧ (0 < default 1 (Some 4))%Q
  ∧ (∀ k : nat,
       Z.of_nat k ≤ Qfloor ((10 - 0) / default 1%Q (Some 4%Q)) + 1 →
       JS.is_double (0 + inject_Z (Z.of_nat k) * default 1%Q (Some 4%Q))
       = true)
  ∧ Qfloor ((10 - 0) / default 1%Q (Some 4%Q)) + 1 < Z.of_nat 5
  ∧ ∃ l, API.line 5 (JS.Num 0) (JS.Num 10) (JS.Num <$> Some 4%Q) = Some l
         ∧ Z.of_nat (length l)
           = Qfloor ((10 - 0) / default 1%Q (Some 4%Q)) + 1
         ∧ ∀ k : nat, (k < length l)%nat →
             ∃ q, l !! k = Some (JS.Num q)
                  ∧ (q == 0 + inject_Z (Z.of_nat k) * default 1 (Some 4))%Q
                  ∧ (q <= 10)%Q.
Proof.
  assert (∀ k : nat,
       Z.of_nat k ≤ Qfloor ((10 - 0) / default 1%Q (Some 4%Q)) + 1 →
       JS.is_double (0 + inject_Z (Z.of_nat k) * default 1%Q (Some 4%Q))
       = true) as Hd.
  { intros k Hk. change (Qfloor _ + 1) with 3 in Hk.
    destruct k as [|[|[|[|k]]]]; try reflexivity. lia. }
  split; [done|]. split; [done|]. split; [exact Hd|]. split; [done|].
  apply (proj2 (line_values 0 10 (Some 4%Q))); done.
Defined.

(** X23 at the numbers 2, 4, 9: the sums 2, 6, 15 and the mean 5 are
    whole. *)
Lemma min_mean_max_witness :
  [2; 4; 9]%Q ≠ []
  ∧ (∀ k : nat, JS.is_double (fold_right Qplus 0%Q (take k [2; 4; 9]%Q)) = true)
  ∧ JS.is_double (fold_right Qplus 0%Q [2; 4; 9]%Q
                  / inject_Z (Z.of_nat (length [2; 4; 9]%Q))) = true
  ∧ ∃ lo hi m,
      API.min (JS.Num <$> [2; 4; 9]%Q) = JS.Num lo
      ∧ API.max (JS.Num <$> [2; 4; 9]%Q) = JS.Num hi
      ∧ API.mean (JS.Num <$> [2; 4; 9]%Q) = JS.Num m
      ∧ (lo <= m)%Q ∧ (m <= hi)%Q.
Proof.
  assert (∀ k : nat,
            JS.is_double (fold_right Qplus 0%Q (take k [2; 4; 9]%Q)) = true)
    as Hsums by (intros [|[|[|[|k]]]]; reflexivity).
  split; [done|]. split; [exact Hsums|]. split; [reflexivity|].
  destruct (proj2 (proj2 (proj2 (min_mean_max [2; 4; 9]%Q))) ltac:(done))
    as (lo & hi & Hlo & Hhi & _ & _ & _ & Hmean).
  destruct (Hmean Hsums ltac:(reflexivity)) as (m & Hm & _ & H1 & H2).
  exists lo, hi, m. done.
Defined.

(** X26 with the variables [a] and [b], and with the number 7. *)
Lemma variable_round_trip_witness :
  API.inherited "a" = false
  ∧ (API.variable (inl "a"%string) (Some 42)
       (∅ : gmap string (option Z))).1 = Some 42
  ∧ "b"%string ≠ "a"%string
  ∧ (API.variable (inl "b"%string) None
       (API.variable (inl "a"%string) (Some 42) ∅).2).1
    = (API.variable (inl "b"%string) None (∅ : gmap string (option Z))).1
  ∧ (API.variable (inl "a"%string) None
       (API.delete_variable "a"
          (API.variable (inl "a"%string) (Some 42) ∅).2)).1 = None
  ∧ JS.safe_integer 7 = true
  ∧ (API.variable (inl (pretty 7)) None
       (API.variable (inr 7) (Some 42) ∅).2).1 = Some 42.
Proof.
  pose proof (variable_round_trip "a" 42 ∅ ltac:(reflexivity))
    as (Hset & _ & Hother & Hdel & _ & Hnum).
  split; [reflexivity|]. split; [exact Hset|]. split; [done|].
  split; [by apply Hother|]. split; [exact Hdel|]. split; [reflexivity|].
  apply (Hnum 7). reflexivity.
Defined.

(** X27 at a wait of a quarter, which is 48 pulses with [ppqn = 48],
    queried on pulse 10. *)
Lemma wait_gates_start_witness :
  let c := mkClock 120 48 10 (mkTimePosition 1 1 10) 48 in
  0 ≤ pulses_since_origin c
  ∧ JS.is_double ((1 # 4) * 4) = true
  ∧ JS.is_double ((1 # 4) * 4 * inject_Z (ppqn c)) = true
  ∧ Player.waitTime (Player.wait c (-1) (1 # 4) (Player.new_player true))
    = Qceiling ((1 # 4) * 4 * inject_Z (ppqn c))
  ∧ pulses_since_origin c + 1
    < Player.waitTime (Player.wait c (-1) (1 # 4) (Player.new_player true))
  ∧ Player.areWeThereYet c
      (Player.wait c (-1) (1 # 4) (Player.new_player true))
    = (false, Player.wait c (-1) (1 # 4) (Player.new_player true)).
Proof.
  pose proof (wait_gates_start
                (mkClock 120 48 10 (mkTimePosition 1 1 10) 48)
                (mkClock 120 48 10 (mkTimePosition 1 1 10) 48)
                (1 # 4) ltac:(cbn; lia)) as (Hwait & Hnotyet & _).
  split; [cbn; lia|]. split; [reflexivity|]. split; [reflexivity|].
  split; [apply Hwait; reflexivity|]. split; [reflexivity|].
  apply Hnotyet. reflexivity.
Defined.

(** X28 at a player whose [index] is 2. *)
Lemma index_never_back_to_initial_witness :
  let c := mkClock 120 48 10 (mkTimePosition 1 1 10) 48 in
  let p := Player.mkPlayer 1 5 0 false (Some (1 # 4)) 2 false in
  0 ≤ Player.index p ∧ 0 ≤ Player.index (Player.areWeThereYet c p).2.
Proof.
  split; [cbn; lia|].
  apply (proj1 (proj2 (proj2 (index_never_back_to_initial
    (mkClock 120 48 10 (mkTimePosition 1 1 10) 48)
    (Player.mkPlayer 1 5 0 false (Some (1 # 4)) 2 false))))).
  cbn; lia.
Defined.

(** X29 at a player that has just played, on pulse 10. *)
Lemma updateLastCallTime_then_query_witness :
  let c := mkClock 120 48 10 (mkTimePosition 1 1 10) 48 in
  let p := Player.mkPlayer 1 5 0 true (Some (1 # 4)) 2 false in
  Player.notStarted p || Player.played p = true
  ∧ Player.lastCallTime (Player.updateLastCallTime c p) = pulses_since_origin c.
Proof.
  split; [reflexivity|].
  apply (proj1 (updateLastCallTime_then_query
    (mkClock 120 48 10 (mkTimePosition 1 1 10) 48)
    (Player.mkPlayer 1 5 0 true (Some (1 # 4)) 2 false))).
  reflexivity.
Defined.

(** X30 with the random number 1/2 and the default bounds. *)
Lemma note_random_range_witness :
  (0 <= 1 # 2)%Q ∧ (1 # 2 < 1)%Q
  ∧ ∃ k : Z,
      Note.random (1 # 2) None None ∅ !! "note"%string = Some (inject_Z k)
      ∧ 0 ≤ k ≤ 127.
Proof.
  split; [done|]. split; [done|].
  destruct (note_random_range (1 # 2) None None ∅ ltac:(done) ltac:(done))
    as (k & Hk & Hr & _).
  exists k. split; [exact Hk|exact Hr].
Defined.

(** X22 at [clamp(12, 0, 10)]. *)
Lemma clamp_range_witness :
  (0 <= 10)%Q
  ∧ ∃ r, API.clamp (JS.Num 12) (JS.Num 0) (JS.Num 10) = JS.Num r
         ∧ (0 <= r)%Q ∧ (r <= 10)%Q.
Proof.
  split; [done|].
  destruct (clamp_range 12 0 10) as (r & Hr & _ & Hb & _).
  exists r. split; [exact Hr|]. apply Hb. done.
Defined.

End MoreInstances.
